(** * Video downloader (video_downloader_qt.py): queue orchestration,
      job execution, resolution probing and URL classification.

    The development embeds the non-graphical logic of
    [src/video_downloader_qt.py] and proves the properties stated for it.

    Modelling conventions.
    - A Python [str] is a Rocq [string] holding its UTF-8 encoding.  Equality,
      concatenation, [startswith] and the substring test [in] commute with
      the encoding, because UTF-8 is prefix-free and self-synchronising.
    - Python library functions whose tables are not part of the program
      ([re.match], [str.lower], [os.path.basename], the ['.1f'] float
      format) are Variables of the section; every theorem holds for all of
      them.  Executable instances for ASCII/Cyrillic text are given first and
      are used to run the model on concrete inputs.
    - Python floats are idealised as exact rationals ([Q]).
    - Objects shared by reference (the [DownloadRunnable] held both by the
      window and by the thread pool) live in an explicit store and are
      named by their index in it. *)

From Stdlib Require Import ZArith QArith Lqa String Ascii List Lia.
From Stdlib Require Import DecimalString DecimalZ DecimalFacts DecimalPos.
From Stdlib Require Import Sorted Permutation.
From stdpp Require Import base list strings gmap.

Open Scope string_scope.

(** ** Python string operations *)

(** [sub in s]. *)
Fixpoint str_in (sub s : string) : bool :=
  String.prefix sub s ||
  match s with
  | EmptyString => false
  | String _ s' => str_in sub s'
  end.

(** [s.startswith(p)]. *)
Definition startswith (s p : string) : bool := String.prefix p s.

(** [s.replace(c, '')] for a one-character [c]. *)
Fixpoint remove_char (c : ascii) (s : string) : string :=
  match s with
  | EmptyString => EmptyString
  | String a s' =>
      if Ascii.eqb a c then remove_char c s' else String a (remove_char c s')
  end.

Fixpoint string_rev_onto (s acc : string) : string :=
  match s with
  | EmptyString => acc
  | String a s' => string_rev_onto s' (String a acc)
  end.

Definition string_rev (s : string) : string := string_rev_onto s EmptyString.

Definition byte_is (a : ascii) (n : N) : bool := N.eqb (N_of_ascii a) n.

Definition byte_in (a : ascii) (lo hi : N) : bool :=
  N.leb lo (N_of_ascii a) && N.leb (N_of_ascii a) hi.

(** The one-byte code points for which [str.isspace] holds:
    U+0009..U+000D, U+001C..U+001F and U+0020. *)
Definition is_space1 (a : ascii) : bool :=
  byte_in a 9 13 || byte_in a 28 32.

(** Two-byte encodings: U+0085 (C2 85) and U+00A0 (C2 A0). *)
Definition is_space2 (a b : ascii) : bool :=
  byte_is a 194 && (byte_is b 133 || byte_is b 160).

(** Three-byte encodings: U+1680, U+2000..U+200A, U+2028, U+2029, U+202F,
    U+205F and U+3000. *)
Definition is_space3 (a b c : ascii) : bool :=
  (byte_is a 225 && byte_is b 154 && byte_is c 128) ||
  (byte_is a 226 && byte_is b 128 &&
     (byte_in c 128 138 || byte_in c 168 169 || byte_is c 175)) ||
  (byte_is a 226 && byte_is b 129 && byte_is c 159) ||
  (byte_is a 227 && byte_is b 128 && byte_is c 128).

(** [ws_skip s] removes one leading whitespace code point, if there is one. *)
Definition ws_skip (s : string) : option string :=
  match s with
  | String a r1 =>
      if is_space1 a then Some r1
      else match r1 with
           | String b r2 =>
               if is_space2 a b then Some r2
               else match r2 with
                    | String c r3 => if is_space3 a b c then Some r3 else None
                    | EmptyString => None
                    end
           | EmptyString => None
           end
  | EmptyString => None
  end.

(** The same on a reversed string: the bytes of the code point arrive last
    byte first. *)
Definition ws_skip_rev (s : string) : option string :=
  match s with
  | String a r1 =>
      if is_space1 a then Some r1
      else match r1 with
           | String b r2 =>
               if is_space2 b a then Some r2
               else match r2 with
                    | String c r3 => if is_space3 c b a then Some r3 else None
                    | EmptyString => None
                    end
           | EmptyString => None
           end
  | EmptyString => None
  end.

Fixpoint skip_all (skip : string -> option string) (fuel : nat) (s : string)
  : string :=
  match fuel with
  | O => s
  | S fuel' =>
      match skip s with
      | Some r => skip_all skip fuel' r
      | None => s
      end
  end.

Definition lstrip (s : string) : string :=
  skip_all ws_skip (String.length s) s.

Definition rstrip (s : string) : string :=
  string_rev (skip_all ws_skip_rev (String.length s) (string_rev s)).

(** [s.strip()]. *)
Definition strip (s : string) : string := rstrip (lstrip s).



(** [str(n)] for an [int]. *)
Definition py_str_int (z : Z) : string := NilZero.string_of_int (Z.to_int z).

(** [int(s)] on an optional minus sign followed by ASCII digits, which
    covers every string the program passes to it; [None] is [ValueError]. *)
Definition py_int (s : string) : option Z :=
  option_map Z.of_int (NilZero.int_of_string s).

(** ** Executable instances of the Python library functions

    These are used only to run the model on concrete ASCII/Cyrillic inputs;
    the theorems below quantify over arbitrary implementations. *)

(** [str.lower] on ASCII letters and on the Cyrillic block U+0400..U+042F
    (UTF-8 lead byte D0); every other byte is copied. *)
Fixpoint lower_basic (s : string) : string :=
  match s with
  | EmptyString => EmptyString
  | String a r1 =>
      if byte_in a 65 90
      then String (ascii_of_N (N_of_ascii a + 32)) (lower_basic r1)
      else if byte_is a 208
      then match r1 with
           | String b r2 =>
               if byte_in b 144 159
               then String a (String (ascii_of_N (N_of_ascii b + 32))
                                     (lower_basic r2))
               else if byte_in b 160 175
               then String (ascii_of_N 209)
                           (String (ascii_of_N (N_of_ascii b - 32))
                                   (lower_basic r2))
               else if byte_in b 128 143
               then String (ascii_of_N 209)
                           (String (ascii_of_N (N_of_ascii b + 16))
                                   (lower_basic r2))
               else String a (String b (lower_basic r2))
           | EmptyString => String a EmptyString
           end
      else String a (lower_basic r1)
  end.

(** [posixpath.basename]: what follows the last slash. *)
Fixpoint basename_posix_onto (s acc : string) : string :=
  match s with
  | EmptyString => string_rev acc
  | String a s' =>
      if Ascii.eqb a "/" then basename_posix_onto s' EmptyString
      else basename_posix_onto s' (String a acc)
  end.

Definition basename_posix (s : string) : string :=
  basename_posix_onto s EmptyString.

(** A stand-in for [format(x, '.1f')]: the integer part of [x] followed by
    the first decimal digit, truncated (the theorems never depend on it). *)
Definition format_1f_trunc (x : Q) : string :=
  let t := (Qnum x * 10 / Z.pos (Qden x))%Z in
  py_str_int (Z.quot t 10) ++ "." ++ py_str_int (Z.abs (Z.rem t 10)).

(** *** A matcher for the regular-expression syntax used by [URL_PATTERNS] *)

Inductive cset_item : Type :=
| CI_char (a : ascii)
| CI_word
| CI_digit
| CI_nonspace
| CI_any.

Inductive regex : Type :=
| REps
| RSet (items : list cset_item)
| RSeq (r1 r2 : regex)
| RAlt (r1 r2 : regex)
| RStar (r : regex)
| RBol
| REol.

Definition is_digit_byte (a : ascii) : bool := byte_in a 48 57.

Definition is_word_byte (a : ascii) : bool :=
  byte_in a 48 57 || byte_in a 65 90 || byte_in a 97 122 || byte_is a 95.

Definition cset_item_matches (a : ascii) (i : cset_item) : bool :=
  match i with
  | CI_char b => Ascii.eqb a b
  | CI_word => is_word_byte a
  | CI_digit => is_digit_byte a
  | CI_nonspace => negb (is_space1 a)
  | CI_any => negb (byte_is a 10)
  end.

(** Backtracking match of [r] at the front of [s]; [pos] is the number of
    characters already consumed and [k] the continuation. *)
Fixpoint rmatch (r : regex) (pos : nat) (s : string)
  (k : nat -> string -> bool) : bool :=
  match r with
  | REps => k pos s
  | RSet items =>
      match s with
      | String a s' => existsb (cset_item_matches a) items && k (S pos) s'
      | EmptyString => false
      end
  | RSeq r1 r2 => rmatch r1 pos s (fun pos' s' => rmatch r2 pos' s' k)
  | RAlt r1 r2 => rmatch r1 pos s k || rmatch r2 pos s k
  | RStar r1 =>
      (fix loop (fuel : nat) (pos0 : nat) (s0 : string) : bool :=
         match fuel with
         | O => k pos0 s0
         | S fuel' =>
             rmatch r1 pos0 s0
               (fun pos' s' =>
                  if Nat.ltb (String.length s') (String.length s0)
                  then loop fuel' pos' s' else false)
             || k pos0 s0
         end) (String.length s) pos s
  | RBol => Nat.eqb pos 0 && k pos s
  | REol => (String.eqb s EmptyString ||
             String.eqb s (String (ascii_of_N 10) EmptyString))
            && k pos s
  end.

Fixpoint rrepeat (n : nat) (r : regex) : regex :=
  match n with
  | O => REps
  | S n' => RSeq r (rrepeat n' r)
  end.

Definition escape_item (a : ascii) : cset_item :=
  if Ascii.eqb a "w" then CI_word
  else if Ascii.eqb a "d" then CI_digit
  else if Ascii.eqb a "S" then CI_nonspace
  else CI_char a.

(** The inside of a bracket expression, up to the closing bracket. *)
Fixpoint parse_class (s : string) : option (list cset_item * string) :=
  match s with
  | EmptyString => None
  | String a s' =>
      if Ascii.eqb a "]" then Some ([], s')
      else if byte_is a 92
      then match s' with
           | String b s'' =>
               match parse_class s'' with
               | Some (items, rest) => Some (escape_item b :: items, rest)
               | None => None
               end
           | EmptyString => None
           end
      else match parse_class s' with
           | Some (items, rest) => Some (CI_char a :: items, rest)
           | None => None
           end
  end.

(** The decimal count of [{n}], up to the closing brace. *)
Fixpoint parse_count (s : string) (acc : nat) : option (nat * string) :=
  match s with
  | EmptyString => None
  | String a s' =>
      if Ascii.eqb a "}" then Some (acc, s')
      else if is_digit_byte a
      then parse_count s' (10 * acc + (N.to_nat (N_of_ascii a) - 48))
      else None
  end.

(** A postfix quantifier, if one follows. *)
Definition parse_quant (r : regex) (s : string) : option (regex * string) :=
  match s with
  | String a s' =>
      if Ascii.eqb a "?" then Some (RAlt r REps, s')
      else if Ascii.eqb a "*" then Some (RStar r, s')
      else if Ascii.eqb a "+" then Some (RSeq r (RStar r), s')
      else if Ascii.eqb a "{"
      then match parse_count s' 0 with
           | Some (n, rest) => Some (rrepeat n r, rest)
           | None => None
           end
      else Some (r, s)
  | EmptyString => Some (r, s)
  end.

(** A sequence of quantified atoms, up to a closing parenthesis (left in
    the rest) or the end of the pattern. *)
Fixpoint parse_seq (fuel : nat) (s : string) : option (regex * string) :=
  match fuel with
  | O => None
  | S fuel' =>
      match s with
      | EmptyString => Some (REps, s)
      | String a s' =>
          if Ascii.eqb a ")" then Some (REps, s)
          else
            let atom :=
              if Ascii.eqb a "("
              then match s' with
                   | String _ (String _ body) =>
                       if String.prefix "?:" s'
                       then match parse_seq fuel' body with
                            | Some (r, String c rest) =>
                                if Ascii.eqb c ")" then Some (r, rest) else None
                            | _ => None
                            end
                       else None
                   | _ => None
                   end
              else if Ascii.eqb a "["
              then match parse_class s' with
                   | Some (items, rest) => Some (RSet items, rest)
                   | None => None
                   end
              else if byte_is a 92
              then match s' with
                   | String b rest => Some (RSet [escape_item b], rest)
                   | EmptyString => None
                   end
              else if Ascii.eqb a "^" then Some (RBol, s')
              else if Ascii.eqb a "$" then Some (REol, s')
              else if Ascii.eqb a "." then Some (RSet [CI_any], s')
              else Some (RSet [CI_char a], s') in
            match atom with
            | Some (r, rest) =>
                match parse_quant r rest with
                | Some (rq, rest') =>
                    match parse_seq fuel' rest' with
                    | Some (tail, rest'') => Some (RSeq rq tail, rest'')
                    | None => None
                    end
                | None => None
                end
            | None => None
            end
      end
  end.

Definition parse_regex (p : string) : option regex :=
  match parse_seq (S (String.length p)) p with
  | Some (r, EmptyString) => Some r
  | _ => None
  end.

(** [re.match(pattern, s) is not None] for ASCII subjects. *)
Definition re_match_basic (pattern s : string) : bool :=
  match parse_regex pattern with
  | Some r => rmatch r 0 s (fun _ _ => true)
  | None => false
  end.


(** ** Data of the program *)

(** Values found in the dictionaries handed over by the retrieval engine. *)
Inductive pyval : Type :=
| PNone
| PNum (q : Q)
| PStr (s : string).

(** Truth value of a Python object. *)
Definition truthy (v : pyval) : bool :=
  match v with
  | PNone => false
  | PNum q => negb (Qeq_bool q 0)
  | PStr s => negb (String.eqb s EmptyString)
  end.

(** [a or b]. *)
Definition py_or (a b : pyval) : pyval := if truthy a then a else b.

(** [d.get(k, default)]. *)
Definition dict_get (d : gmap string pyval) (k : string) (default : pyval)
  : pyval :=
  match d !! k with
  | Some v => v
  | None => default
  end.

(** [v == s] for a string literal [s]. *)
Definition is_str (v : pyval) (s : string) : bool :=
  match v with
  | PStr t => String.eqb t s
  | _ => false
  end.

(** One entry of [info['formats']]: the two keys [ResolutionWorker.run]
    reads.  [None] stands for a missing key or a [None] value, which
    [fmt.get] does not distinguish. *)
Record format : Type := mkFormat {
  height : option Z;
  vcodec : option string
}.

(** What [ydl.extract_info(url, download=False)] does: it returns a
    dictionary whose ['formats'] key may be missing, or the [try] block is
    left by an exception (the call raises, or its result cannot be read). *)
Inductive extract_result : Type :=
| ExtractRaises
| ExtractInfo (formats : option (list format)).

(** The signal emitted by [ResolutionWorker.run]. *)
Inductive probe_signal : Type :=
| resolutions_found (sorted_resolutions : list string)
| error_occurred (message : string).

(** An element of [download_queue]: the dictionary built by
    [add_to_queue]. *)
Record queue_item : Type := mkItem {
  item_url : string;
  item_mode : string;
  item_resolution : option string;
  item_service : string
}.

(** The attributes of a [DownloadRunnable]. *)
Record DownloadRunnable : Type := mkRunnable {
  url : string;
  mode : string;
  resolution : option string;
  output_dir : string;
  cancel_event : bool;
  downloaded_filename : option string
}.

(** Outcome of one call of [progress_hook]: it raises, or returns after
    emitting [progress] signals and possibly updating the runnable. *)
Inductive hook_result : Type :=
| HookRaise (message : string)
| HookDone (r : DownloadRunnable) (progress : list (string * Q)).

(** Where the worker thread of a runnable stands. *)
Inductive worker_phase : Type :=
| WQueued
| WDownloading
| WEmitted (success : bool) (message filename : string).

(** Modal dialogs shown by the window. *)
Inductive dialog : Type :=
| WarnInvalidUrl (message : string)
| InfoQueueEmpty
| Summary (successful failed : list (string * string)).

(** The state of [VideoDownloaderUI] together with the objects it shares
    with the thread pool.  [store] holds every [DownloadRunnable] created
    so far; [current_download] and the entries of [thread_pool] are indices
    into it.  [thread_pool] lists the runnables passed to
    [QThreadPool.start] whose [finished] signal has not been handled yet.
    [controls_enabled] is the enabled state of [url_input], [video_radio]
    and [audio_radio], which only [set_controls_enabled] writes, always
    together; [resolution_combo_enabled] is that of [resolution_combo],
    which the resolution probe writes as well. *)
Record UI : Type := mkUI {
  store : list DownloadRunnable;
  current_download : option nat;
  download_queue : list queue_item;
  successful_downloads : list (string * string);
  failed_downloads : list (string * string);
  thread_pool : list (nat * worker_phase);
  controls_enabled : bool;
  resolution_combo_enabled : bool;
  progress_log : list (string * Q);
  dialogs : list dialog
}.

(** Events of the system: user actions on the window, steps of the worker
    thread running a runnable, delivery of its [finished] signal, and
    delivery of a signal of a [ResolutionWorker].  [OpPaste] is the paste
    button or Ctrl+V with the text of the clipboard, [OpRefresh] the refresh
    button with the text of the URL field. *)
Inductive op : Type :=
| OpAdd (text : string) (video_checked : bool) (combo_text : string)
| OpStart
| OpCancel
| OpRemove (current_row : Z)
| OpClear (yes : bool)
| WkEnter (rid : nat)
| WkHook (rid : nat) (d : gmap string pyval)
| WkReturn (rid : nat)
| WkRaise (rid : nat) (error : string)
| OpDeliver (rid : nat)
| OpPaste (clipboard : string) (video_checked : bool)
| OpRefresh (text : string)
| OpProbeSignal (signal : probe_signal).

(** ** Sample inputs

    Concrete URLs, engine dictionaries and states on which the model is
    run below. *)

Definition url_a : string := "https://youtu.be/aaaaaaaaaaa".
Definition url_b : string := "https://youtu.be/bbbbbbbbbbb".
Definition url_c : string := "https://www.youtube.com/watch?v=ccccccccccc".

Definition item_a : queue_item := mkItem url_a "audio" None "YouTube".
Definition item_b : queue_item := mkItem url_b "video" (Some "720p") "YouTube".
Definition item_c : queue_item := mkItem url_c "audio" None "YouTube".

(** The three jobs being enqueued. *)
Definition add_a : op := OpAdd url_a false "720p".
Definition add_b : op := OpAdd url_b true "720p".
Definition add_c : op := OpAdd url_c false "720p".

(** A "downloading" callback with both byte counts. *)
Definition downloading (x t : Z) : gmap string pyval :=
  <["status" := PStr "downloading"]>
    (<["downloaded_bytes" := PNum (inject_Z x)]>
       (<["total_bytes" := PNum (inject_Z t)]> ∅)).

(** A "downloading" callback of a fragmented download: no [total_bytes],
    and more bytes received than the engine had estimated. *)
Definition downloading_past_estimate : gmap string pyval :=
  <["status" := PStr "downloading"]>
    (<["downloaded_bytes" := PNum 150]>
       (<["total_bytes" := PNone]>
          (<["total_bytes_estimate" := PNum 100]> ∅))).

(** A "downloading" callback without any total. *)
Definition downloading_unknown_total : gmap string pyval :=
  <["status" := PStr "downloading"]>
    (<["downloaded_bytes" := PNum 150]> ∅).

(** The runnable of job A while its download is in progress, before and
    after the cancel button is pressed. *)
Definition runnable_a : DownloadRunnable :=
  mkRunnable url_a "audio" None "downloads" false None.

Definition runnable_a_cancelled : DownloadRunnable :=
  mkRunnable url_a "audio" None "downloads" true None.

(** The window while job A is downloading and job B waits; in the second
    state the cancel button has been pressed. *)
Definition ui_downloading_a : UI :=
  mkUI [runnable_a] (Some 0) [item_a; item_b] [] []
       [(0, WDownloading)] false false [] [].

Definition ui_cancelling_a : UI :=
  mkUI [runnable_a_cancelled] (Some 0) [item_a; item_b] [] []
       [(0, WDownloading)] false false [] [].


(** The fixture of the specification: heights 360, 720, 720, 1080 and
    entries without a video codec. *)
Definition fixture_formats : list format :=
  [ mkFormat (Some 360%Z) (Some "avc1");
    mkFormat (Some 720%Z) (Some "avc1");
    mkFormat (Some 720%Z) (Some "vp9");
    mkFormat (Some 1080%Z) (Some "av01");
    mkFormat (Some 2160%Z) (Some "none");
    mkFormat None (Some "none") ].

(** A fixture without any video-bearing format. *)
Definition audio_only_formats : list format :=
  [ mkFormat (Some 1080%Z) (Some "none");
    mkFormat None (Some "mp4a") ].

(** A "finished" callback for the file of job A. *)
Definition finished_a : gmap string pyval :=
  <["status" := PStr "finished"]>
    (<["filename" := PStr "downloads/a_audio.webm"]> ∅).

(** Three jobs are added and started; the entry of the running job is
    removed from the list while it downloads, and the job then ends. *)
Definition events_with_removal : list op :=
  [add_a; add_b; add_c; OpStart; WkEnter 0; OpRemove 0; WkReturn 0;
   OpDeliver 0].

(** A single job from its addition to the handling of its terminal event. *)
Definition events_to_idle : list op :=
  [add_a; OpStart; WkEnter 0; WkHook 0 finished_a; WkReturn 0; OpDeliver 0].

(** While job A downloads, a URL is pasted with the video mode selected,
    which starts a resolution probe, and the probe answers. *)
Definition events_with_probe : list op :=
  [add_a; add_b; OpStart; WkEnter 0; OpPaste url_c true;
   OpProbeSignal (resolutions_found ["1080p"; "720p"])].

(** A job is started, cancelled, and its hook is called once more. *)
Definition events_cancelled : list op :=
  [add_a; add_b; OpStart; WkEnter 0; WkHook 0 (downloading 5 10); OpCancel;
   WkHook 0 (downloading 6 10)].

(** ** The program *)

Section Program.

(** [re.match(pattern, s) is not None]. *)
Variable re_match : string -> string -> bool.
(** [s.lower()]. *)
Variable str_lower : string -> string.
(** [os.path.basename(s)]. *)
Variable os_path_basename : string -> string.
(** [format(x, '.1f')]. *)
Variable format_1f : Q -> string.

(** *** Module-level functions and constants *)

Definition get_service_name (u : string) : string :=
  if str_in "youtube.com" u || str_in "youtu.be" u then "YouTube"
  else if str_in "vk.com" u || str_in "vkvideo.ru" u then "VK"
  else if str_in "rutube.ru" u then "RuTube"
  else if str_in "ok.ru" u then "Одноклассники"
  else if str_in "mail.ru" u then "Mail.ru"
  else "Неизвестный сервис".

(** The dictionary [URL_PATTERNS] in insertion order. *)
Definition URL_PATTERNS : list (string * list string) :=
  [ ("YouTube",
      [ "^https?://(?:www\.)?youtube\.com/watch\?v=[\w-]{11}(?:&\S*)?$";
        "^https?://youtu\.be/[\w-]{11}(?:\?\S*)?$";
        "^https?://(?:www\.)?youtube\.com/shorts/[\w-]{11}(?:\?\S*)?$";
        "^https?://(?:www\.)?youtube\.com/embed/[\w-]{11}(?:\?\S*)?$" ]);
    ("VK",
      [ "^https?://(?:www\.)?vk\.com/video-?\d+_\d+(?:\?\S*)?$";
        "^https?://(?:www\.)?vkvideo\.ru/video-?\d+_\d+(?:\?\S*)?$" ]);
    ("RuTube",
      [ "^https?://(?:www\.)?rutube\.ru/video/[\w-]{32}/?(?:\?\S*)?$";
        "^https?://(?:www\.)?rutube\.ru/play/embed/[\w-]{32}/?(?:\?\S*)?$" ]);
    ("Одноклассники",
      [ "^https?://(?:www\.)?ok\.ru/video/\d+(?:\?\S*)?$" ]);
    ("Mail.ru",
      [ "^https?://(?:www\.)?my\.mail\.ru/(?:[\w/]+/)?video/(?:[\w/]+/)\d+\.html(?:\?\S*)?$" ]) ].

(** *** VideoDownloaderUI.is_valid_video_url *)

Definition MSG_EMPTY_URL : string := "URL не может быть пустым".
Definition MSG_BAD_SCHEME : string :=
  "URL должен начинаться с http:// или https://".
Definition MSG_UNSUPPORTED : string :=
  "Неподдерживаемый видеосервис или неверный формат URL".
Definition msg_malformed (service_name : string) : string :=
  "Неверный формат URL для " ++ service_name ++
  ". Проверьте правильность ссылки.".

(** The first loop: does some pattern of some service match? *)
Definition matches_some_pattern (u : string) : bool :=
  existsb (fun entry => existsb (fun pattern => re_match pattern u)
                                (snd entry))
          URL_PATTERNS.

(** The test of the second loop. *)
Definition mentions_service (u service_name : string) : bool :=
  str_in (str_lower service_name) (str_lower u).

Definition is_valid_video_url (u : string) : bool * string :=
  if String.eqb u EmptyString then (false, MSG_EMPTY_URL)
  else if negb (startswith u "http://" || startswith u "https://")
  then (false, MSG_BAD_SCHEME)
  else if matches_some_pattern u then (true, EmptyString)
  else match List.find (mentions_service u) (map fst URL_PATTERNS) with
       | Some service_name => (false, msg_malformed service_name)
       | None => (false, MSG_UNSUPPORTED)
       end.

(** *** ResolutionWorker.run *)

Definition MSG_PROBE_FAILED : string :=
  "Не удалось получить доступные разрешения. Проверьте URL и подключение к интернету.".

(** The condition of the set comprehension:
    [fmt.get('height') and fmt.get('vcodec') != 'none'].  A format counts as
    carrying video unless its codec is the string "none"; a missing codec
    passes the test. *)
Definition format_usable (fmt : format) : bool :=
  match height fmt with
  | Some h => negb (Z.eqb h 0)
  | None => false
  end &&
  negb (match vcodec fmt with
        | Some c => String.eqb c "none"
        | None => false
        end).

(** The heights of the formats that pass the condition. *)
Definition usable_heights (formats : list format) : list Z :=
  omap (fun fmt => if format_usable fmt then height fmt else None) formats.

(** The element built for a height: [f"{fmt['height']}p"]. *)
Definition resolution_label (h : Z) : string := py_str_int h ++ "p".

(** The sort key: [int(x.replace('p', ''))]. *)
Definition resolution_key (x : string) : option Z :=
  py_int (remove_char "p" x).

(** Insertion of a keyed element into a list sorted by descending key; the
    new element goes in front of elements with an equal key. *)
Fixpoint insert_desc (x : Z * string) (l : list (Z * string))
  : list (Z * string) :=
  match l with
  | [] => [x]
  | y :: l' =>
      if (fst y <=? fst x)%Z then x :: l else y :: insert_desc x l'
  end.

(** [sorted(l, key=..., reverse=True)]: the keys are computed first (a key
    that raises aborts the call), then a stable descending sort is done. *)
Definition sorted_desc (l : list string) : option (list string) :=
  keyed ← mapM (fun x => k ← resolution_key x; Some (k, x)) l;
  Some (map snd (foldr insert_desc [] keyed)).

(** [run], for a given iteration order [enum] of the set [resolutions]. *)
Definition ResolutionWorker_run_with (enum : gset string -> list string)
  (res : extract_result) : probe_signal :=
  match res with
  | ExtractRaises => error_occurred MSG_PROBE_FAILED
  | ExtractInfo formats =>
      let formats := default [] formats in
      let resolutions : gset string :=
        list_to_set (map resolution_label (usable_heights formats)) in
      let resolutions : gset string :=
        if decide (resolutions = ∅) then {[ "720p" ]} else resolutions in
      match sorted_desc (enum resolutions) with
      | Some sorted_resolutions => resolutions_found sorted_resolutions
      | None => error_occurred MSG_PROBE_FAILED
      end
  end.

Definition ResolutionWorker_run : extract_result -> probe_signal :=
  ResolutionWorker_run_with elements.

(** *** DownloadRunnable *)

Definition MSG_DONE : string := "Загрузка завершена".
Definition MSG_CANCELLED : string := "Загрузка отменена".
Definition MSG_CANCELLED_BY_USER : string := "Загрузка отменена пользователем".
Definition MSG_NO_RESOLUTION : string := "Не указано разрешение для видео".
Definition MSG_404 : string :=
  "Ошибка: Видео не найдено (404). Возможно, оно было удалено или является приватным.".
Definition MSG_403 : string :=
  "Ошибка: Доступ запрещен (403). Видео может быть недоступно в вашем регионе.".
Definition MSG_AGE : string :=
  "Ошибка: Видео имеет возрастные ограничения и требует авторизации.".
Definition MSG_CONNECTION : string :=
  "Ошибка подключения. Проверьте соединение с интернетом или попробуйте позже.".
Definition MSG_COPYRIGHT : string :=
  "Ошибка: Видео недоступно из-за нарушения авторских прав.".
Definition msg_generic (error : string) : string :=
  "Ошибка загрузки: " ++ error.

Definition get_user_friendly_error_message (error : string) : string :=
  if str_in "HTTP Error 404" error then MSG_404
  else if str_in "HTTP Error 403" error then MSG_403
  else if str_in "Sign in to confirm your age" error
          || str_in "age-restricted" error then MSG_AGE
  else if str_in "SSL" error
          || str_in "подключени" (str_lower error)
          || str_in "connect" (str_lower error) then MSG_CONNECTION
  else if str_in "copyright" (str_lower error)
          || str_in "copyright infringement" error then MSG_COPYRIGHT
  else msg_generic error.

(** [DownloadRunnable(url, mode, resolution)] with the default
    [output_dir]. *)
Definition new_runnable (u m : string) (res : option string)
  : DownloadRunnable :=
  mkRunnable u m res "downloads" false None.

(** [cancel]: sets the event. *)
Definition cancel (r : DownloadRunnable) : DownloadRunnable :=
  mkRunnable (url r) (mode r) (resolution r) (output_dir r) true
             (downloaded_filename r).

Definition set_downloaded_filename (r : DownloadRunnable) (f : string)
  : DownloadRunnable :=
  mkRunnable (url r) (mode r) (resolution r) (output_dir r) (cancel_event r)
             (Some f).

(** [progress_hook].  In the ['downloading'] branch a [TypeError] of the
    division (a byte count that is not a number) is caught by the inner
    [try] and nothing is emitted; in the ['finished'] branch a file name
    that is not a string makes [os.path.basename] raise. *)
Definition progress_hook (r : DownloadRunnable) (d : gmap string pyval)
  : hook_result :=
  if cancel_event r then HookRaise MSG_CANCELLED_BY_USER
  else if is_str (dict_get d "status" PNone) "downloading" then
    let downloaded := dict_get d "downloaded_bytes" (PNum 0) in
    let total := py_or (dict_get d "total_bytes" (PNum 0))
                       (dict_get d "total_bytes_estimate" (PNum 0)) in
    if truthy total then
      match downloaded, total with
      | PNum x, PNum t =>
          let percent := ((x / t) * 100)%Q in
          HookDone r [("Загрузка: " ++ format_1f percent ++ "%", percent)]
      | _, _ => HookDone r []
      end
    else HookDone r [("Загрузка...", (-1)%Q)]
  else if is_str (dict_get d "status" PNone) "finished" then
    match dict_get d "filename" (PStr EmptyString) with
    | PStr f =>
        HookDone (set_downloaded_filename r (os_path_basename f))
                 [("Обработка файла...", 100%Q)]
    | PNone =>
        HookRaise "expected str, bytes or os.PathLike object, not NoneType"
    | PNum _ =>
        HookRaise "expected str, bytes or os.PathLike object, not int"
    end
  else HookDone r [].

(** How [download_video] or [download_audio] ends. *)
Inductive download_end : Type :=
| Returned (success : bool)
| Raised (error : string).

(** The tail of [run]: the arguments of the [finished] signal for each way
    the download call can end. *)
Definition run_finished (r : DownloadRunnable) (e : download_end)
  : bool * string * string :=
  match e with
  | Returned true =>
      (true, MSG_DONE, default EmptyString (downloaded_filename r))
  | Returned false => (false, MSG_CANCELLED, EmptyString)
  | Raised error =>
      (false, get_user_friendly_error_message error, EmptyString)
  end.

(** The test [if not self.resolution] at the head of [download_video]. *)
Definition resolution_missing (r : DownloadRunnable) : bool :=
  match resolution r with
  | Some s => String.eqb s EmptyString
  | None => true
  end.

(** *** VideoDownloaderUI: the queue

    Widget updates without effect on the queue (status label, progress bar,
    list display, settings file, removal of temporary files) are left out;
    dialogs and the enabling of the input controls are kept. *)

(** The state after [__init__]. *)
Definition initial_ui : UI :=
  mkUI [] None [] [] [] [] true true [] [].

Definition with_store (st : UI) (s : list DownloadRunnable) : UI :=
  mkUI s (current_download st) (download_queue st) (successful_downloads st)
       (failed_downloads st) (thread_pool st) (controls_enabled st)
       (resolution_combo_enabled st) (progress_log st) (dialogs st).

Definition with_current (st : UI) (c : option nat) : UI :=
  mkUI (store st) c (download_queue st) (successful_downloads st)
       (failed_downloads st) (thread_pool st) (controls_enabled st)
       (resolution_combo_enabled st) (progress_log st) (dialogs st).

Definition with_queue (st : UI) (q : list queue_item) : UI :=
  mkUI (store st) (current_download st) q (successful_downloads st)
       (failed_downloads st) (thread_pool st) (controls_enabled st)
       (resolution_combo_enabled st) (progress_log st) (dialogs st).

Definition with_successful (st : UI) (l : list (string * string)) : UI :=
  mkUI (store st) (current_download st) (download_queue st) l
       (failed_downloads st) (thread_pool st) (controls_enabled st)
       (resolution_combo_enabled st) (progress_log st) (dialogs st).

Definition with_failed (st : UI) (l : list (string * string)) : UI :=
  mkUI (store st) (current_download st) (download_queue st)
       (successful_downloads st) l (thread_pool st) (controls_enabled st)
       (resolution_combo_enabled st) (progress_log st) (dialogs st).

Definition with_pool (st : UI) (p : list (nat * worker_phase)) : UI :=
  mkUI (store st) (current_download st) (download_queue st)
       (successful_downloads st) (failed_downloads st) p
       (controls_enabled st) (resolution_combo_enabled st)
       (progress_log st) (dialogs st).

(** [resolution_combo.setEnabled]. *)
Definition with_combo_enabled (st : UI) (enabled : bool) : UI :=
  mkUI (store st) (current_download st) (download_queue st)
       (successful_downloads st) (failed_downloads st) (thread_pool st)
       (controls_enabled st) enabled (progress_log st) (dialogs st).

(** [set_controls_enabled]: the URL field, the two radio buttons and the
    resolution combo. *)
Definition set_controls_enabled (st : UI) (enabled : bool) : UI :=
  mkUI (store st) (current_download st) (download_queue st)
       (successful_downloads st) (failed_downloads st) (thread_pool st)
       enabled enabled (progress_log st) (dialogs st).

Definition log_progress (st : UI) (events : list (string * Q)) : UI :=
  mkUI (store st) (current_download st) (download_queue st)
       (successful_downloads st) (failed_downloads st) (thread_pool st)
       (controls_enabled st) (resolution_combo_enabled st)
       (progress_log st ++ events) (dialogs st).

Definition show_dialog (st : UI) (dlg : dialog) : UI :=
  mkUI (store st) (current_download st) (download_queue st)
       (successful_downloads st) (failed_downloads st) (thread_pool st)
       (controls_enabled st) (resolution_combo_enabled st)
       (progress_log st) (dialogs st ++ [dlg]).

(** The runnable [current_download] refers to. *)
Definition current_runnable (st : UI) : option DownloadRunnable :=
  rid ← current_download st; store st !! rid.

Definition add_to_queue (st : UI) (text : string) (video_checked : bool)
  (combo_text : string) : UI :=
  let u := strip text in
  let '(is_valid, error_message) := is_valid_video_url u in
  if negb is_valid then show_dialog st (WarnInvalidUrl error_message)
  else
    let m := if video_checked then "video" else "audio" in
    let res := if String.eqb m "video" then Some combo_text else None in
    with_queue st (download_queue st ++
                   [mkItem u m res (get_service_name u)]).

(** [update_resolutions]; [text] is the text of the URL field.  Past the
    guard the combo is emptied and disabled and a [ResolutionWorker] is
    started, whose signal re-enables it. *)
Definition update_resolutions (st : UI) (text : string) : UI :=
  let u := strip text in
  if String.eqb u EmptyString
     || negb (startswith u "http://" || startswith u "https://")
  then st
  else with_combo_enabled st false.

Definition on_resolutions_found (st : UI) (sorted_resolutions : list string)
  : UI :=
  with_combo_enabled st true.

Definition on_resolutions_error (st : UI) (error_msg : string) : UI :=
  with_combo_enabled st true.

(** [paste_url]; [clipboard] is the text of the clipboard.  An accepted URL
    is put into the URL field, which [update_resolutions] then reads. *)
Definition paste_url (st : UI) (clipboard : string) (video_checked : bool)
  : UI :=
  let u := strip clipboard in
  let '(is_valid, error_message) := is_valid_video_url u in
  if negb is_valid then show_dialog st (WarnInvalidUrl error_message)
  else if video_checked then update_resolutions st u
  else st.

Definition process_queue (st : UI) : UI :=
  match download_queue st with
  | [] => set_controls_enabled st true
  | download :: _ =>
      let rid := length (store st) in
      let download_runnable :=
        new_runnable (item_url download) (item_mode download)
                     (item_resolution download) in
      let st := with_store st (store st ++ [download_runnable]) in
      let st := with_current st (Some rid) in
      with_pool st (thread_pool st ++ [(rid, WQueued)])
  end.

Definition start_downloads (st : UI) : UI :=
  match download_queue st with
  | [] => show_dialog st InfoQueueEmpty
  | _ :: _ =>
      let st := set_controls_enabled st false in
      match current_download st with
      | None => process_queue st
      | Some _ => st
      end
  end.

Definition show_download_summary (st : UI) : UI :=
  match successful_downloads st, failed_downloads st with
  | [], [] => st
  | _, _ =>
      let st := show_dialog st (Summary (successful_downloads st)
                                        (failed_downloads st)) in
      with_failed (with_successful st []) []
  end.

(** The first part of [on_download_finished]: recording the outcome. *)
Definition record_outcome (st : UI) (success : bool)
  (message filename : string) : UI :=
  if success then
    match current_runnable st with
    | Some r =>
        if negb (String.eqb filename EmptyString)
        then with_successful st
               (successful_downloads st ++ [(filename, url r)])
        else st
    | None => st
    end
  else
    match current_runnable st with
    | Some r => with_failed st (failed_downloads st ++ [(url r, message)])
    | None => st
    end.

(** The second part: dropping the head of the queue and moving on. *)
Definition advance_queue (st : UI) : UI :=
  let st := with_queue st (match download_queue st with
                           | [] => []
                           | _ :: rest => rest
                           end) in
  let st := with_current st None in
  match download_queue st with
  | [] => set_controls_enabled (show_download_summary st) true
  | _ :: _ => process_queue st
  end.

Definition on_download_finished (st : UI) (success : bool)
  (message filename : string) : UI :=
  advance_queue (record_outcome st success message filename).

Definition cancel_download (st : UI) : UI :=
  match current_download st with
  | Some rid =>
      match store st !! rid with
      | Some r => with_store st (<[rid := cancel r]> (store st))
      | None => st
      end
  | None => st
  end.

(** [clear_queue]; [yes] is the answer to the confirmation dialog. *)
Definition clear_queue (st : UI) (yes : bool) : UI :=
  match download_queue st with
  | [] => st
  | _ :: _ => if yes then with_queue st [] else st
  end.

(** [remove_selected]; [current_row] is [queue_list.currentRow()], which is
    [-1] when nothing is selected.  [None] is the [IndexError] of [del]. *)
Definition remove_selected (st : UI) (current_row : Z) : option UI :=
  if (0 <=? current_row)%Z then
    if (current_row <? Z.of_nat (length (download_queue st)))%Z
    then Some (with_queue st
                 (delete (Z.to_nat current_row) (download_queue st)))
    else None
  else Some st.

(** *** The worker side

    A runnable handed to the pool goes through [WQueued] (not yet running),
    [WDownloading] (inside [ydl.download]) and [WEmitted] ([finished] has
    been emitted and waits in the event loop of the window).  The retrieval
    engine is the environment: it calls the progress hook, returns, or
    raises.  An exception raised by the hook is taken to travel through
    [ydl.download] to the download method, which re-raises it. *)

Definition pool_phase (st : UI) (rid : nat) : option worker_phase :=
  snd <$> List.find (fun e => Nat.eqb (fst e) rid) (thread_pool st).

Definition pool_set (st : UI) (rid : nat) (ph : worker_phase) : UI :=
  with_pool st (map (fun e => if Nat.eqb (fst e) rid then (rid, ph) else e)
                    (thread_pool st)).

Definition pool_remove (st : UI) (rid : nat) : UI :=
  with_pool st (filter (fun e => fst e ≠ rid) (thread_pool st)).

(** [finished.emit(...)] at the end of [run]. *)
Definition emit_finished (st : UI) (rid : nat) (r : DownloadRunnable)
  (e : download_end) : UI :=
  let '(success, message, filename) := run_finished r e in
  pool_set st rid (WEmitted success message filename).

(** Entering [run]: [download_video] first checks the resolution. *)
Definition worker_enter (st : UI) (rid : nat) : option UI :=
  match pool_phase st rid, store st !! rid with
  | Some WQueued, Some r =>
      if String.eqb (mode r) "video" && resolution_missing r
      then Some (emit_finished st rid r (Raised MSG_NO_RESOLUTION))
      else Some (pool_set st rid WDownloading)
  | _, _ => None
  end.

(** The engine calls the progress hook with [d]. *)
Definition worker_hook (st : UI) (rid : nat) (d : gmap string pyval)
  : option UI :=
  match pool_phase st rid, store st !! rid with
  | Some WDownloading, Some r =>
      match progress_hook r d with
      | HookRaise message => Some (emit_finished st rid r (Raised message))
      | HookDone r' events =>
          Some (log_progress (with_store st (<[rid := r']> (store st)))
                             events)
      end
  | _, _ => None
  end.

(** [ydl.download] returns, so [download_video] / [download_audio] return
    [True]. *)
Definition worker_return (st : UI) (rid : nat) : option UI :=
  match pool_phase st rid, store st !! rid with
  | Some WDownloading, Some r => Some (emit_finished st rid r (Returned true))
  | _, _ => None
  end.

(** [ydl.download] raises [error]; the download method re-raises it. *)
Definition worker_raise (st : UI) (rid : nat) (error : string) : option UI :=
  match pool_phase st rid, store st !! rid with
  | Some WDownloading, Some r => Some (emit_finished st rid r (Raised error))
  | _, _ => None
  end.

(** The window handles the [finished] signal of runnable [rid]. *)
Definition deliver_finished (st : UI) (rid : nat) : option UI :=
  match pool_phase st rid with
  | Some (WEmitted success message filename) =>
      Some (on_download_finished (pool_remove st rid)
                                 success message filename)
  | _ => None
  end.

(** One event; [None] when the event cannot occur in the state.  A signal
    of a resolution probe may arrive at any time, which covers every
    schedule of the probe threads. *)
Definition step (st : UI) (o : op) : option UI :=
  match o with
  | OpAdd text video_checked combo_text =>
      Some (add_to_queue st text video_checked combo_text)
  | OpStart => Some (start_downloads st)
  | OpCancel => Some (cancel_download st)
  | OpRemove current_row => remove_selected st current_row
  | OpClear yes => Some (clear_queue st yes)
  | WkEnter rid => worker_enter st rid
  | WkHook rid d => worker_hook st rid d
  | WkReturn rid => worker_return st rid
  | WkRaise rid error => worker_raise st rid error
  | OpDeliver rid => deliver_finished st rid
  | OpPaste clipboard video_checked =>
      Some (paste_url st clipboard video_checked)
  | OpRefresh text => Some (update_resolutions st text)
  | OpProbeSignal (resolutions_found sorted_resolutions) =>
      Some (on_resolutions_found st sorted_resolutions)
  | OpProbeSignal (error_occurred error_msg) =>
      Some (on_resolutions_error st error_msg)
  end.

Fixpoint run_ops (st : UI) (ops : list op) : option UI :=
  match ops with
  | [] => Some st
  | o :: ops' =>
      match step st o with
      | Some st' => run_ops st' ops'
      | None => None
      end
  end.

(** *** DownloadRunnable.download_video: the request *)

(** [ydl_opts['format']] for a resolution text: the height bound is the
    text without its letters "p". *)
Definition video_format (res : string) : string :=
  "bestvideo[height<=" ++ remove_char "p" res ++
  "]+bestaudio/best[height<=" ++ remove_char "p" res ++ "]".

(** [download_video] up to the call of the engine: it raises when the
    resolution is missing, and otherwise asks for [video_format]. *)
Definition download_video_format (r : DownloadRunnable) : string + string :=
  if resolution_missing r then inl MSG_NO_RESOLUTION
  else inr (video_format (default EmptyString (resolution r))).

(** *** VideoDownloaderUI.update_queue_display *)

(** [str(x)] for an optional string. *)
Definition py_str_opt (x : option string) : string :=
  match x with
  | Some s => s
  | None => "None"
  end.

(** The test that decides the hourglass prefix of a row. *)
Definition is_current_item (st : UI) (item : queue_item) : bool :=
  match current_runnable st with
  | Some r =>
      String.eqb (url r) (item_url item) &&
      String.eqb (mode r) (item_mode item) &&
      (String.eqb (mode r) "audio" ||
       bool_decide (resolution r = item_resolution item))
  | None => false
  end.

Definition mode_text (item : queue_item) : string :=
  if String.eqb (item_mode item) "video"
  then "видео (" ++ py_str_opt (item_resolution item) ++ ")"
  else "аудио".

(** Row number [i] of the list widget. *)
Definition queue_line (st : UI) (i : nat) (item : queue_item) : string :=
  (if is_current_item st item then "⌛" else " ") ++ " " ++
  py_str_int (Z.of_nat i) ++ ". [" ++ item_service item ++ "] " ++
  item_url item ++ " - " ++ mode_text item.

(** The rows shown after [update_queue_display], numbered from 1. *)
Definition update_queue_display (st : UI) : list string :=
  imap (fun i item => queue_line st (S i) item) (download_queue st).

(** *** VideoDownloaderUI.update_progress

    The widgets it drives: the text of the status label, the last value
    requested from the progress bar with [setValue], the range of the bar
    (0 to 100 until [setRange] is called), the counter it keeps, and the
    number of calls of [QApplication.processEvents]. *)
Record ProgressView : Type := mkView {
  status_text : string;
  value_requested : option Z;
  bar_range : Z * Z;
  progress_update_counter : nat;
  process_events_calls : nat
}.

Definition initial_view : ProgressView :=
  mkView "Ожидание..." None (0, 100)%Z 0 0.

(** [int(x)] for a float: truncation towards zero. *)
Definition py_int_of_float (x : Q) : Z := Z.quot (Qnum x) (Z.pos (Qden x)).

Definition update_progress (v : ProgressView) (status : string) (percent : Q)
  : ProgressView :=
  let counter := S (progress_update_counter v) in
  mkView status
         (if Qle_bool 0 percent then Some (py_int_of_float percent)
          else value_requested v)
         (if Qle_bool 0 percent then bar_range v else (0, 0)%Z)
         counter
         (if Nat.eqb (counter mod 5) 0
          then S (process_events_calls v) else process_events_calls v).

(** The window handling a list of [progress] signals in order. *)
Definition update_progress_all (v : ProgressView)
  (events : list (string * Q)) : ProgressView :=
  fold_left (fun v e => update_progress v (fst e) (snd e)) events v.

(** *** Notions used in the statements *)

(** No pattern of the table matches [u]. *)
Definition no_pattern_matches (u : string) : Prop :=
  Forall (fun entry => Forall (fun pattern => re_match pattern u = false)
                              (snd entry))
         URL_PATTERNS.

(** The names of the services, in table order. *)
Definition service_names : list string := map fst URL_PATTERNS.

(** The byte counts read by [progress_hook]. *)
Definition hook_downloaded (d : gmap string pyval) : pyval :=
  dict_get d "downloaded_bytes" (PNum 0).

Definition hook_total (d : gmap string pyval) : pyval :=
  py_or (dict_get d "total_bytes" (PNum 0))
        (dict_get d "total_bytes_estimate" (PNum 0)).

(** An element of [resolutions] paired with its sort key. *)
Definition keyed_label (h : Z) : Z * string := (h, resolution_label h).

(** Descending order of the sort keys. *)
Definition key_ge (a b : Z * string) : Prop := (fst b <= fst a)%Z.

(** The heights the probe reports: those of the usable formats, or the
    fallback 720 when there is none. *)
Definition probed_heights (formats : option (list format)) : list Z :=
  match usable_heights (default [] formats) with
  | [] => [720%Z]
  | hs => hs
  end.

(** The events of the queue life cycle: enqueueing, starting, cancelling,
    the steps of the worker and the delivery of the terminal event.  The
    two events that delete entries of the list are excluded.  Pasting,
    refreshing and the signals of the resolution probe, which do not touch
    the queue, may occur in between. *)
Definition lifecycle_op (o : op) : bool :=
  match o with
  | OpRemove _ | OpClear _ => false
  | _ => true
  end.

(** The Active jobs: the runnables handed to the pool whose terminal event
    has not been handled. *)
Definition active_runnables (st : UI) : list nat := map fst (thread_pool st).

(** What identifies a job: URL, mode and resolution. *)
Definition item_key (item : queue_item) : string * string * option string :=
  (item_url item, item_mode item, item_resolution item).

Definition runnable_key (r : DownloadRunnable)
  : string * string * option string :=
  (url r, mode r, resolution r).

(** Every Active runnable is [current_download] and was built from the
    head of the queue. *)
Definition active_is_head (st : UI) : Prop :=
  forall rid, In rid (active_runnables st) ->
    current_download st = Some rid /\
    exists r item rest,
      store st !! rid = Some r /\
      download_queue st = item :: rest /\
      runnable_key r = item_key item.

(** The invariant of the life cycle. *)
Definition queue_inv (st : UI) : Prop :=
  active_runnables st = match current_download st with
                        | Some rid => [rid]
                        | None => []
                        end /\
  forall rid, current_download st = Some rid ->
    S rid = length (store st) /\
    exists r item rest,
      store st !! rid = Some r /\
      download_queue st = item :: rest /\
      runnable_key r = item_key item.

(** The item an [OpAdd] event appends, if the URL is accepted. *)
Definition accepted_of (o : op) : list queue_item :=
  match o with
  | OpAdd text video_checked combo_text =>
      let u := strip text in
      if fst (is_valid_video_url u)
      then [mkItem u (if video_checked then "video" else "audio")
                   (if video_checked then Some combo_text else None)
                   (get_service_name u)]
      else []
  | _ => []
  end.

(** All accepted items of a run, in enqueue order. *)
Definition enqueued (ops : list op) : list queue_item :=
  flat_map accepted_of ops.

(** The entries that have not been started: the queue without the head
    that belongs to the Active job. *)
Definition waiting (st : UI) : list queue_item :=
  match current_download st with
  | Some _ => tail (download_queue st)
  | None => download_queue st
  end.

(** Jobs are started in enqueue order: the started jobs, in the order of
    their creation, followed by the waiting ones, are the jobs [keys]. *)
Definition fifo_inv (st : UI) (keys : list (string * string * option string))
  : Prop :=
  keys = (map runnable_key (store st) ++ map item_key (waiting st))%list.

(** The events between the start of a job and its terminal event that
    come from its worker or from the cancel button. *)
Definition worker_op (o : op) : bool :=
  match o with
  | WkEnter _ | WkHook _ _ | WkReturn _ | WkRaise _ _ | OpCancel => true
  | _ => false
  end.

(** The events of pasting, refreshing and of the resolution probe. *)
Definition probe_op (o : op) : bool :=
  match o with
  | OpPaste _ _ | OpRefresh _ | OpProbeSignal _ => true
  | _ => false
  end.

(** [st'] differs from [st] at most in the enabled state of the resolution
    combo and in a warning about a rejected URL. *)
Definition same_queue_state (st st' : UI) : Prop :=
  store st' = store st /\
  current_download st' = current_download st /\
  download_queue st' = download_queue st /\
  thread_pool st' = thread_pool st /\
  successful_downloads st' = successful_downloads st /\
  failed_downloads st' = failed_downloads st /\
  controls_enabled st' = controls_enabled st /\
  progress_log st' = progress_log st /\
  (dialogs st' = dialogs st \/
   exists message, dialogs st' = (dialogs st ++ [WarnInvalidUrl message])%list).

(** No terminal event waiting in the pool carries the message of the
    "cancelled" branch of [run]. *)
Definition no_cancelled_event (st : UI) : Prop :=
  forall rid success message filename,
    In (rid, WEmitted success message filename) (thread_pool st) ->
    message <> MSG_CANCELLED.

(** The pool holds the current runnable and nothing else. *)
Definition pool_inv (st : UI) : Prop :=
  active_runnables st = match current_download st with
                        | Some rid => [rid]
                        | None => []
                        end.

(** Mode and resolution go together: a video job has a resolution text, an
    audio job has none. *)
Definition mode_shape (m : string) (res : option string) : Prop :=
  (m = "video" /\ exists c, res = Some c) \/ (m = "audio" /\ res = None).

(** What [add_to_queue] guarantees of an entry. *)
Definition item_wf (item : queue_item) : Prop :=
  (exists text, item_url item = strip text) /\
  fst (is_valid_video_url (item_url item)) = true /\
  item_service item = get_service_name (item_url item) /\
  mode_shape (item_mode item) (item_resolution item).

(** What [process_queue] guarantees of a runnable. *)
Definition runnable_wf (r : DownloadRunnable) : Prop :=
  fst (is_valid_video_url (url r)) = true /\
  output_dir r = "downloads" /\
  mode_shape (mode r) (resolution r).

(** The invariant of the window under all events. *)
Definition reach_inv (st : UI) : Prop :=
  pool_inv st /\
  (forall rid, current_download st = Some rid -> rid < length (store st)) /\
  controls_enabled st = match current_download st with
                        | Some _ => false
                        | None => true
                        end /\
  (current_download st = None ->
   successful_downloads st = [] /\ failed_downloads st = []) /\
  Forall item_wf (download_queue st) /\
  Forall runnable_wf (store st).

(** Every failure and every success recorded so far: those already shown
    in a summary, then those still in the lists. *)
Definition dialog_failed (dlg : dialog) : list (string * string) :=
  match dlg with
  | Summary _ failed => failed
  | _ => []
  end.

Definition dialog_successful (dlg : dialog) : list (string * string) :=
  match dlg with
  | Summary successful _ => successful
  | _ => []
  end.

Definition all_failed (st : UI) : list (string * string) :=
  (flat_map dialog_failed (dialogs st) ++ failed_downloads st)%list.

Definition all_successful (st : UI) : list (string * string) :=
  (flat_map dialog_successful (dialogs st) ++ successful_downloads st)%list.

(** What may change of a runnable during its life: neither the job it
    stands for nor its output directory, and a set flag is never cleared. *)
Definition runnable_evolves (r r' : DownloadRunnable) : Prop :=
  runnable_key r' = runnable_key r /\
  output_dir r' = output_dir r /\
  (cancel_event r = true -> cancel_event r' = true).

Definition store_evolves (st st' : UI) : Prop :=
  length (store st) <= length (store st') /\
  forall rid r, store st !! rid = Some r ->
    exists r', store st' !! rid = Some r' /\ runnable_evolves r r'.

(** A progress event without a known percentage. *)
Definition indeterminate (e : string * Q) : bool := negb (Qle_bool 0 (snd e)).

(** A row of the list widget that carries the hourglass. *)
Definition marked (row : string) : bool := startswith row "⌛".

(** The enqueue history [keys] splits into a part that covers the jobs
    started so far and a part that covers the entries still waiting. *)
Definition order_at (started_keys waiting_keys keys
                     : list (string * string * option string)) : Prop :=
  exists started pending,
    keys = (started ++ pending)%list /\
    sublist started_keys started /\
    sublist waiting_keys pending.

Definition order_inv (st : UI) (keys : list (string * string * option string))
  : Prop :=
  order_at (map runnable_key (store st)) (map item_key (waiting st)) keys.

(** * Properties *)

Ltac split_conj := repeat match goal with |- _ /\ _ => split end.

(** ** String helpers *)






(** ** The URL classifier *)

Lemma no_pattern_matches_false (u : string) :
  no_pattern_matches u -> matches_some_pattern u = false.
Proof.
  unfold no_pattern_matches, matches_some_pattern.
  induction 1 as [|entry entries Hentry _ IH]; simpl; [reflexivity|].
  rewrite IH, orb_false_r.
  clear IH. induction Hentry as [|pattern patterns Hp _ IHp]; simpl.
  - reflexivity.
  - now rewrite Hp, IHp.
Qed.

Lemma scheme_nonempty (u : string) :
  startswith u "http://" || startswith u "https://" = true ->
  String.eqb u EmptyString = false.
Proof.
  destruct u; [discriminate | reflexivity].
Qed.


Lemma string_length_append (s1 s2 : string) :
  String.length (s1 ++ s2) = String.length s1 + String.length s2.
Proof.
  induction s1 as [|a s1 IH]; simpl; [reflexivity | now rewrite IH].
Qed.

Lemma append_inj_l (prefix s1 s2 : string) :
  prefix ++ s1 = prefix ++ s2 -> s1 = s2.
Proof.
  induction prefix as [|a prefix IH]; cbn [String.append]; intros E;
    [exact E|].
  injection E as E. exact (IH E).
Qed.

Lemma append_inj_r (s1 s2 suffix : string) :
  s1 ++ suffix = s2 ++ suffix -> s1 = s2.
Proof.
  intros E.
  assert (Hlen : String.length s1 = String.length s2).
  { apply (f_equal String.length) in E.
    rewrite !string_length_append in E. lia. }
  revert s2 E Hlen. induction s1 as [|a s1 IH]; intros [|b s2] E Hlen;
    simpl in *; try discriminate; [reflexivity|].
  injection E as -> E. f_equal. apply IH; [exact E | lia].
Qed.

(** The message for a service is not the generic one, and names its
    service. *)
Lemma msg_malformed_not_generic (name : string) :
  (false, msg_malformed name) <> (false, MSG_UNSUPPORTED).
Proof. discriminate. Qed.

Lemma msg_malformed_inj (name other : string) :
  msg_malformed name = msg_malformed other -> name = other.
Proof.
  unfold msg_malformed. intros E.
  apply (append_inj_r name other ". Проверьте правильность ссылки.").
  exact (append_inj_l _ _ _ E).
Qed.

(** C9.  For a URL with an http(s) scheme that no pattern of the table
    matches: if it contains the name of a known service (the test of the
    code, [service_name.lower() in url.lower()]) the classifier fails with
    the message for a service it contains, namely the first such service
    in table order; if it contains none, it fails with the generic
    unsupported-service message.  The message for a service is the text
    that names it, "Неверный формат URL для <service>. Проверьте
    правильность ссылки.", which differs from the generic message
    "Неподдерживаемый видеосервис или неверный формат URL" and from the
    message for every other service. *)
Theorem unmatched_url_classification (u : string) :
  startswith u "http://" || startswith u "https://" = true ->
  no_pattern_matches u ->
  (forall name, In name service_names -> mentions_service u name = true ->
     exists first,
       List.find (mentions_service u) service_names = Some first /\
       In first service_names /\ mentions_service u first = true /\
       is_valid_video_url u = (false, msg_malformed first) /\
       is_valid_video_url u =
         (false, "Неверный формат URL для " ++ first ++
                 ". Проверьте правильность ссылки.") /\
       is_valid_video_url u <> (false, MSG_UNSUPPORTED) /\
       (forall other, other <> first ->
          is_valid_video_url u <> (false, msg_malformed other))) /\
  ((forall name, In name service_names -> mentions_service u name = false) ->
     is_valid_video_url u = (false, MSG_UNSUPPORTED) /\
     is_valid_video_url u =
       (false, "Неподдерживаемый видеосервис или неверный формат URL") /\
     (forall name, is_valid_video_url u <> (false, msg_malformed name))).
Proof.
  intros Hscheme Hnone.
  assert (Hshape : is_valid_video_url u =
            match List.find (mentions_service u) service_names with
            | Some service_name => (false, msg_malformed service_name)
            | None => (false, MSG_UNSUPPORTED)
            end).
  { unfold is_valid_video_url.
    rewrite (scheme_nonempty _ Hscheme), Hscheme.
    now rewrite (no_pattern_matches_false _ Hnone). }
  split.
  - intros name Hin Hname.
    destruct (List.find (mentions_service u) service_names) as [first|] eqn:Hfind.
    + exists first. destruct (List.find_some _ _ Hfind) as [Hin' Hfirst].
      rewrite Hshape.
      split; [reflexivity|]. split; [exact Hin'|]. split; [exact Hfirst|].
      split; [reflexivity|]. split; [reflexivity|].
      split; [apply msg_malformed_not_generic|].
      intros other Hne E. apply Hne. symmetry.
      exact (msg_malformed_inj _ _ (f_equal snd E)).
    + pose proof (List.find_none _ _ Hfind name Hin) as Hfalse. congruence.
  - intros Hall.
    destruct (List.find (mentions_service u) service_names) as [first|] eqn:Hfind.
    + destruct (List.find_some _ _ Hfind) as [Hin' Hfirst].
      rewrite (Hall first Hin') in Hfirst. discriminate.
    + rewrite Hshape. split; [reflexivity|]. split; [reflexivity|].
      intros name E. now apply (msg_malformed_not_generic name).
Qed.

(** ** Progress events *)

Lemma percentage_range (x t : Q) :
  (0 < t ->
   (0 <= x / t * 100 /\ x / t * 100 <= 100 <-> 0 <= x /\ x <= t))%Q.
Proof.
  intros Ht.
  assert (Hx : (x == (x / t) * t)%Q) by (field; lra).
  set (y := (x / t)%Q) in *.
  split; intros [H1 H2]; split; nra.
Qed.

(** C7, as amended.  For a callback with status "downloading" on a
    runnable that is not cancelled: when the downloaded count [x] and the
    total [t] (from [total_bytes], else from [total_bytes_estimate]) are
    numbers and [t] is not zero, exactly one event is emitted and its
    percentage is [x / t * 100]; that value is not clamped, and for a
    positive total it lies in [0, 100] exactly when [0 <= x <= t].  When the
    total is unknown (missing, [None] or zero) exactly one event with the
    sentinel [-1] is emitted. *)
Theorem progress_percentage (r : DownloadRunnable) (d : gmap string pyval) :
  cancel_event r = false ->
  is_str (dict_get d "status" PNone) "downloading" = true ->
  (forall x t : Q,
     hook_downloaded d = PNum x -> hook_total d = PNum t -> ~ (t == 0)%Q ->
     exists p : Q,
       progress_hook r d =
         HookDone r [("Загрузка: " ++ format_1f p ++ "%", p)] /\
       (p == x / t * 100)%Q /\
       ((0 < t)%Q -> ((0 <= p)%Q /\ (p <= 100)%Q <-> (0 <= x)%Q /\ (x <= t)%Q)))
  /\
  (truthy (hook_total d) = false ->
   progress_hook r d = HookDone r [("Загрузка...", (-1)%Q)]).
Proof.
  intros Hc Hs. unfold progress_hook. rewrite Hc, Hs.
  fold (hook_downloaded d). fold (hook_total d).
  split.
  - intros x t Hx Ht Hnz. rewrite Hx, Ht. simpl.
    destruct (Qeq_bool t 0) eqn:E.
    + apply Qeq_bool_iff in E. contradiction.
    + simpl. exists (x / t * 100)%Q. split; [reflexivity|].
      split; [reflexivity|]. apply percentage_range.
  - intros Hf. now rewrite Hf.
Qed.

(** ** Recording of outcomes *)

Lemma pool_phase_set (st : UI) (rid : nat) (ph0 ph : worker_phase) :
  pool_phase st rid = Some ph0 -> pool_phase (pool_set st rid ph) rid = Some ph.
Proof.
  unfold pool_phase, pool_set. simpl.
  induction (thread_pool st) as [|[i q] l IH]; simpl; [discriminate|].
  destruct (Nat.eqb i rid) eqn:E; simpl.
  - intros _. now rewrite Nat.eqb_refl.
  - rewrite E. exact IH.
Qed.

Lemma pool_remove_set (st : UI) (rid : nat) (ph : worker_phase) :
  pool_remove (pool_set st rid ph) rid = pool_remove st rid.
Proof.
  unfold pool_remove, pool_set, with_pool. simpl. f_equal.
  induction (thread_pool st) as [|[i q] l IH]; simpl; [reflexivity|].
  destruct (Nat.eqb i rid) eqn:E.
  - apply Nat.eqb_eq in E. subst i.
    rewrite !filter_cons. simpl.
    destruct (decide (rid <> rid)); [congruence | exact IH].
  - apply Nat.eqb_neq in E.
    rewrite !filter_cons. simpl.
    destruct (decide (i <> rid)); [now rewrite IH | contradiction].
Qed.

(** What [advance_queue] does to the result lists: it leaves them alone,
    or it shows them in a summary and clears them. *)
Lemma advance_queue_lists (st : UI) :
  (successful_downloads (advance_queue st) = successful_downloads st /\
   failed_downloads (advance_queue st) = failed_downloads st /\
   dialogs (advance_queue st) = dialogs st) \/
  (successful_downloads (advance_queue st) = [] /\
   failed_downloads (advance_queue st) = [] /\
   dialogs (advance_queue st) =
     (dialogs st ++
      [Summary (successful_downloads st) (failed_downloads st)])%list).
Proof.
  unfold advance_queue. simpl.
  destruct (download_queue st) as [|item [|item' rest]]; simpl.
  - unfold show_download_summary. simpl.
    destruct (successful_downloads st) eqn:Es, (failed_downloads st) eqn:Ef;
      simpl; rewrite ?Es, ?Ef; auto.
  - unfold show_download_summary. simpl.
    destruct (successful_downloads st) eqn:Es, (failed_downloads st) eqn:Ef;
      simpl; rewrite ?Es, ?Ef; auto.
  - unfold process_queue. simpl. auto.
Qed.

(** C10.  When the download call returns although no file name was ever
    reported (no "finished" callback, or one with an empty name), [run]
    emits [finished(True, ..., "")]; the handler then appends nothing to
    either list and goes on exactly as [advance_queue] does from the state
    before, so a summary shown at that point holds the lists as they were:
    the job is in neither of them. *)
Theorem success_without_filename_unrecorded
  (st : UI) (rid : nat) (r : DownloadRunnable) :
  pool_phase st rid = Some WDownloading ->
  store st !! rid = Some r ->
  default EmptyString (downloaded_filename r) = EmptyString ->
  exists st1 st2 : UI,
    worker_return st rid = Some st1 /\
    pool_phase st1 rid = Some (WEmitted true MSG_DONE EmptyString) /\
    deliver_finished st1 rid = Some st2 /\
    record_outcome (pool_remove st1 rid) true MSG_DONE EmptyString =
      pool_remove st1 rid /\
    st2 = advance_queue (pool_remove st rid) /\
    ((successful_downloads st2 = successful_downloads st /\
      failed_downloads st2 = failed_downloads st /\
      dialogs st2 = dialogs st) \/
     (successful_downloads st2 = [] /\
      failed_downloads st2 = [] /\
      dialogs st2 =
        (dialogs st ++
         [Summary (successful_downloads st) (failed_downloads st)])%list)).
Proof.
  intros Hph Hr Hf.
  assert (Hrec : forall s : UI, record_outcome s true MSG_DONE EmptyString = s).
  { intros s. unfold record_outcome. simpl.
    now destruct (current_runnable s). }
  exists (pool_set st rid (WEmitted true MSG_DONE EmptyString)).
  exists (advance_queue (pool_remove st rid)).
  assert (Hret : worker_return st rid =
                 Some (pool_set st rid (WEmitted true MSG_DONE EmptyString))).
  { unfold worker_return. rewrite Hph, Hr.
    unfold emit_finished, run_finished. now rewrite Hf. }
  pose proof (pool_phase_set st rid _ (WEmitted true MSG_DONE EmptyString) Hph)
    as Hem.
  repeat split; try assumption.
  - unfold deliver_finished. rewrite Hem.
    unfold on_download_finished. now rewrite Hrec, pool_remove_set.
  - apply Hrec.
  - apply (advance_queue_lists (pool_remove st rid)).
Qed.

(** ** The resolution probe *)

Lemma remove_p_uint (d : Decimal.uint) :
  remove_char "p" (NilEmpty.string_of_uint d) = NilEmpty.string_of_uint d.
Proof. induction d; simpl; congruence. Qed.

Lemma remove_p_app (s : string) :
  remove_char "p" (s ++ "p") = remove_char "p" s.
Proof. induction s as [|a s IH]; simpl; [reflexivity|]. destruct (Ascii.eqb a "p"); congruence. Qed.

Lemma remove_p_int (z : Z) : remove_char "p" (py_str_int z) = py_str_int z.
Proof.
  unfold py_str_int, NilZero.string_of_int, NilZero.string_of_uint.
  destruct (Z.to_int z) as [d|d]; destruct d; simpl; try reflexivity;
    try (f_equal; apply remove_p_uint); f_equal; f_equal; apply remove_p_uint.
Qed.

Lemma to_int_not_nil (z : Z) :
  Z.to_int z <> Decimal.Pos Decimal.Nil /\ Z.to_int z <> Decimal.Neg Decimal.Nil.
Proof.
  destruct z as [|p|p]; simpl; split; try discriminate;
    intros H; injection H as H; exact (Unsigned.to_uint_nonnil p H).
Qed.

Lemma resolution_key_label (h : Z) : resolution_key (resolution_label h) = Some h.
Proof.
  unfold resolution_key, resolution_label, py_int.
  rewrite remove_p_app, remove_p_int. unfold py_str_int.
  destruct (to_int_not_nil h) as [H1 H2].
  rewrite (NilZero.isi _ H1 H2). simpl. now rewrite DecimalZ.of_to.
Qed.

Lemma resolution_label_inj (h h' : Z) : resolution_label h = resolution_label h' -> h = h'.
Proof.
  intros H. pose proof (resolution_key_label h) as E. rewrite H, resolution_key_label in E. congruence.
Qed.


Lemma insert_desc_perm (x : Z * string) (l : list (Z * string)) :
  insert_desc x l ≡ₚ x :: l.
Proof.
  induction l as [|y l IH]; simpl; [reflexivity|].
  destruct (fst y <=? fst x)%Z; [reflexivity|].
  rewrite IH. apply Permutation_swap.
Qed.

Lemma sort_desc_perm (l : list (Z * string)) : foldr insert_desc [] l ≡ₚ l.
Proof.
  induction l as [|x l IH]; simpl; [reflexivity|].
  now rewrite insert_desc_perm, IH.
Qed.


Lemma insert_desc_sorted (x : Z * string) (l : list (Z * string)) :
  StronglySorted key_ge l -> StronglySorted key_ge (insert_desc x l).
Proof.
  induction 1 as [|y l Hs IH Hy]; simpl.
  - repeat constructor.
  - destruct (fst y <=? fst x)%Z eqn:E.
    + apply Z.leb_le in E. constructor; [now constructor|].
      constructor; [exact E|].
      eapply Forall_impl; [exact Hy|]. unfold key_ge. intros z Hz. simpl in *. lia.
    + apply Z.leb_gt in E. constructor; [exact IH|].
      rewrite insert_desc_perm. constructor; [unfold key_ge; lia | exact Hy].
Qed.

Lemma sort_desc_sorted (l : list (Z * string)) :
  StronglySorted key_ge (foldr insert_desc [] l).
Proof.
  induction l as [|x l IH]; simpl; [constructor | now apply insert_desc_sorted].
Qed.

Lemma strictly_sorted (l : list Z) :
  StronglySorted (fun a b => (b <= a)%Z) l -> NoDup l -> StronglySorted Z.gt l.
Proof.
  induction 1 as [|a l Hs IH Ha]; intros Hnd; [constructor|].
  apply NoDup_cons in Hnd as [Hnotin Hnd].
  constructor; [now apply IH|].
  apply Forall_forall. intros b Hb.
  rewrite Forall_forall in Ha. specialize (Ha b Hb).
  assert (a <> b) by (intros ->; contradiction). lia.
Qed.

Lemma strictly_sorted_unique (l1 l2 : list Z) :
  StronglySorted Z.gt l1 -> StronglySorted Z.gt l2 ->
  (forall h, In h l1 <-> In h l2) -> l1 = l2.
Proof.
  intros H1. revert l2. induction H1 as [|a l1 Hs1 IH Ha]; intros l2 H2 Hiff.
  - destruct l2 as [|b l2]; [reflexivity|].
    exfalso. apply (Hiff b). now left.
  - destruct H2 as [|b l2 Hs2 Hb].
    + exfalso. apply (Hiff a). now left.
    + rewrite List.Forall_forall in Ha, Hb.
      assert (a = b).
      { destruct (proj1 (Hiff a) (or_introl eq_refl)) as [E|Hin]; [now symmetry|].
        destruct (proj2 (Hiff b) (or_introl eq_refl)) as [E|Hin']; [assumption|].
        specialize (Ha b Hin'). specialize (Hb a Hin). lia. }
      subst b. f_equal. apply IH; [assumption|].
      intros h. split; intros Hin.
      * destruct (proj1 (Hiff h) (or_intror Hin)) as [E|?]; [|assumption].
        subst h. specialize (Ha a Hin). lia.
      * destruct (proj2 (Hiff h) (or_intror Hin)) as [E|?]; [|assumption].
        subst h. specialize (Hb a Hin). lia.
Qed.

Lemma mapM_keys (Hs : list Z) :
  mapM (fun x => k ← resolution_key x; Some (k, x)) (map resolution_label Hs)
  = Some (map keyed_label Hs).
Proof.
  apply mapM_Some_2.
  induction Hs as [|h Hs IH]; simpl; constructor; [|exact IH].
  now rewrite resolution_key_label.
Qed.

Lemma keyed_snd (l : list (Z * string)) :
  Forall (fun p => snd p = resolution_label (fst p)) l ->
  map snd l = map resolution_label (map fst l).
Proof. induction 1 as [|p l Hp _ IH]; simpl; congruence. Qed.

Lemma sorted_fst (l : list (Z * string)) :
  StronglySorted key_ge l ->
  StronglySorted (fun a b => (b <= a)%Z) (map fst l).
Proof.
  induction 1 as [|p l _ IH Hp]; simpl.
  - constructor.
  - constructor; [exact IH|].
    clear IH. induction Hp as [|q l Hq _ IHp]; simpl.
    + constructor.
    + constructor; [exact Hq | exact IHp].
Qed.

Lemma sorted_desc_labels (Hs : list Z) :
  NoDup Hs ->
  exists sorted : list Z,
    sorted_desc (map resolution_label Hs) = Some (map resolution_label sorted)
    /\ StronglySorted Z.gt sorted /\ (forall h, In h sorted <-> In h Hs).
Proof.
  intros Hnd. unfold sorted_desc. rewrite mapM_keys. simpl.
  set (P := foldr insert_desc [] (map keyed_label Hs)).
  assert (HP : P ≡ₚ map keyed_label Hs) by apply sort_desc_perm.
  assert (Hfst : map fst P ≡ₚ Hs).
  { rewrite HP. rewrite map_map. simpl. now rewrite map_id. }
  exists (map fst P). split; [|split].
  - f_equal. apply keyed_snd. rewrite HP.
    apply Forall_forall. intros p Hp. apply list_elem_of_In, in_map_iff in Hp.
    destruct Hp as [h [<- _]]. reflexivity.
  - apply strictly_sorted; [apply sorted_fst, sort_desc_sorted|].
    now rewrite Hfst.
  - intros h. rewrite <- !list_elem_of_In. now rewrite Hfst.
Qed.

Lemma enum_labels (l : list string) (hs : list Z) :
  l ≡ₚ elements (list_to_set (map resolution_label hs) : gset string) ->
  exists Hs : list Z,
    l = map resolution_label Hs /\ NoDup Hs /\ (forall h, In h Hs <-> In h hs).
Proof.
  intros Hl.
  assert (Hmem : forall x, x ∈ l <-> exists h, x = resolution_label h /\ h ∈ hs).
  { intros x. rewrite Hl, elem_of_elements, elem_of_list_to_set.
    change (map resolution_label hs) with (resolution_label <$> hs).
    now rewrite list_elem_of_fmap. }
  assert (Hnd : NoDup l) by (rewrite Hl; apply NoDup_elements).
  exists (map (fun x => default 0%Z (resolution_key x)) l).
  assert (Hback : map resolution_label
                    (map (fun x => default 0%Z (resolution_key x)) l) = l).
  { rewrite map_map. rewrite <- (map_id l) at 2. apply map_ext_in.
    intros x Hx. apply list_elem_of_In, Hmem in Hx. destruct Hx as [h [-> _]].
    now rewrite resolution_key_label. }
  split; [now symmetry|]. split.
  - apply (NoDup_fmap_1 resolution_label).
    change (NoDup (map resolution_label
                     (map (fun x => default 0%Z (resolution_key x)) l))).
    now rewrite Hback.
  - intros h. split.
    + intros Hin. apply (in_map resolution_label) in Hin. rewrite Hback in Hin.
      apply list_elem_of_In, Hmem in Hin. destruct Hin as [h' [E Hh']].
      apply resolution_label_inj in E. subst h'. now apply list_elem_of_In.
    + intros Hin.
      assert (Hx : resolution_label h ∈ l).
      { apply Hmem. exists h. split; [reflexivity | now apply list_elem_of_In]. }
      rewrite <- Hback in Hx. apply list_elem_of_In, in_map_iff in Hx.
      destruct Hx as [h' [E Hh']]. apply resolution_label_inj in E. now subst h'.
Qed.


Lemma resolutions_set (formats : option (list format)) :
  (let resolutions : gset string :=
     list_to_set (map resolution_label (usable_heights (default [] formats))) in
   if decide (resolutions = ∅) then {[ "720p" ]} else resolutions)
  = list_to_set (map resolution_label (probed_heights formats)).
Proof.
  unfold probed_heights. cbv zeta.
  destruct (usable_heights (default [] formats)) as [|h hs].
  - simpl. rewrite decide_True by reflexivity.
    apply leibniz_equiv. set_solver.
  - rewrite decide_False; [reflexivity|].
    intros H. assert (Hin : resolution_label h ∈ (∅ : gset string)).
    { rewrite <- H. simpl. set_solver. }
    set_solver.
Qed.

Lemma run_with_spec (enum : gset string -> list string)
  (formats : option (list format)) :
  (forall S, enum S ≡ₚ elements S) ->
  exists sorted : list Z,
    ResolutionWorker_run_with enum (ExtractInfo formats)
      = resolutions_found (map resolution_label sorted) /\
    StronglySorted Z.gt sorted /\
    (forall h, In h sorted <-> In h (probed_heights formats)).
Proof.
  intros Henum. unfold ResolutionWorker_run_with.
  rewrite resolutions_set.
  destruct (enum_labels _ (probed_heights formats) (Henum _)) as [Hs [-> [Hnd Hmem]]].
  destruct (sorted_desc_labels Hs Hnd) as [sorted [-> [Hsorted Hin]]].
  exists sorted. split; [reflexivity|]. split; [assumption|].
  intros h. now rewrite Hin.
Qed.

Lemma usable_heights_no_video (formats : list format) :
  Forall (fun fmt => vcodec fmt = Some "none") formats ->
  usable_heights formats = [].
Proof.
  induction 1 as [|fmt formats Hfmt _ IH]; [reflexivity|].
  unfold usable_heights in *. simpl. unfold format_usable at 1.
  rewrite Hfmt. simpl. rewrite andb_false_r. exact IH.
Qed.

(** C4.  Whatever list of formats the metadata query returns, the probe
    emits a non-empty list: the labels of the distinct heights of the
    formats that carry video (codec other than "none") and have a height, in
    strictly descending numeric order, or the single label "720p" when no
    format contributes a height, which is the case in particular when no
    format carries video.  The result does not depend on the order in which
    the set is enumerated.  The two fixtures of the specification evaluate
    as stated. *)
Theorem probe_resolutions :
  (forall formats : option (list format),
     exists sorted : list Z,
       ResolutionWorker_run (ExtractInfo formats)
         = resolutions_found (map resolution_label sorted) /\
       StronglySorted Z.gt sorted /\
       sorted <> [] /\
       (usable_heights (default [] formats) <> [] ->
        forall h, In h sorted <-> In h (usable_heights (default [] formats))) /\
       (usable_heights (default [] formats) = [] ->
        map resolution_label sorted = ["720p"]) /\
       (Forall (fun fmt => vcodec fmt = Some "none") (default [] formats) ->
        map resolution_label sorted = ["720p"]) /\
       (forall enum : gset string -> list string,
          (forall S, enum S ≡ₚ elements S) ->
          ResolutionWorker_run_with enum (ExtractInfo formats)
            = resolutions_found (map resolution_label sorted))) /\
  ResolutionWorker_run (ExtractInfo (Some fixture_formats))
    = resolutions_found ["1080p"; "720p"; "360p"] /\
  ResolutionWorker_run (ExtractInfo (Some audio_only_formats))
    = resolutions_found ["720p"].
Proof.
  split; [|split; vm_compute; reflexivity].
  intros formats.
  destruct (run_with_spec elements formats (fun S => reflexivity _))
    as [sorted [Hrun [Hsorted Hmem]]].
  assert (Hnil : usable_heights (default [] formats) = [] ->
                 map resolution_label sorted = ["720p"]).
  { intros Hnil.
    assert (sorted = [720%Z]) as ->; [|reflexivity].
    apply strictly_sorted_unique; [assumption | repeat constructor|].
    intros h. rewrite Hmem. unfold probed_heights. now rewrite Hnil. }
  exists sorted. split; [exact Hrun|]. split; [exact Hsorted|].
  split; [|split; [|split; [|split]]].
  - intros ->.
    assert (Hex : exists h, In h (probed_heights formats)).
    { unfold probed_heights.
      destruct (usable_heights (default [] formats)) as [|h hs];
        [exists 720%Z | exists h]; now left. }
    destruct Hex as [h Hh]. apply Hmem in Hh. destruct Hh.
  - intros Hne h. rewrite Hmem. unfold probed_heights.
    destruct (usable_heights (default [] formats)); [contradiction | reflexivity].
  - exact Hnil.
  - intros Hnone. apply Hnil. now apply usable_heights_no_video.
  - intros enum Henum.
    destruct (run_with_spec enum formats Henum) as [sorted' [Hrun' [Hsorted' Hmem']]].
    rewrite Hrun'. do 2 f_equal.
    apply strictly_sorted_unique; [assumption | assumption|].
    intros h. now rewrite Hmem, Hmem'.
Qed.

(** ** The queue life cycle *)

Lemma add_to_queue_accepted (st : UI) (text : string) (v : bool) (c : string) :
  download_queue (add_to_queue st text v c) =
    (download_queue st ++ accepted_of (OpAdd text v c))%list /\
  store (add_to_queue st text v c) = store st /\
  current_download (add_to_queue st text v c) = current_download st /\
  thread_pool (add_to_queue st text v c) = thread_pool st.
Proof.
  unfold add_to_queue, accepted_of.
  destruct (is_valid_video_url (strip text)) as [[|] e]; simpl.
  - destruct v; simpl; auto.
  - rewrite app_nil_r. auto.
Qed.

Lemma runnable_key_insert (l : list DownloadRunnable) (rid : nat)
  (r r' : DownloadRunnable) :
  l !! rid = Some r -> runnable_key r' = runnable_key r ->
  map runnable_key (<[rid := r']> l) = map runnable_key l.
Proof.
  intros Hl Hk.
  change (runnable_key <$> <[rid := r']> l = runnable_key <$> l).
  rewrite list_fmap_insert, Hk. apply list_insert_id.
  now rewrite list_lookup_fmap, Hl.
Qed.

(** The shape of the pool under the invariant. *)
Lemma pool_shape (st : UI) :
  queue_inv st ->
  match current_download st with
  | Some rid => exists ph, thread_pool st = [(rid, ph)]
  | None => thread_pool st = []
  end.
Proof.
  intros [H1 _]. unfold active_runnables in H1.
  destruct (current_download st) as [rid|].
  - destruct (thread_pool st) as [|[i ph] [|e l]]; simpl in H1; try discriminate.
    injection H1 as ->. now exists ph.
  - now destruct (thread_pool st).
Qed.

Lemma inv_add (st : UI) (keys : list (string * string * option string))
  (text : string) (v : bool) (c : string) :
  queue_inv st -> fifo_inv st keys ->
  queue_inv (add_to_queue st text v c) /\
  fifo_inv (add_to_queue st text v c)
           (keys ++ map item_key (accepted_of (OpAdd text v c))).
Proof.
  intros [H1 H2] Hf.
  destruct (add_to_queue_accepted st text v c) as [Eq [Es [Ec Ep]]].
  unfold queue_inv, fifo_inv, active_runnables, waiting in *.
  rewrite Eq, Es, Ec, Ep. split; [split|].
  - exact H1.
  - intros rid Hrid. destruct (H2 rid Hrid) as [Hlen [r [item [rest [Hr [Hq Hk]]]]]].
    split; [exact Hlen|]. exists r, item, (rest ++ accepted_of (OpAdd text v c))%list.
    rewrite Hq. auto.
  - rewrite Hf. destruct (current_download st) as [rid|].
    + destruct (H2 rid eq_refl) as [_ [r [item [rest [_ [Hq _]]]]]].
      rewrite Hq. simpl. now rewrite map_app, app_assoc.
    + now rewrite map_app, app_assoc.
Qed.

Lemma inv_process_queue (st : UI)
  (keys : list (string * string * option string)) :
  current_download st = None -> thread_pool st = [] ->
  keys = (map runnable_key (store st) ++ map item_key (download_queue st))%list ->
  queue_inv (process_queue st) /\ fifo_inv (process_queue st) keys.
Proof.
  intros Hc Hp Hk.
  unfold process_queue, queue_inv, fifo_inv, active_runnables, waiting.
  destruct (download_queue st) as [|item rest] eqn:Hq; simpl.
  - rewrite Hc, Hp, Hq. simpl.
    split; [split; [reflexivity | intros rid; discriminate] | exact Hk].
  - rewrite Hp, Hq. simpl. split; [split|].
    + reflexivity.
    + intros rid [= <-]. split.
      * rewrite length_app. simpl. lia.
      * exists (new_runnable (item_url item) (item_mode item)
                             (item_resolution item)), item, rest.
        split; [|split; reflexivity].
        now apply list_lookup_middle.
    + rewrite Hk, map_app. simpl. now rewrite <- app_assoc.
Qed.

Lemma inv_start (st : UI) (keys : list (string * string * option string)) :
  queue_inv st -> fifo_inv st keys ->
  queue_inv (start_downloads st) /\ fifo_inv (start_downloads st) keys.
Proof.
  intros Hinv Hf. pose proof (pool_shape st Hinv) as Hpool.
  unfold start_downloads.
  destruct (download_queue st) as [|item rest] eqn:Hq.
  - unfold queue_inv, fifo_inv, active_runnables, waiting in *. simpl.
    rewrite Hq in *. auto.
  - destruct (current_download st) as [rid|] eqn:Hc; simpl; rewrite Hc.
    + unfold queue_inv, fifo_inv, active_runnables, waiting in *. simpl.
      rewrite Hc, Hq in *. auto.
    + apply inv_process_queue; simpl; try assumption.
      unfold fifo_inv, waiting in Hf. now rewrite Hc in Hf.
Qed.

Lemma inv_cancel (st : UI) (keys : list (string * string * option string)) :
  queue_inv st -> fifo_inv st keys ->
  queue_inv (cancel_download st) /\ fifo_inv (cancel_download st) keys.
Proof.
  intros Hinv Hf. unfold cancel_download.
  destruct (current_download st) as [rid|] eqn:Hc; [|auto].
  destruct (store st !! rid) as [r|] eqn:Hr; [|auto].
  destruct Hinv as [H1 H2].
  unfold queue_inv, fifo_inv, active_runnables, waiting in *. simpl.
  rewrite Hc in *. split; [split|].
  - exact H1.
  - intros rid' [= <-].
    destruct (H2 rid eq_refl) as [Hlen [r0 [item [rest [Hr0 [Hq Hk]]]]]].
    rewrite length_insert. split; [exact Hlen|].
    exists (cancel r), item, rest. rewrite list_lookup_insert_eq.
    + rewrite Hr0 in Hr. injection Hr as ->. auto.
    + apply lookup_lt_Some in Hr. exact Hr.
  - now rewrite (runnable_key_insert _ _ r).
Qed.

Lemma active_pool_set (st : UI) (rid : nat) (ph : worker_phase) :
  active_runnables (pool_set st rid ph) = active_runnables st.
Proof.
  unfold active_runnables, pool_set. simpl.
  induction (thread_pool st) as [|[i q] l IH]; simpl; [reflexivity|].
  rewrite IH. destruct (Nat.eqb_spec i rid); simpl; congruence.
Qed.

Lemma pool_phase_active (st : UI) (rid : nat) (ph : worker_phase) :
  pool_phase st rid = Some ph -> In rid (active_runnables st).
Proof.
  unfold pool_phase, active_runnables.
  induction (thread_pool st) as [|[i q] l IH]; simpl; [discriminate|].
  destruct (Nat.eqb_spec i rid); simpl; auto.
Qed.

Lemma inv_current_of_phase (st : UI) (rid : nat) (ph : worker_phase) :
  queue_inv st -> pool_phase st rid = Some ph ->
  current_download st = Some rid /\ thread_pool st = [(rid, ph)].
Proof.
  intros Hinv Hph. pose proof (pool_shape st Hinv) as Hshape.
  pose proof (pool_phase_active _ _ _ Hph) as Hin.
  destruct Hinv as [H1 _]. rewrite H1 in Hin.
  destruct (current_download st) as [c|]; simpl in Hin; [|contradiction].
  destruct Hin as [->|[]]. split; [reflexivity|].
  destruct Hshape as [ph' Hpool]. unfold pool_phase in Hph.
  rewrite Hpool in Hph. simpl in Hph. rewrite Nat.eqb_refl in Hph.
  simpl in Hph. congruence.
Qed.

Lemma inv_pool_set (st : UI) (keys : list (string * string * option string))
  (rid : nat) (ph : worker_phase) :
  queue_inv st -> fifo_inv st keys ->
  queue_inv (pool_set st rid ph) /\ fifo_inv (pool_set st rid ph) keys.
Proof.
  intros [H1 H2] Hf. split; [split|].
  - rewrite active_pool_set. exact H1.
  - exact H2.
  - exact Hf.
Qed.

Lemma emit_finished_pool_set (st : UI) (rid : nat) (r : DownloadRunnable)
  (e : download_end) :
  exists success message filename,
    run_finished r e = (success, message, filename) /\
    emit_finished st rid r e =
      pool_set st rid (WEmitted success message filename).
Proof.
  unfold emit_finished.
  destruct (run_finished r e) as [[success message] filename].
  now exists success, message, filename.
Qed.

Lemma inv_emit_finished (st : UI)
  (keys : list (string * string * option string)) (rid : nat)
  (r : DownloadRunnable) (e : download_end) :
  queue_inv st -> fifo_inv st keys ->
  queue_inv (emit_finished st rid r e) /\
  fifo_inv (emit_finished st rid r e) keys.
Proof.
  intros Hinv Hf.
  destruct (emit_finished_pool_set st rid r e) as [s [m [f [_ ->]]]].
  now apply inv_pool_set.
Qed.

Lemma progress_hook_key (r r' : DownloadRunnable) (d : gmap string pyval)
  (events : list (string * Q)) :
  progress_hook r d = HookDone r' events -> runnable_key r' = runnable_key r.
Proof.
  unfold progress_hook.
  fold (hook_downloaded d). fold (hook_total d).
  destruct (cancel_event r); [discriminate|].
  destruct (is_str (dict_get d "status" PNone) "downloading").
  - destruct (truthy (hook_total d)).
    + destruct (hook_downloaded d), (hook_total d);
        intros [= <- _]; reflexivity.
    + intros [= <- _]; reflexivity.
  - destruct (is_str (dict_get d "status" PNone) "finished").
    + destruct (dict_get d "filename" (PStr EmptyString));
        try discriminate. intros [= <- _]; reflexivity.
    + intros [= <- _]; reflexivity.
Qed.

Lemma inv_worker_hook (st st' : UI)
  (keys : list (string * string * option string)) (rid : nat)
  (d : gmap string pyval) :
  queue_inv st -> fifo_inv st keys -> worker_hook st rid d = Some st' ->
  queue_inv st' /\ fifo_inv st' keys.
Proof.
  intros Hinv Hf. unfold worker_hook.
  destruct (pool_phase st rid) as [[| |]|] eqn:Hph; try discriminate.
  destruct (store st !! rid) as [r|] eqn:Hr; [|discriminate].
  destruct (progress_hook r d) as [message|r' events] eqn:Hhook; intros [= <-].
  - now apply inv_emit_finished.
  - destruct (inv_current_of_phase _ _ _ Hinv Hph) as [Hc _].
    pose proof (progress_hook_key _ _ _ _ Hhook) as Hkey.
    destruct Hinv as [H1 H2].
    unfold queue_inv, fifo_inv, active_runnables, waiting in *. simpl.
    rewrite Hc in *. split; [split|].
    + exact H1.
    + intros rid' [= <-].
      destruct (H2 rid eq_refl) as [Hlen [r0 [item [rest [Hr0 [Hq Hk]]]]]].
      rewrite length_insert. split; [exact Hlen|].
      exists r', item, rest. rewrite list_lookup_insert_eq.
      * rewrite Hr0 in Hr. injection Hr as ->. rewrite Hkey. auto.
      * apply lookup_lt_Some in Hr. exact Hr.
    + now rewrite (runnable_key_insert _ _ r).
Qed.

Lemma inv_worker_simple (st st' : UI)
  (keys : list (string * string * option string)) (rid : nat) (error : string) :
  queue_inv st -> fifo_inv st keys ->
  worker_enter st rid = Some st' \/ worker_return st rid = Some st' \/
  worker_raise st rid error = Some st' ->
  queue_inv st' /\ fifo_inv st' keys.
Proof.
  intros Hinv Hf.
  unfold worker_enter, worker_return, worker_raise.
  destruct (pool_phase st rid) as [[| |]|]; destruct (store st !! rid) as [r|];
    intros [H|[H|H]]; try discriminate.
  - destruct (String.eqb (mode r) "video" && resolution_missing r);
      injection H as <-.
    + now apply inv_emit_finished.
    + now apply inv_pool_set.
  - injection H as <-. now apply inv_emit_finished.
  - injection H as <-. now apply inv_emit_finished.
Qed.

Lemma show_download_summary_frame (st : UI) :
  store (show_download_summary st) = store st /\
  current_download (show_download_summary st) = current_download st /\
  download_queue (show_download_summary st) = download_queue st /\
  thread_pool (show_download_summary st) = thread_pool st.
Proof.
  unfold show_download_summary.
  destruct (successful_downloads st), (failed_downloads st); simpl; auto.
Qed.

Lemma record_outcome_frame (st : UI) (success : bool)
  (message filename : string) :
  store (record_outcome st success message filename) = store st /\
  current_download (record_outcome st success message filename)
    = current_download st /\
  download_queue (record_outcome st success message filename)
    = download_queue st /\
  thread_pool (record_outcome st success message filename) = thread_pool st.
Proof.
  unfold record_outcome.
  destruct success, (current_runnable st);
    try destruct (negb (String.eqb filename EmptyString)); simpl; auto.
Qed.

Lemma inv_advance_queue (st : UI)
  (keys : list (string * string * option string)) :
  thread_pool st = [] ->
  keys = (map runnable_key (store st)
          ++ map item_key (tail (download_queue st)))%list ->
  queue_inv (advance_queue st) /\ fifo_inv (advance_queue st) keys.
Proof.
  intros Hp Hk. unfold advance_queue. simpl.
  destruct (download_queue st) as [|item [|item' rest]] eqn:Hq; simpl in *.
  - destruct (show_download_summary_frame
                (with_current (with_queue st []) None)) as [Es [Ec [Eq Ep]]].
    unfold queue_inv, fifo_inv, active_runnables, waiting. simpl.
    rewrite Es, Ec, Eq, Ep. simpl. rewrite Hp.
    split; [split; [reflexivity | intros rid; discriminate] | exact Hk].
  - destruct (show_download_summary_frame
                (with_current (with_queue st []) None)) as [Es [Ec [Eq Ep]]].
    unfold queue_inv, fifo_inv, active_runnables, waiting. simpl.
    rewrite Es, Ec, Eq, Ep. simpl. rewrite Hp.
    split; [split; [reflexivity | intros rid; discriminate] | exact Hk].
  - apply inv_process_queue; simpl; auto.
Qed.

Lemma inv_deliver (st st' : UI)
  (keys : list (string * string * option string)) (rid : nat) :
  queue_inv st -> fifo_inv st keys -> deliver_finished st rid = Some st' ->
  queue_inv st' /\ fifo_inv st' keys.
Proof.
  intros Hinv Hf. unfold deliver_finished.
  destruct (pool_phase st rid) as [[| |success message filename]|] eqn:Hph;
    try discriminate.
  intros [= <-].
  destruct (inv_current_of_phase _ _ _ Hinv Hph) as [Hc Hpool].
  unfold on_download_finished.
  destruct (record_outcome_frame (pool_remove st rid) success message filename)
    as [Es [Ec [Eq Ep]]].
  apply inv_advance_queue.
  - rewrite Ep. unfold pool_remove. simpl. rewrite Hpool.
    rewrite filter_cons. simpl.
    destruct (decide (rid <> rid)); [congruence | reflexivity].
  - rewrite Es, Eq. simpl.
    unfold fifo_inv, waiting in Hf. now rewrite Hc in Hf.
Qed.

Lemma same_queue_state_refl (st : UI) : same_queue_state st st.
Proof.
  unfold same_queue_state. repeat (split; [reflexivity|]). now left.
Qed.

Lemma update_resolutions_frame (st : UI) (text : string) :
  same_queue_state st (update_resolutions st text).
Proof.
  unfold update_resolutions.
  destruct (String.eqb (strip text) EmptyString
            || negb (startswith (strip text) "http://"
                     || startswith (strip text) "https://")).
  - apply same_queue_state_refl.
  - unfold same_queue_state. simpl. repeat (split; [reflexivity|]). now left.
Qed.

(** Pasting, refreshing and the signals of the probe leave the queue, the
    runnables, the pool, the result lists and the other controls alone. *)
Lemma probe_step_frame (st st' : UI) (o : op) :
  probe_op o = true -> step st o = Some st' -> same_queue_state st st'.
Proof.
  destruct o as [| | | | | | | | | |clipboard video_checked|text|signal];
    simpl; try discriminate; intros _.
  - intros [= <-]. unfold paste_url.
    destruct (is_valid_video_url (strip clipboard)) as [[|] e]; simpl.
    + destruct video_checked;
        [apply update_resolutions_frame | apply same_queue_state_refl].
    + unfold same_queue_state. simpl. repeat (split; [reflexivity|]).
      right. now exists e.
  - intros [= <-]. apply update_resolutions_frame.
  - destruct signal; intros [= <-]; unfold same_queue_state; simpl;
      repeat (split; [reflexivity|]); now left.
Qed.

Lemma inv_same_queue_state (st st' : UI)
  (keys : list (string * string * option string)) :
  same_queue_state st st' -> queue_inv st -> fifo_inv st keys ->
  queue_inv st' /\ fifo_inv st' keys.
Proof.
  intros [Es [Ec [Eq [Ep _]]]].
  unfold queue_inv, fifo_inv, active_runnables, waiting.
  now rewrite Es, Ec, Eq, Ep.
Qed.

(** One life-cycle event keeps the invariant and extends the enqueue
    history by the item it accepted. *)
Lemma step_inv (st st' : UI) (keys : list (string * string * option string))
  (o : op) :
  lifecycle_op o = true -> queue_inv st -> fifo_inv st keys ->
  step st o = Some st' ->
  queue_inv st' /\ fifo_inv st' (keys ++ map item_key (accepted_of o)).
Proof.
  intros Hop Hinv Hf Hstep.
  destruct (probe_op o) eqn:Hprobe.
  { replace (accepted_of o) with (@nil queue_item) by (now destruct o).
    simpl. rewrite app_nil_r.
    exact (inv_same_queue_state st st' keys
             (probe_step_frame st st' o Hprobe Hstep) Hinv Hf). }
  destruct o; simpl in Hop, Hstep, Hprobe; try discriminate;
    try (simpl; rewrite app_nil_r).
  - injection Hstep as <-. now apply inv_add.
  - injection Hstep as <-. now apply inv_start.
  - injection Hstep as <-. now apply inv_cancel.
  - apply (inv_worker_simple st st' keys rid EmptyString); auto.
  - now apply (inv_worker_hook st st' keys rid d).
  - apply (inv_worker_simple st st' keys rid EmptyString); auto.
  - apply (inv_worker_simple st st' keys rid error); auto.
  - now apply (inv_deliver st st' keys rid).
Qed.

Lemma run_ops_inv (ops : list op) (st st' : UI)
  (keys : list (string * string * option string)) :
  forallb lifecycle_op ops = true -> queue_inv st -> fifo_inv st keys ->
  run_ops st ops = Some st' ->
  queue_inv st' /\ fifo_inv st' (keys ++ map item_key (enqueued ops)).
Proof.
  revert st keys. induction ops as [|o ops IH]; intros st keys Hops Hinv Hf Hrun.
  - simpl in *. injection Hrun as <-. now rewrite app_nil_r.
  - simpl in Hops, Hrun. apply andb_prop in Hops as [Ho Hops].
    destruct (step st o) as [st1|] eqn:Hstep; [|discriminate].
    destruct (step_inv _ _ _ _ Ho Hinv Hf Hstep) as [Hinv1 Hf1].
    destruct (IH _ _ Hops Hinv1 Hf1 Hrun) as [Hinv' Hf'].
    split; [exact Hinv'|].
    unfold enqueued in *. simpl. now rewrite map_app, app_assoc.
Qed.

Lemma initial_inv : queue_inv initial_ui /\ fifo_inv initial_ui [].
Proof.
  split; [split|]; try reflexivity. intros rid; discriminate.
Qed.

Lemma queue_inv_active_is_head (st : UI) :
  queue_inv st -> length (active_runnables st) <= 1 /\ active_is_head st.
Proof.
  intros [H1 H2]. split.
  - rewrite H1. destruct (current_download st); simpl; lia.
  - intros rid Hin. rewrite H1 in Hin.
    destruct (current_download st) as [c|] eqn:Hc; simpl in Hin; [|contradiction].
    destruct Hin as [->|[]]. split; [reflexivity|].
    exact (proj2 (H2 rid eq_refl)).
Qed.

(** C1.  After every sequence of life-cycle events (enqueue, start, cancel,
    worker steps, terminal events) run from the initial state, at most one
    runnable is Active, and an Active runnable is [current_download] and
    was built from the entry at the head of the queue.  As the statement
    holds for every sequence, it holds after every prefix of a run. *)
Theorem at_most_one_active (ops : list op) (st : UI) :
  forallb lifecycle_op ops = true ->
  run_ops initial_ui ops = Some st ->
  length (active_runnables st) <= 1 /\ active_is_head st.
Proof.
  intros Hops Hrun.
  destruct initial_inv as [Hinv Hf].
  destruct (run_ops_inv ops _ _ _ Hops Hinv Hf Hrun) as [Hinv' _].
  now apply queue_inv_active_is_head.
Qed.

(** ** First in, first out *)

Lemma run_ops_app (st : UI) (ops1 ops2 : list op) :
  run_ops st (ops1 ++ ops2) =
  match run_ops st ops1 with
  | Some st1 => run_ops st1 ops2
  | None => None
  end.
Proof.
  revert st. induction ops1 as [|o ops1 IH]; intros st; simpl; [reflexivity|].
  destruct (step st o); [apply IH | reflexivity].
Qed.

Lemma worker_op_lifecycle (ws : list op) :
  forallb worker_op ws = true -> forallb lifecycle_op ws = true.
Proof.
  induction ws as [|o ws IH]; simpl; [reflexivity|].
  intros H. apply andb_prop in H as [Ho Hws].
  rewrite (IH Hws). now destruct o.
Qed.

(** Worker steps and cancel requests leave the queue, the current runnable
    and the number of runnables as they are. *)
Lemma worker_step_frame (st st' : UI) (o : op) :
  worker_op o = true -> step st o = Some st' ->
  download_queue st' = download_queue st /\
  current_download st' = current_download st /\
  length (store st') = length (store st).
Proof.
  destruct o; simpl; try discriminate; intros _.
  - unfold cancel_download. intros [= <-].
    destruct (current_download st) as [rid|] eqn:Hc; [|auto].
    destruct (store st !! rid); simpl; rewrite ?Hc, ?length_insert; auto.
  - unfold worker_enter.
    destruct (pool_phase st rid) as [[| |]|], (store st !! rid) as [r|];
      try discriminate.
    destruct (String.eqb (mode r) "video" && resolution_missing r);
      intros [= <-]; [|simpl; auto].
    destruct (emit_finished_pool_set st rid r (Raised MSG_NO_RESOLUTION))
      as [s [m [f [_ ->]]]]. simpl; auto.
  - unfold worker_hook.
    destruct (pool_phase st rid) as [[| |]|], (store st !! rid) as [r|];
      try discriminate.
    destruct (progress_hook r d) as [message|r' events]; intros [= <-].
    + destruct (emit_finished_pool_set st rid r (Raised message))
        as [s [m [f [_ ->]]]]. simpl; auto.
    + simpl. rewrite length_insert. auto.
  - unfold worker_return.
    destruct (pool_phase st rid) as [[| |]|], (store st !! rid) as [r|];
      try discriminate. intros [= <-].
    destruct (emit_finished_pool_set st rid r (Returned true))
      as [s [m [f [_ ->]]]]. simpl; auto.
  - unfold worker_raise.
    destruct (pool_phase st rid) as [[| |]|], (store st !! rid) as [r|];
      try discriminate. intros [= <-].
    destruct (emit_finished_pool_set st rid r (Raised error))
      as [s [m [f [_ ->]]]]. simpl; auto.
Qed.

Lemma worker_ops_frame (ws : list op) (st st' : UI) :
  forallb worker_op ws = true -> run_ops st ws = Some st' ->
  download_queue st' = download_queue st /\
  current_download st' = current_download st /\
  length (store st') = length (store st).
Proof.
  revert st. induction ws as [|o ws IH]; intros st Hws Hrun; simpl in *.
  - injection Hrun as <-. auto.
  - apply andb_prop in Hws as [Ho Hws].
    destruct (step st o) as [st1|] eqn:Hstep; [|discriminate].
    destruct (worker_step_frame _ _ _ Ho Hstep) as [E1 [E2 E3]].
    destruct (IH _ Hws Hrun) as [F1 [F2 F3]].
    rewrite F1, F2, F3. auto.
Qed.

Lemma process_queue_head (st : UI) (item : queue_item)
  (rest : list queue_item) :
  download_queue st = item :: rest ->
  store (process_queue st) =
    (store st ++ [new_runnable (item_url item) (item_mode item)
                               (item_resolution item)])%list /\
  current_download (process_queue st) = Some (length (store st)) /\
  thread_pool (process_queue st) =
    (thread_pool st ++ [(length (store st), WQueued)])%list /\
  download_queue (process_queue st) = item :: rest.
Proof.
  intros Hq. unfold process_queue. rewrite Hq. simpl. auto.
Qed.

Lemma start_downloads_idle (st : UI) (item : queue_item)
  (rest : list queue_item) :
  download_queue st = item :: rest -> current_download st = None ->
  start_downloads st = process_queue (set_controls_enabled st false).
Proof.
  intros Hq Hc. unfold start_downloads. rewrite Hq. simpl. now rewrite Hc.
Qed.

Lemma advance_queue_next (st : UI) (item next : queue_item)
  (rest : list queue_item) :
  download_queue st = item :: next :: rest ->
  advance_queue st =
    process_queue (with_current (with_queue st (next :: rest)) None).
Proof.
  intros Hq. unfold advance_queue. rewrite Hq. reflexivity.
Qed.

Lemma accepted_is_add (o : op) (item : queue_item) :
  accepted_of o = [item] ->
  exists text v c, o = OpAdd text v c.
Proof.
  destruct o; simpl; try discriminate. intros _. eauto.
Qed.

(** The three accepted additions, then the start. *)
Lemma scenario_started (a b c : op) (ia ib ic : queue_item) (st : UI) :
  accepted_of a = [ia] -> accepted_of b = [ib] -> accepted_of c = [ic] ->
  run_ops initial_ui [a; b; c; OpStart] = Some st ->
  download_queue st = [ia; ib; ic] /\ current_download st = Some 0 /\
  length (store st) = 1.
Proof.
  intros Ha Hb Hc.
  destruct (accepted_is_add _ _ Ha) as [ta [va [ca ->]]].
  destruct (accepted_is_add _ _ Hb) as [tb [vb [cb ->]]].
  destruct (accepted_is_add _ _ Hc) as [tc [vc [cc ->]]].
  cbn [run_ops step].
  set (s1 := add_to_queue initial_ui ta va ca).
  set (s2 := add_to_queue s1 tb vb cb).
  set (s3 := add_to_queue s2 tc vc cc).
  destruct (add_to_queue_accepted initial_ui ta va ca) as [Q1 [S1 [C1 _]]].
  destruct (add_to_queue_accepted s1 tb vb cb) as [Q2 [S2 [C2 _]]].
  destruct (add_to_queue_accepted s2 tc vc cc) as [Q3 [S3 [C3 _]]].
  fold s1 in Q1, S1, C1. fold s2 in Q2, S2, C2. fold s3 in Q3, S3, C3.
  rewrite Ha in Q1. rewrite Hb, Q1 in Q2. rewrite Hc, Q2 in Q3.
  simpl in Q3. rewrite C2, C1 in C3. rewrite S2, S1 in S3. simpl in C3, S3.
  intros [= <-].
  rewrite (start_downloads_idle s3 ia [ib; ic] Q3 C3).
  destruct (process_queue_head (set_controls_enabled s3 false) ia [ib; ic] Q3)
    as [Es [Ec [_ Eq]]].
  simpl in Es, Ec. rewrite Eq, Ec, Es, S3. auto.
Qed.

(** C2.  Jobs are started in the order in which they were enqueued: after
    any sequence of life-cycle events, the jobs started so far, in the order
    of their start, followed by the entries still waiting, are the accepted
    jobs in enqueue order; and a job that is Active is the one started last,
    so that a job is started only after the terminal event of the previous
    one has been handled.  In particular, when A, B and C are enqueued, the
    queue is started, and the terminal event of A (success or not) is
    handled, the job made Active is B: the queue is [B; C], the new
    runnable is built from B, and none has been built from C. *)
Theorem fifo_execution (ops : list op) (st : UI) :
  forallb lifecycle_op ops = true ->
  run_ops initial_ui ops = Some st ->
  map item_key (enqueued ops) =
    (map runnable_key (store st) ++ map item_key (waiting st))%list /\
  (forall rid, In rid (active_runnables st) -> S rid = length (store st)) /\
  (forall (a b c : op) (ia ib ic : queue_item) (ws : list op),
     ops = ([a; b; c; OpStart] ++ ws ++ [OpDeliver 0])%list ->
     accepted_of a = [ia] -> accepted_of b = [ib] -> accepted_of c = [ic] ->
     forallb worker_op ws = true ->
     download_queue st = [ib; ic] /\
     current_download st = Some 1 /\
     store st !! 1 = Some (new_runnable (item_url ib) (item_mode ib)
                                        (item_resolution ib)) /\
     active_runnables st = [1] /\
     length (store st) = 2).
Proof.
  intros Hops Hrun.
  destruct initial_inv as [Hinv0 Hf0].
  destruct (run_ops_inv ops _ _ _ Hops Hinv0 Hf0 Hrun) as [Hinv Hf].
  split; [|split].
  - exact (eq_sym (eq_sym Hf)).
  - intros rid Hin. destruct Hinv as [H1 H2]. rewrite H1 in Hin.
    destruct (current_download st) as [cur|]; simpl in Hin; [|contradiction].
    destruct Hin as [->|[]]. exact (proj1 (H2 rid eq_refl)).
  - intros a b c ia ib ic ws -> Ha Hb Hc Hws.
    rewrite run_ops_app in Hrun.
    destruct (run_ops initial_ui [a; b; c; OpStart]) as [st1|] eqn:Hrun1;
      [|discriminate].
    rewrite run_ops_app in Hrun.
    destruct (run_ops st1 ws) as [st2|] eqn:Hrun2; [|discriminate].
    destruct (scenario_started _ _ _ _ _ _ _ Ha Hb Hc Hrun1) as [Q1 [C1 L1]].
    destruct (worker_ops_frame _ _ _ Hws Hrun2) as [Q2 [C2 L2]].
    rewrite Q1 in Q2. rewrite C1 in C2. rewrite L1 in L2.
    assert (Hinv2 : queue_inv st2).
    { rewrite forallb_app in Hops. apply andb_prop in Hops as [Hops1 Hops'].
      rewrite forallb_app in Hops'. apply andb_prop in Hops' as [Hops2 _].
      destruct (run_ops_inv _ _ _ _ Hops1 Hinv0 Hf0 Hrun1) as [I1 F1].
      exact (proj1 (run_ops_inv _ _ _ _ Hops2 I1 F1 Hrun2)). }
    simpl in Hrun. unfold deliver_finished in Hrun.
    destruct (pool_phase st2 0) as [[| |s m f]|] eqn:Hph; try discriminate.
    injection Hrun as <-.
    destruct (inv_current_of_phase _ _ _ Hinv2 Hph) as [_ Hpool].
    unfold on_download_finished.
    set (X := record_outcome (pool_remove st2 0) s m f).
    destruct (record_outcome_frame (pool_remove st2 0) s m f)
      as [Es [Ec [Eq Ep]]].
    fold X in Es, Ec, Eq, Ep. simpl in Es, Ec, Eq, Ep.
    rewrite Hpool in Ep. rewrite filter_cons in Ep. simpl in Ep.
    destruct (decide (0 <> 0)) as [Hne|_]; [congruence|].
    rewrite filter_nil in Ep.
    rewrite Q2 in Eq.
    rewrite (advance_queue_next X ia ib [ic] Eq).
    set (Y := with_current (with_queue X [ib; ic]) None).
    destruct (process_queue_head Y ib [ic] eq_refl) as [Ps [Pc [Pp Pq]]].
    change (store Y) with (store X) in Ps, Pc, Pp.
    change (thread_pool Y) with (thread_pool X) in Pp.
    unfold active_runnables.
    rewrite Pq, Pc, Ps, Pp, Es, Ep, L2. simpl.
    repeat split; try reflexivity.
    + apply list_lookup_middle. now rewrite L2.
    + rewrite length_app, L2. reflexivity.
Qed.

(** ** Cancellation *)

Lemma friendly_not_cancelled (error : string) :
  get_user_friendly_error_message error <> MSG_CANCELLED.
Proof.
  unfold get_user_friendly_error_message.
  repeat match goal with
         | |- context [if ?b then _ else _] => destruct b
         end; discriminate.
Qed.

(** The arguments [run] can emit, per way the download call ends: the
    "cancelled" triple needs a download method that returns [False]. *)
Lemma run_finished_cancelled (r : DownloadRunnable) (e : download_end) :
  snd (fst (run_finished r e)) = MSG_CANCELLED -> e = Returned false.
Proof.
  destruct e as [[|]|error]; simpl; intros H.
  - discriminate.
  - reflexivity.
  - now apply friendly_not_cancelled in H.
Qed.

Lemma pool_set_in (st : UI) (rid : nat) (ph : worker_phase)
  (x : nat * worker_phase) :
  In x (thread_pool (pool_set st rid ph)) ->
  In x (thread_pool st) \/ x = (rid, ph).
Proof.
  unfold pool_set. simpl.
  induction (thread_pool st) as [|e l IH]; simpl; [tauto|].
  destruct (Nat.eqb (fst e) rid); intros [<-|H]; auto; destruct (IH H); auto.
Qed.

Lemma pool_remove_in (st : UI) (rid : nat) (x : nat * worker_phase) :
  In x (thread_pool (pool_remove st rid)) -> In x (thread_pool st).
Proof.
  unfold pool_remove. simpl. rewrite <- !list_elem_of_In.
  rewrite list_elem_of_filter. tauto.
Qed.

Lemma process_queue_in (st : UI) (x : nat * worker_phase) :
  In x (thread_pool (process_queue st)) ->
  In x (thread_pool st) \/ exists rid, x = (rid, WQueued).
Proof.
  unfold process_queue. destruct (download_queue st); simpl; [auto|].
  rewrite in_app_iff. simpl. intros [H|[<-|[]]]; eauto.
Qed.

Lemma advance_queue_in (st : UI) (x : nat * worker_phase) :
  In x (thread_pool (advance_queue st)) ->
  In x (thread_pool st) \/ exists rid, x = (rid, WQueued).
Proof.
  destruct (download_queue st) as [|item [|next rest]] eqn:Hq.
  - unfold advance_queue. rewrite Hq. simpl. intros H. left.
    now rewrite (proj2 (proj2 (proj2 (show_download_summary_frame _)))) in H.
  - unfold advance_queue. rewrite Hq. simpl. intros H. left.
    now rewrite (proj2 (proj2 (proj2 (show_download_summary_frame _)))) in H.
  - rewrite (advance_queue_next _ _ _ _ Hq). intros H.
    apply process_queue_in in H. exact H.
Qed.

Lemma emit_finished_in (st : UI) (rid : nat) (r : DownloadRunnable)
  (e : download_end) (x : nat * worker_phase) :
  e <> Returned false ->
  In x (thread_pool (emit_finished st rid r e)) ->
  In x (thread_pool st) \/
  exists success message filename,
    x = (rid, WEmitted success message filename) /\ message <> MSG_CANCELLED.
Proof.
  intros He.
  destruct (emit_finished_pool_set st rid r e) as [s [m [f [Hrun ->]]]].
  intros H. apply pool_set_in in H as [H | ->]; [now left|].
  right. exists s, m, f. split; [reflexivity|].
  intros Hm. apply He, (run_finished_cancelled r). now rewrite Hrun.
Qed.

(** Every event keeps [no_cancelled_event]. *)
Lemma step_no_cancelled (st st' : UI) (o : op) :
  no_cancelled_event st -> step st o = Some st' -> no_cancelled_event st'.
Proof.
  intros Hinv Hstep rid s m f Hin.
  assert (Hold : In (rid, WEmitted s m f) (thread_pool st) -> m <> MSG_CANCELLED)
    by apply Hinv.
  assert (Hemit : forall rid' r e, e <> Returned false ->
            In (rid, WEmitted s m f) (thread_pool (emit_finished st rid' r e)) ->
            m <> MSG_CANCELLED).
  { intros rid' r e He H. apply emit_finished_in in H; [|exact He].
    destruct H as [H|[s' [m' [f' [E Hm]]]]]; [auto|].
    injection E as _ _ -> _. exact Hm. }
  destruct (probe_op o) eqn:Hprobe.
  { destruct (probe_step_frame st st' o Hprobe Hstep) as [_ [_ [_ [Ep _]]]].
    rewrite Ep in Hin. exact (Hold Hin). }
  destruct o; simpl in Hstep, Hprobe; try discriminate Hprobe.
  - injection Hstep as <-. apply Hold.
    now rewrite (proj2 (proj2 (proj2 (add_to_queue_accepted st _ _ _)))) in Hin.
  - injection Hstep as <-. unfold start_downloads in Hin.
    destruct (download_queue st); [exact (Hold Hin)|].
    change (current_download (set_controls_enabled st false))
      with (current_download st) in Hin.
    destruct (current_download st); [exact (Hold Hin)|].
    apply process_queue_in in Hin as [H|[rid' E]]; [exact (Hold H)|].
    discriminate E.
  - injection Hstep as <-. unfold cancel_download in Hin.
    destruct (current_download st) as [c|]; [|exact (Hold Hin)].
    destruct (store st !! c); exact (Hold Hin).
  - unfold remove_selected in Hstep.
    destruct (0 <=? current_row)%Z; [|injection Hstep as <-; exact (Hold Hin)].
    destruct (current_row <? _)%Z; [|discriminate].
    injection Hstep as <-. exact (Hold Hin).
  - injection Hstep as <-. unfold clear_queue in Hin.
    destruct (download_queue st); [exact (Hold Hin)|].
    destruct yes; exact (Hold Hin).
  - unfold worker_enter in Hstep.
    destruct (pool_phase st rid0) as [[| |]|], (store st !! rid0) as [r|];
      try discriminate.
    destruct (String.eqb (mode r) "video" && resolution_missing r);
      injection Hstep as <-.
    + now apply (Hemit rid0 r (Raised MSG_NO_RESOLUTION)).
    + apply pool_set_in in Hin as [H|E]; [exact (Hold H) | discriminate E].
  - unfold worker_hook in Hstep.
    destruct (pool_phase st rid0) as [[| |]|], (store st !! rid0) as [r|];
      try discriminate.
    destruct (progress_hook r d) as [message|r' events]; injection Hstep as <-.
    + now apply (Hemit rid0 r (Raised message)).
    + exact (Hold Hin).
  - unfold worker_return in Hstep.
    destruct (pool_phase st rid0) as [[| |]|], (store st !! rid0) as [r|];
      try discriminate.
    injection Hstep as <-. now apply (Hemit rid0 r (Returned true)).
  - unfold worker_raise in Hstep.
    destruct (pool_phase st rid0) as [[| |]|], (store st !! rid0) as [r|];
      try discriminate.
    injection Hstep as <-. now apply (Hemit rid0 r (Raised error)).
  - unfold deliver_finished in Hstep.
    destruct (pool_phase st rid0) as [[| |s' m' f']|]; try discriminate.
    injection Hstep as <-. unfold on_download_finished in Hin.
    apply advance_queue_in in Hin as [H|[rid' E]]; [|discriminate E].
    rewrite (proj2 (proj2 (proj2 (record_outcome_frame _ _ _ _)))) in H.
    apply pool_remove_in in H. exact (Hold H).
Qed.

(** The "cancelled" branch of [run] is dead: in no reachable state does a
    terminal event carry its message. *)
Lemma cancelled_event_unreachable (ops : list op) (st : UI) :
  run_ops initial_ui ops = Some st -> no_cancelled_event st.
Proof.
  assert (H : forall st0, no_cancelled_event st0 ->
                run_ops st0 ops = Some st -> no_cancelled_event st).
  { induction ops as [|o ops IH]; intros st0 H0 Hrun; simpl in Hrun.
    - now injection Hrun as <-.
    - destruct (step st0 o) as [st1|] eqn:Hstep; [|discriminate].
      exact (IH st1 (step_no_cancelled _ _ _ H0 Hstep) Hrun). }
  apply H. intros rid s m f [].
Qed.

(** C3, evaluated on the code.  When the flag of the Active runnable is set
    and the engine calls the progress hook, the hook raises and [run]
    leaves through its [except] branch: the terminal event is the one an
    engine failure with the text "Загрузка отменена пользователем" would
    produce, its message is the classified error message and never the
    message of the "cancelled" branch, and the handler appends the URL with
    that message to the failure list.  The queue then advances: with another
    entry behind the head, a runnable is built from it and made current. *)
Theorem cancel_reported_as_error
  (st : UI) (rid : nat) (r : DownloadRunnable) (d : gmap string pyval) :
  current_download st = Some rid ->
  pool_phase st rid = Some WDownloading ->
  store st !! rid = Some r ->
  cancel_event r = true ->
  let message := get_user_friendly_error_message MSG_CANCELLED_BY_USER in
  let st1 := pool_set st rid (WEmitted false message EmptyString) in
  let st2 := advance_queue
               (with_failed (pool_remove st rid)
                            (failed_downloads st ++ [(url r, message)])) in
  worker_hook st rid d = Some st1 /\
  worker_raise st rid MSG_CANCELLED_BY_USER = Some st1 /\
  message <> MSG_CANCELLED /\
  deliver_finished st1 rid = Some st2 /\
  (forall item next rest,
     download_queue st = item :: next :: rest ->
     current_download st2 = Some (length (store st)) /\
     store st2 !! length (store st) =
       Some (new_runnable (item_url next) (item_mode next)
                          (item_resolution next)) /\
     download_queue st2 = next :: rest).
Proof.
  intros Hc Hph Hr Hcancel message st1 st2.
  assert (Hhook : progress_hook r d = HookRaise MSG_CANCELLED_BY_USER).
  { unfold progress_hook. now rewrite Hcancel. }
  split; [|split; [|split; [|split]]].
  - unfold worker_hook. now rewrite Hph, Hr, Hhook.
  - unfold worker_raise. now rewrite Hph, Hr.
  - apply friendly_not_cancelled.
  - unfold deliver_finished, st1.
    rewrite (pool_phase_set st rid _ _ Hph).
    unfold on_download_finished. rewrite pool_remove_set.
    unfold record_outcome, current_runnable. simpl.
    rewrite Hc. simpl. now rewrite Hr.
  - intros item next rest Hq.
    set (Z := with_failed (pool_remove st rid)
                (failed_downloads st ++ [(url r, message)])) in *.
    assert (HqZ : download_queue Z = item :: next :: rest) by exact Hq.
    unfold st2. rewrite (advance_queue_next Z item next rest HqZ).
    set (Y := with_current (with_queue Z (next :: rest)) None).
    destruct (process_queue_head Y next rest eq_refl) as [Ps [Pc [_ Pq]]].
    change (store Y) with (store st) in Ps, Pc.
    rewrite Pc, Ps, Pq. split; [reflexivity|]. split; [|reflexivity].
    now apply list_lookup_middle.
Qed.

(** ** Removing and clearing entries *)






(** * Further properties

    The properties below hold under all events, the two that delete
    entries included. *)

(** ** The invariant of the window *)

Lemma pool_inv_shape (st : UI) (rid : nat) (ph : worker_phase) :
  pool_inv st -> pool_phase st rid = Some ph ->
  current_download st = Some rid /\ thread_pool st = [(rid, ph)].
Proof.
  unfold pool_inv, active_runnables. intros H1 Hph.
  pose proof (pool_phase_active _ _ _ Hph) as Hin.
  unfold active_runnables in Hin. rewrite H1 in Hin.
  destruct (current_download st) as [c|]; simpl in Hin; [|contradiction].
  destruct Hin as [->|[]]. split; [reflexivity|].
  unfold pool_phase in Hph.
  destruct (thread_pool st) as [|[i q] [|e l]]; simpl in H1; try discriminate.
  injection H1 as ->. simpl in Hph.
  rewrite Nat.eqb_refl in Hph. simpl in Hph. congruence.
Qed.

Lemma pool_inv_idle (st : UI) :
  pool_inv st -> current_download st = None -> thread_pool st = [].
Proof.
  unfold pool_inv, active_runnables. intros H1 Hc. rewrite Hc in H1.
  now destruct (thread_pool st).
Qed.

Lemma mode_shape_of_flag (v : bool) (c : string) :
  mode_shape (if v then "video" else "audio")
             (if String.eqb (if v then "video" else "audio") "video"
              then Some c else None).
Proof.
  destruct v; simpl; [left | right]; eauto.
Qed.

Lemma reach_add (st : UI) (text : string) (v : bool) (c : string) :
  reach_inv st -> reach_inv (add_to_queue st text v c).
Proof.
  intros (H1 & H2 & H3 & H4 & H5 & H6).
  unfold add_to_queue.
  destruct (is_valid_video_url (strip text)) as [ok e] eqn:Hv.
  destruct ok; simpl.
  - unfold reach_inv, pool_inv, active_runnables in *. simpl.
    split_conj; auto.
    apply Forall_app. split; [exact H5|]. constructor; [|constructor].
    unfold item_wf. simpl. split_conj.
    + now exists text.
    + now rewrite Hv.
    + reflexivity.
    + apply mode_shape_of_flag.
  - unfold reach_inv, pool_inv, active_runnables in *. simpl.
    split_conj; auto.
Qed.

Lemma runnable_wf_of_item (item : queue_item) :
  item_wf item ->
  runnable_wf (new_runnable (item_url item) (item_mode item)
                            (item_resolution item)).
Proof.
  intros (_ & Hv & _ & Hm). unfold runnable_wf. simpl. auto.
Qed.

Lemma reach_process_queue (st : UI) :
  pool_inv st -> current_download st = None ->
  successful_downloads st = [] -> failed_downloads st = [] ->
  Forall item_wf (download_queue st) -> Forall runnable_wf (store st) ->
  (download_queue st <> [] -> controls_enabled st = false) ->
  reach_inv (process_queue st).
Proof.
  intros H1 Hc Hs Hf H5 H6 Hctl.
  pose proof (pool_inv_idle _ H1 Hc) as Hp.
  unfold process_queue.
  destruct (download_queue st) as [|item rest] eqn:Hq.
  - unfold reach_inv, pool_inv, active_runnables. simpl.
    rewrite Hc, Hp, Hq. simpl.
    split_conj; auto. intros rid; discriminate.
  - unfold reach_inv, pool_inv, active_runnables. simpl.
    rewrite Hp, Hq. simpl. split; [reflexivity|]. split; [|split; [|split; [|split]]].
    + intros rid [= <-]. rewrite length_app. simpl. lia.
    + now apply Hctl.
    + discriminate.
    + exact H5.
    + apply Forall_app. split; [exact H6|]. constructor; [|constructor].
      apply runnable_wf_of_item. now inversion H5.
Qed.

Lemma reach_start (st : UI) : reach_inv st -> reach_inv (start_downloads st).
Proof.
  intros (H1 & H2 & H3 & H4 & H5 & H6). unfold start_downloads.
  destruct (download_queue st) as [|item rest] eqn:Hq.
  - unfold reach_inv, pool_inv, active_runnables in *. simpl.
    rewrite Hq. split_conj; auto.
  - change (current_download (set_controls_enabled st false))
      with (current_download st).
    destruct (current_download st) as [rid|] eqn:Hc.
    + unfold reach_inv, pool_inv, active_runnables in *. simpl.
      rewrite Hc, Hq in *. split_conj; auto.
    + destruct (H4 eq_refl) as [Hs Hf].
      apply reach_process_queue; simpl; try assumption.
      * now rewrite Hq.
      * reflexivity.
Qed.

Lemma runnable_wf_insert (l : list DownloadRunnable) (rid : nat)
  (r r' : DownloadRunnable) :
  l !! rid = Some r -> runnable_key r' = runnable_key r ->
  output_dir r' = output_dir r ->
  Forall runnable_wf l -> Forall runnable_wf (<[rid := r']> l).
Proof.
  intros Hl Hk Ho HF. apply Forall_insert; [exact HF|].
  rewrite Forall_lookup in HF. destruct (HF rid r Hl) as (Hv & Hd & Hm).
  unfold runnable_key in Hk. injection Hk as Hu Hmo Hre.
  unfold runnable_wf. rewrite Hu, Ho, Hmo, Hre. auto.
Qed.

Lemma reach_store_insert (st : UI) (rid : nat) (r r' : DownloadRunnable) :
  store st !! rid = Some r -> runnable_key r' = runnable_key r ->
  output_dir r' = output_dir r ->
  reach_inv st -> reach_inv (with_store st (<[rid := r']> (store st))).
Proof.
  intros Hl Hk Ho (H1 & H2 & H3 & H4 & H5 & H6).
  unfold reach_inv, pool_inv, active_runnables in *. simpl.
  rewrite length_insert.
  split_conj; auto.
  now apply (runnable_wf_insert _ _ r).
Qed.

Lemma reach_cancel (st : UI) : reach_inv st -> reach_inv (cancel_download st).
Proof.
  intros Hinv. unfold cancel_download.
  destruct (current_download st) as [rid|]; [|exact Hinv].
  destruct (store st !! rid) as [r|] eqn:Hr; [|exact Hinv].
  now apply (reach_store_insert st rid r).
Qed.

Lemma reach_with_queue (st : UI) (q : list queue_item) :
  Forall item_wf q -> reach_inv st -> reach_inv (with_queue st q).
Proof.
  intros Hq (H1 & H2 & H3 & H4 & H5 & H6).
  unfold reach_inv, pool_inv, active_runnables in *. simpl.
  split_conj; auto.
Qed.

Lemma reach_remove (st st' : UI) (row : Z) :
  reach_inv st -> remove_selected st row = Some st' -> reach_inv st'.
Proof.
  intros Hinv. unfold remove_selected.
  destruct (0 <=? row)%Z; [|now intros [= <-]].
  destruct (row <? Z.of_nat (length (download_queue st)))%Z; [|discriminate].
  intros [= <-]. apply reach_with_queue; [|exact Hinv].
  destruct Hinv as (_ & _ & _ & _ & H5 & _).
  now apply Forall_delete.
Qed.

Lemma reach_clear (st : UI) (yes : bool) :
  reach_inv st -> reach_inv (clear_queue st yes).
Proof.
  intros Hinv. unfold clear_queue.
  destruct (download_queue st); [exact Hinv|].
  destruct yes; [|exact Hinv].
  apply reach_with_queue; [constructor | exact Hinv].
Qed.

Lemma reach_pool_set (st : UI) (rid : nat) (ph : worker_phase) :
  reach_inv st -> reach_inv (pool_set st rid ph).
Proof.
  intros (H1 & H2 & H3 & H4 & H5 & H6).
  unfold reach_inv, pool_inv in *. rewrite active_pool_set.
  split_conj; auto.
Qed.

Lemma reach_emit_finished (st : UI) (rid : nat) (r : DownloadRunnable)
  (e : download_end) :
  reach_inv st -> reach_inv (emit_finished st rid r e).
Proof.
  intros Hinv.
  destruct (emit_finished_pool_set st rid r e) as [s [m [f [_ ->]]]].
  now apply reach_pool_set.
Qed.

Lemma progress_hook_frame (r r' : DownloadRunnable) (d : gmap string pyval)
  (events : list (string * Q)) :
  progress_hook r d = HookDone r' events ->
  runnable_key r' = runnable_key r /\ output_dir r' = output_dir r /\
  cancel_event r' = cancel_event r.
Proof.
  unfold progress_hook.
  fold (hook_downloaded d). fold (hook_total d).
  destruct (cancel_event r) eqn:Hc; [discriminate|].
  destruct (is_str (dict_get d "status" PNone) "downloading").
  - destruct (truthy (hook_total d)).
    + destruct (hook_downloaded d), (hook_total d);
        intros [= <- _]; auto.
    + intros [= <- _]; auto.
  - destruct (is_str (dict_get d "status" PNone) "finished").
    + destruct (dict_get d "filename" (PStr EmptyString));
        try discriminate. intros [= <- _]; auto.
    + intros [= <- _]; auto.
Qed.

Lemma reach_log_progress (st : UI) (events : list (string * Q)) :
  reach_inv st -> reach_inv (log_progress st events).
Proof.
  intros (H1 & H2 & H3 & H4 & H5 & H6).
  unfold reach_inv, pool_inv, active_runnables in *. simpl.
  split_conj; auto.
Qed.

Lemma reach_worker (st st' : UI) (o : op) :
  worker_op o = true -> reach_inv st -> step st o = Some st' -> reach_inv st'.
Proof.
  intros Ho Hinv. destruct o; simpl in Ho; try discriminate; simpl.
  - intros [= <-]. now apply reach_cancel.
  - unfold worker_enter.
    destruct (pool_phase st rid) as [[| |]|], (store st !! rid) as [r|];
      try discriminate.
    destruct (String.eqb (mode r) "video" && resolution_missing r);
      intros [= <-]; [now apply reach_emit_finished | now apply reach_pool_set].
  - unfold worker_hook.
    destruct (pool_phase st rid) as [[| |]|], (store st !! rid) as [r|] eqn:Hr;
      try discriminate.
    destruct (progress_hook r d) as [message|r' events] eqn:Hh; intros [= <-].
    + now apply reach_emit_finished.
    + destruct (progress_hook_frame _ _ _ _ Hh) as (Hk & Hd & _).
      apply reach_log_progress. now apply (reach_store_insert st rid r).
  - unfold worker_return.
    destruct (pool_phase st rid) as [[| |]|], (store st !! rid) as [r|];
      try discriminate.
    intros [= <-]. now apply reach_emit_finished.
  - unfold worker_raise.
    destruct (pool_phase st rid) as [[| |]|], (store st !! rid) as [r|];
      try discriminate.
    intros [= <-]. now apply reach_emit_finished.
Qed.

Lemma show_download_summary_cleared (st : UI) :
  successful_downloads (show_download_summary st) = [] /\
  failed_downloads (show_download_summary st) = [] /\
  controls_enabled (show_download_summary st) = controls_enabled st.
Proof.
  unfold show_download_summary.
  destruct (successful_downloads st) eqn:Es, (failed_downloads st) eqn:Ef;
    simpl; rewrite ?Es, ?Ef; auto.
Qed.

Lemma reach_advance_queue (st : UI) :
  thread_pool st = [] ->
  (forall rid, current_download st = Some rid -> rid < length (store st)) ->
  controls_enabled st = false ->
  Forall item_wf (download_queue st) -> Forall runnable_wf (store st) ->
  reach_inv (advance_queue st).
Proof.
  intros Hp H2 Hctl H5 H6.
  destruct (download_queue st) as [|item [|next rest]] eqn:Hq.
  - unfold advance_queue. rewrite Hq. simpl.
    set (X := with_current (with_queue st []) None).
    destruct (show_download_summary_frame X) as (Es & Ec & Eq & Ep).
    destruct (show_download_summary_cleared X) as (Cs & Cf & _).
    unfold reach_inv, pool_inv, active_runnables. simpl.
    rewrite Es, Ec, Eq, Ep, Cs, Cf. simpl. rewrite Hp.
    split_conj; auto. intros rid; discriminate.
  - unfold advance_queue. rewrite Hq. simpl.
    set (X := with_current (with_queue st []) None).
    destruct (show_download_summary_frame X) as (Es & Ec & Eq & Ep).
    destruct (show_download_summary_cleared X) as (Cs & Cf & _).
    unfold reach_inv, pool_inv, active_runnables. simpl.
    rewrite Es, Ec, Eq, Ep, Cs, Cf. simpl. rewrite Hp.
    split_conj; auto. intros rid; discriminate.
  - rewrite (advance_queue_next _ _ _ _ Hq).
    set (Y := with_current (with_queue st (next :: rest)) None).
    destruct (process_queue_head Y next rest eq_refl) as (Ps & Pc & Pp & Pq).
    change (store Y) with (store st) in Ps, Pc, Pp.
    change (thread_pool Y) with (thread_pool st) in Pp.
    unfold reach_inv, pool_inv, active_runnables.
    rewrite Ps, Pc, Pp, Pq, Hp. simpl.
    split_conj; auto.
    + intros rid [= <-]. rewrite length_app. simpl. lia.
    + discriminate.
    + now inversion H5.
    + apply Forall_app. split; [exact H6|]. constructor; [|constructor].
      apply runnable_wf_of_item. inversion H5 as [|? ? _ H5']. now inversion H5'.
Qed.

Lemma record_outcome_controls (st : UI) (success : bool)
  (message filename : string) :
  controls_enabled (record_outcome st success message filename)
    = controls_enabled st /\
  dialogs (record_outcome st success message filename) = dialogs st /\
  progress_log (record_outcome st success message filename) = progress_log st.
Proof.
  unfold record_outcome.
  destruct success, (current_runnable st);
    try destruct (negb (String.eqb filename EmptyString)); simpl; auto.
Qed.

Lemma pool_remove_only (st : UI) (rid : nat) (ph : worker_phase) :
  thread_pool st = [(rid, ph)] -> thread_pool (pool_remove st rid) = [].
Proof.
  intros Hp. unfold pool_remove. simpl. rewrite Hp, filter_cons. simpl.
  destruct (decide (rid <> rid)); [congruence | reflexivity].
Qed.

Lemma reach_deliver (st st' : UI) (rid : nat) :
  reach_inv st -> deliver_finished st rid = Some st' -> reach_inv st'.
Proof.
  intros (H1 & H2 & H3 & H4 & H5 & H6). unfold deliver_finished.
  destruct (pool_phase st rid) as [[| |s m f]|] eqn:Hph; try discriminate.
  intros [= <-].
  destruct (pool_inv_shape _ _ _ H1 Hph) as [Hc Hpool].
  unfold on_download_finished.
  destruct (record_outcome_frame (pool_remove st rid) s m f)
    as (Es & Ec & Eq & Ep).
  destruct (record_outcome_controls (pool_remove st rid) s m f)
    as (Ectl & _ & _).
  apply reach_advance_queue.
  - rewrite Ep. now apply (pool_remove_only st rid (WEmitted s m f)).
  - rewrite Es, Ec. exact H2.
  - rewrite Ectl. simpl. rewrite H3, Hc. reflexivity.
  - rewrite Eq. exact H5.
  - rewrite Es. exact H6.
Qed.

Lemma reach_same_queue_state (st st' : UI) :
  same_queue_state st st' -> reach_inv st -> reach_inv st'.
Proof.
  intros [Es [Ec [Eq [Ep [Esucc [Efail [Ectl _]]]]]]].
  unfold reach_inv, pool_inv, active_runnables.
  now rewrite Es, Ec, Eq, Ep, Esucc, Efail, Ectl.
Qed.

Lemma reach_step (st st' : UI) (o : op) :
  reach_inv st -> step st o = Some st' -> reach_inv st'.
Proof.
  intros Hinv Hstep.
  destruct (worker_op o) eqn:Hw; [exact (reach_worker _ _ _ Hw Hinv Hstep)|].
  destruct (probe_op o) eqn:Hprobe.
  { exact (reach_same_queue_state st st'
             (probe_step_frame st st' o Hprobe Hstep) Hinv). }
  destruct o; simpl in Hw, Hstep, Hprobe; try discriminate.
  - injection Hstep as <-. now apply reach_add.
  - injection Hstep as <-. now apply reach_start.
  - exact (reach_remove _ _ _ Hinv Hstep).
  - injection Hstep as <-. now apply reach_clear.
  - exact (reach_deliver _ _ _ Hinv Hstep).
Qed.

Lemma reach_initial : reach_inv initial_ui.
Proof.
  unfold reach_inv, pool_inv, active_runnables. simpl.
  split_conj; auto; try constructor. intros rid; discriminate.
Qed.

Lemma reach_run (ops : list op) (st st' : UI) :
  reach_inv st -> run_ops st ops = Some st' -> reach_inv st'.
Proof.
  revert st. induction ops as [|o ops IH]; intros st Hinv Hrun; simpl in Hrun.
  - now injection Hrun as <-.
  - destruct (step st o) as [st1|] eqn:Hstep; [|discriminate].
    exact (IH st1 (reach_step _ _ _ Hinv Hstep) Hrun).
Qed.

(** X1.  Whatever the user and the workers do, the two deleting events
    included, at most one runnable is in the pool, and the pool holds a
    runnable exactly when [current_download] is set, namely that runnable,
    which exists in the store. *)
Theorem one_active_under_all_events (ops : list op) (st : UI) :
  run_ops initial_ui ops = Some st ->
  length (active_runnables st) <= 1 /\
  (forall rid, In rid (active_runnables st) <->
               current_download st = Some rid) /\
  (forall rid, current_download st = Some rid ->
               exists r ph, store st !! rid = Some r /\
                            pool_phase st rid = Some ph).
Proof.
  intros Hrun.
  destruct (reach_run ops _ _ reach_initial Hrun) as (H1 & H2 & _).
  unfold pool_inv in H1. split; [|split].
  - rewrite H1. destruct (current_download st); simpl; lia.
  - intros rid. rewrite H1.
    destruct (current_download st) as [c|]; simpl.
    + split; [intros [->|[]]; reflexivity | intros [= ->]; now left].
    + split; [intros [] | discriminate].
  - intros rid Hc. specialize (H2 rid Hc).
    destruct (lookup_lt_is_Some_2 _ _ H2) as [r Hr].
    rewrite Hc in H1. unfold active_runnables in H1.
    destruct (thread_pool st) as [|[i ph] [|e l]] eqn:Hp;
      simpl in H1; try discriminate.
    injection H1 as ->. exists r, ph. split; [exact Hr|].
    unfold pool_phase. rewrite Hp. simpl. now rewrite Nat.eqb_refl.
Qed.

(** X2.  The URL field and the two mode radio buttons are disabled exactly
    while a download is current, whatever happens, pasting, refreshing and
    the signals of the resolution probe included: in every reachable state
    [controls_enabled] is false when [current_download] is set and true when
    it is not.  The resolution combo is not covered: the probe disables and
    enables it on its own. *)
Theorem controls_disabled_iff_downloading (ops : list op) (st : UI) :
  run_ops initial_ui ops = Some st ->
  (controls_enabled st = false <-> current_download st <> None).
Proof.
  intros Hrun.
  destruct (reach_run ops _ _ reach_initial Hrun) as (_ & _ & H3 & _).
  rewrite H3. destruct (current_download st); split; congruence.
Qed.

(** X3.  The result lists are reported and cleared before the window goes
    idle: in every reachable state without a current download, both lists are
    empty, so whatever was recorded has been shown in a summary. *)
Theorem idle_lists_empty (ops : list op) (st : UI) :
  run_ops initial_ui ops = Some st ->
  current_download st = None ->
  successful_downloads st = [] /\ failed_downloads st = [] /\
  thread_pool st = [].
Proof.
  intros Hrun Hc.
  destruct (reach_run ops _ _ reach_initial Hrun) as (H1 & _ & _ & H4 & _).
  destruct (H4 Hc) as [Hs Hf]. split_conj; auto.
  now apply pool_inv_idle.
Qed.

(** X4.  Only validated URLs are ever queued or downloaded: in every reachable
    state each queue entry holds a stripped URL accepted by the classifier,
    the service name derived from it, and a resolution exactly when its mode
    is "video"; each runnable ever created has an accepted URL, the same
    pairing of mode and resolution, and the output directory "downloads". *)
Theorem queued_jobs_validated (ops : list op) (st : UI) :
  run_ops initial_ui ops = Some st ->
  (forall item, In item (download_queue st) ->
     (exists text, item_url item = strip text) /\
     fst (is_valid_video_url (item_url item)) = true /\
     item_service item = get_service_name (item_url item) /\
     mode_shape (item_mode item) (item_resolution item)) /\
  (forall r, In r (store st) ->
     fst (is_valid_video_url (url r)) = true /\
     output_dir r = "downloads" /\
     mode_shape (mode r) (resolution r)).
Proof.
  intros Hrun.
  destruct (reach_run ops _ _ reach_initial Hrun) as (_ & _ & _ & _ & H5 & H6).
  split.
  - intros item Hin. rewrite List.Forall_forall in H5. exact (H5 item Hin).
  - intros r Hin. rewrite List.Forall_forall in H6. exact (H6 r Hin).
Qed.

(** ** Accounting of outcomes *)

Lemma advance_queue_all (st : UI) :
  all_failed (advance_queue st) = all_failed st /\
  all_successful (advance_queue st) = all_successful st.
Proof.
  unfold all_failed, all_successful.
  destruct (advance_queue_lists st) as [(Es & Ef & Ed)|(Es & Ef & Ed)];
    rewrite Es, Ef, Ed; [auto|].
  rewrite !flat_map_app. simpl. rewrite !app_nil_r. auto.
Qed.

Lemma advance_queue_pops (st : UI) :
  download_queue (advance_queue st) = tail (download_queue st).
Proof.
  destruct (download_queue st) as [|item [|next rest]] eqn:Hq.
  - unfold advance_queue. rewrite Hq. simpl.
    now rewrite (proj1 (proj2 (proj2 (show_download_summary_frame _)))).
  - unfold advance_queue. rewrite Hq. simpl.
    now rewrite (proj1 (proj2 (proj2 (show_download_summary_frame _)))).
  - rewrite (advance_queue_next _ _ _ _ Hq).
    set (Y := with_current (with_queue st (next :: rest)) None).
    now rewrite (proj2 (proj2 (proj2 (process_queue_head Y next rest eq_refl)))).
Qed.

Lemma show_dialog_all (st : UI) (dlg : dialog) :
  dialog_failed dlg = [] -> dialog_successful dlg = [] ->
  all_failed (show_dialog st dlg) = all_failed st /\
  all_successful (show_dialog st dlg) = all_successful st.
Proof.
  intros Hf Hs. unfold all_failed, all_successful. simpl.
  rewrite !flat_map_app. simpl. rewrite Hf, Hs. simpl.
  now rewrite !app_nil_r.
Qed.

Lemma process_queue_all (st : UI) :
  all_failed (process_queue st) = all_failed st /\
  all_successful (process_queue st) = all_successful st.
Proof.
  unfold process_queue. now destruct (download_queue st).
Qed.

Lemma same_queue_state_all (st st' : UI) :
  same_queue_state st st' ->
  all_failed st' = all_failed st /\ all_successful st' = all_successful st.
Proof.
  intros [_ [_ [_ [_ [Esucc [Efail [_ [_ Hdlg]]]]]]]].
  unfold all_failed, all_successful. rewrite Esucc, Efail.
  destruct Hdlg as [-> | [message ->]]; [auto|].
  rewrite !flat_map_app. simpl. now rewrite !app_nil_r.
Qed.

(** Events other than the delivery of a terminal event leave the recorded
    outcomes alone. *)
Lemma other_events_all (st st' : UI) (o : op) :
  (forall rid, o <> OpDeliver rid) -> step st o = Some st' ->
  all_failed st' = all_failed st /\ all_successful st' = all_successful st.
Proof.
  intros Hno.
  destruct (probe_op o) eqn:Hprobe.
  { intros Hstep.
    exact (same_queue_state_all st st'
             (probe_step_frame st st' o Hprobe Hstep)). }
  destruct o; simpl in Hprobe; try discriminate Hprobe; simpl.
  - intros [= <-]. unfold add_to_queue.
    destruct (is_valid_video_url (strip text)) as [[|] e]; simpl; [auto|].
    now apply show_dialog_all.
  - intros [= <-]. unfold start_downloads.
    destruct (download_queue st); [now apply show_dialog_all|].
    change (current_download (set_controls_enabled st false))
      with (current_download st).
    destruct (current_download st); [auto|].
    apply (process_queue_all (set_controls_enabled st false)).
  - intros [= <-]. unfold cancel_download.
    destruct (current_download st) as [c|]; [|auto].
    now destruct (store st !! c).
  - unfold remove_selected.
    destruct (0 <=? current_row)%Z; [|now intros [= <-]].
    destruct (current_row <? _)%Z; [|discriminate]. now intros [= <-].
  - intros [= <-]. unfold clear_queue.
    destruct (download_queue st); [auto|]. now destruct yes.
  - unfold worker_enter.
    destruct (pool_phase st rid) as [[| |]|], (store st !! rid) as [r|];
      try discriminate.
    destruct (String.eqb (mode r) "video" && resolution_missing r);
      intros [= <-]; [|auto].
    now destruct (emit_finished_pool_set st rid r (Raised MSG_NO_RESOLUTION))
      as [s [m [f [_ ->]]]].
  - unfold worker_hook.
    destruct (pool_phase st rid) as [[| |]|], (store st !! rid) as [r|];
      try discriminate.
    destruct (progress_hook r d) as [message|r' events]; intros [= <-]; [|auto].
    now destruct (emit_finished_pool_set st rid r (Raised message))
      as [s [m [f [_ ->]]]].
  - unfold worker_return.
    destruct (pool_phase st rid) as [[| |]|], (store st !! rid) as [r|];
      try discriminate. intros [= <-].
    now destruct (emit_finished_pool_set st rid r (Returned true))
      as [s [m [f [_ ->]]]].
  - unfold worker_raise.
    destruct (pool_phase st rid) as [[| |]|], (store st !! rid) as [r|];
      try discriminate. intros [= <-].
    now destruct (emit_finished_pool_set st rid r (Raised error))
      as [s [m [f [_ ->]]]].
  - intros _. exfalso. now apply (Hno rid).
Qed.

(** X5.  No outcome is lost, duplicated or attributed to another job.  In a
    reachable state, handling the terminal event of runnable [rid] appends
    exactly one entry for that runnable to the recorded failures when it
    failed, exactly one to the recorded successes when it succeeded with a
    file name, and nothing otherwise; it drops the head entry of the queue.
    Every other event leaves the recorded outcomes as they are, including the
    moment they move from the lists into a summary. *)
Theorem outcome_accounting (ops : list op) (st st' : UI) (o : op) :
  run_ops initial_ui ops = Some st ->
  step st o = Some st' ->
  match o with
  | OpDeliver rid =>
      exists r success message filename,
        store st !! rid = Some r /\
        pool_phase st rid = Some (WEmitted success message filename) /\
        all_failed st' =
          (all_failed st ++
           (if success then [] else [(url r, message)]))%list /\
        all_successful st' =
          (all_successful st ++
           (if success && negb (String.eqb filename EmptyString)
            then [(filename, url r)] else []))%list /\
        download_queue st' = tail (download_queue st)
  | _ =>
      all_failed st' = all_failed st /\ all_successful st' = all_successful st
  end.
Proof.
  intros Hrun Hstep.
  destruct (reach_run ops _ _ reach_initial Hrun) as (H1 & H2 & _).
  destruct o as [text v c| | |row|yes|rid0|rid0 d|rid0|rid0 error|rid
                |clipboard v|text|signal];
    try (eapply other_events_all; [|exact Hstep]; intros ?; discriminate).
  simpl in Hstep. unfold deliver_finished in Hstep.
  destruct (pool_phase st rid) as [[| |s m f]|] eqn:Hph; try discriminate.
  injection Hstep as <-.
  destruct (pool_inv_shape _ _ _ H1 Hph) as [Hc Hpool].
  destruct (lookup_lt_is_Some_2 _ _ (H2 rid Hc)) as [r Hr].
  exists r, s, m, f. split; [exact Hr|]. split; [reflexivity|].
  unfold on_download_finished.
  set (X := record_outcome (pool_remove st rid) s m f).
  destruct (advance_queue_all X) as [Ef Es]. rewrite Ef, Es.
  rewrite advance_queue_pops.
  assert (Hcur : current_runnable (pool_remove st rid) = Some r).
  { unfold current_runnable. simpl. rewrite Hc. simpl. exact Hr. }
  unfold X, record_outcome. rewrite Hcur.
  unfold all_failed, all_successful.
  destruct s; simpl.
  - destruct (String.eqb f EmptyString); simpl;
      rewrite ?app_nil_r, ?app_assoc; auto.
  - rewrite ?app_nil_r, ?app_assoc; auto.
Qed.

(** ** The life of a runnable *)

Lemma runnable_evolves_refl (r : DownloadRunnable) : runnable_evolves r r.
Proof. unfold runnable_evolves. auto. Qed.

Lemma store_evolves_same (st st' : UI) :
  store st' = store st -> store_evolves st st'.
Proof.
  intros E. unfold store_evolves. rewrite E. split; [lia|].
  intros rid r Hr. exists r. split; [exact Hr | apply runnable_evolves_refl].
Qed.

Lemma store_evolves_app (st st' : UI) (l : list DownloadRunnable) :
  store st' = (store st ++ l)%list -> store_evolves st st'.
Proof.
  intros E. unfold store_evolves. rewrite E. split.
  - rewrite length_app. lia.
  - intros rid r Hr. exists r. split; [|apply runnable_evolves_refl].
    now apply lookup_app_l_Some.
Qed.

Lemma store_evolves_insert (st st' : UI) (c : nat) (r0 r1 : DownloadRunnable) :
  store st !! c = Some r0 -> runnable_evolves r0 r1 ->
  store st' = <[c := r1]> (store st) -> store_evolves st st'.
Proof.
  intros H0 Hev E. unfold store_evolves. rewrite E, length_insert.
  split; [lia|]. intros rid r Hr.
  destruct (decide (c = rid)) as [->|Hne].
  - exists r1. rewrite list_lookup_insert_eq by (now apply lookup_lt_Some in Hr).
    split; [reflexivity|]. congruence.
  - exists r. rewrite list_lookup_insert_ne by assumption.
    split; [exact Hr | apply runnable_evolves_refl].
Qed.

Lemma store_evolves_trans (st1 st2 st3 : UI) :
  store_evolves st1 st2 -> store_evolves st2 st3 -> store_evolves st1 st3.
Proof.
  intros [L1 H1] [L2 H2]. split; [lia|].
  intros rid r Hr. destruct (H1 rid r Hr) as [r' [Hr' (K1 & O1 & C1)]].
  destruct (H2 rid r' Hr') as [r'' [Hr'' (K2 & O2 & C2)]].
  exists r''. split; [exact Hr''|]. unfold runnable_evolves.
  split_conj; [congruence | congruence | auto].
Qed.

Lemma process_queue_store (st : UI) :
  exists l, store (process_queue st) = (store st ++ l)%list.
Proof.
  unfold process_queue. destruct (download_queue st); simpl.
  - exists []. now rewrite app_nil_r.
  - eexists. reflexivity.
Qed.

Lemma advance_queue_store (st : UI) :
  exists l, store (advance_queue st) = (store st ++ l)%list.
Proof.
  destruct (download_queue st) as [|item [|next rest]] eqn:Hq.
  - unfold advance_queue. rewrite Hq. simpl.
    rewrite (proj1 (show_download_summary_frame _)). simpl.
    exists []. now rewrite app_nil_r.
  - unfold advance_queue. rewrite Hq. simpl.
    rewrite (proj1 (show_download_summary_frame _)). simpl.
    exists []. now rewrite app_nil_r.
  - rewrite (advance_queue_next _ _ _ _ Hq).
    destruct (process_queue_store
                (with_current (with_queue st (next :: rest)) None)) as [l Hl].
    exists l. exact Hl.
Qed.

Lemma step_store_evolves (st st' : UI) (o : op) :
  step st o = Some st' -> store_evolves st st'.
Proof.
  destruct (probe_op o) eqn:Hprobe.
  { intros Hstep. apply store_evolves_same.
    exact (proj1 (probe_step_frame st st' o Hprobe Hstep)). }
  destruct o; simpl in Hprobe; try discriminate Hprobe; simpl.
  - intros [= <-]. apply store_evolves_same.
    exact (proj1 (proj2 (add_to_queue_accepted st _ _ _))).
  - intros [= <-]. unfold start_downloads.
    destruct (download_queue st); [now apply store_evolves_same|].
    change (current_download (set_controls_enabled st false))
      with (current_download st).
    destruct (current_download st); [now apply store_evolves_same|].
    destruct (process_queue_store (set_controls_enabled st false))
      as [added Hadded].
    now apply (store_evolves_app _ _ added).
  - intros [= <-]. unfold cancel_download.
    destruct (current_download st) as [c|]; [|now apply store_evolves_same].
    destruct (store st !! c) as [r0|] eqn:H0; [|now apply store_evolves_same].
    apply (store_evolves_insert _ _ c r0 (cancel r0)); auto.
    unfold runnable_evolves. auto.
  - unfold remove_selected.
    destruct (0 <=? current_row)%Z;
      [|intros [= <-]; now apply store_evolves_same].
    destruct (current_row <? _)%Z; [|discriminate].
    intros [= <-]. now apply store_evolves_same.
  - intros [= <-]. apply store_evolves_same. unfold clear_queue.
    destruct (download_queue st); [reflexivity|]. now destruct yes.
  - unfold worker_enter.
    destruct (pool_phase st rid) as [[| |]|], (store st !! rid) as [r|];
      try discriminate.
    destruct (String.eqb (mode r) "video" && resolution_missing r);
      intros [= <-]; [|now apply store_evolves_same].
    destruct (emit_finished_pool_set st rid r (Raised MSG_NO_RESOLUTION))
      as [s [m [f [_ ->]]]]. now apply store_evolves_same.
  - unfold worker_hook.
    destruct (pool_phase st rid) as [[| |]|], (store st !! rid) as [r|] eqn:Hr;
      try discriminate.
    destruct (progress_hook r d) as [message|r' events] eqn:Hh; intros [= <-].
    + destruct (emit_finished_pool_set st rid r (Raised message))
        as [s [m [f [_ ->]]]]. now apply store_evolves_same.
    + destruct (progress_hook_frame _ _ _ _ Hh) as (Hk & Hd & Hc).
      apply (store_evolves_insert _ _ rid r r'); auto.
      unfold runnable_evolves. split_conj; auto. congruence.
  - unfold worker_return.
    destruct (pool_phase st rid) as [[| |]|], (store st !! rid) as [r|];
      try discriminate. intros [= <-].
    destruct (emit_finished_pool_set st rid r (Returned true))
      as [s [m [f [_ ->]]]]. now apply store_evolves_same.
  - unfold worker_raise.
    destruct (pool_phase st rid) as [[| |]|], (store st !! rid) as [r|];
      try discriminate. intros [= <-].
    destruct (emit_finished_pool_set st rid r (Raised error))
      as [s [m [f [_ ->]]]]. now apply store_evolves_same.
  - unfold deliver_finished.
    destruct (pool_phase st rid) as [[| |s m f]|]; try discriminate.
    intros [= <-]. unfold on_download_finished.
    destruct (advance_queue_store (record_outcome (pool_remove st rid) s m f))
      as [l Hl].
    rewrite (proj1 (record_outcome_frame _ _ _ _)) in Hl.
    now apply (store_evolves_app _ _ l).
Qed.

Lemma run_store_evolves (ops : list op) (st st' : UI) :
  run_ops st ops = Some st' -> store_evolves st st'.
Proof.
  revert st. induction ops as [|o ops IH]; intros st Hrun; simpl in Hrun.
  - injection Hrun as <-. now apply store_evolves_same.
  - destruct (step st o) as [st1|] eqn:Hstep; [|discriminate].
    exact (store_evolves_trans _ _ _ (step_store_evolves _ _ _ Hstep)
                               (IH st1 Hrun)).
Qed.

(** X6.  A runnable, once created, stays in the store for good: whatever
    events follow, it is found under the same index with the same URL, mode,
    resolution and output directory, and a cancellation flag that has been set
    is never cleared. *)
Theorem runnables_persist (ops : list op) (st st' : UI) (rid : nat)
  (r : DownloadRunnable) :
  run_ops st ops = Some st' ->
  store st !! rid = Some r ->
  exists r' : DownloadRunnable,
    store st' !! rid = Some r' /\
    url r' = url r /\ mode r' = mode r /\ resolution r' = resolution r /\
    output_dir r' = output_dir r /\
    (cancel_event r = true -> cancel_event r' = true).
Proof.
  intros Hrun Hr.
  pose proof (run_store_evolves _ _ _ Hrun) as Hev.
  destruct (proj2 Hev rid r Hr) as [r' [Hr' (Hk & Ho & Hc)]].
  exists r'. unfold runnable_key in Hk. injection Hk as Hu Hm Hres.
  split_conj; auto.
Qed.

(** X7.  The cancellation flag is looked at by the progress hook only.  After
    the cancel button is pressed during a download, any callback makes the
    hook raise without emitting a progress event or touching the runnable; but
    if the engine returns without another callback, [run] reports the download
    as successful all the same. *)
Theorem cancel_seen_only_by_hook (st : UI) (rid : nat) (r : DownloadRunnable) :
  current_download st = Some rid ->
  pool_phase st rid = Some WDownloading ->
  store st !! rid = Some r ->
  store (cancel_download st) !! rid = Some (cancel r) /\
  (forall d : gmap string pyval,
     exists st1 : UI,
       worker_hook (cancel_download st) rid d = Some st1 /\
       progress_log st1 = progress_log st /\
       store st1 = store (cancel_download st) /\
       pool_phase st1 rid =
         Some (WEmitted false
                 (get_user_friendly_error_message MSG_CANCELLED_BY_USER)
                 EmptyString)) /\
  exists st2 : UI,
    worker_return (cancel_download st) rid = Some st2 /\
    pool_phase st2 rid =
      Some (WEmitted true MSG_DONE
              (default EmptyString (downloaded_filename r))).
Proof.
  intros Hc Hph Hr.
  assert (Hlt : rid < length (store st)) by (now apply lookup_lt_Some in Hr).
  assert (Hcd : cancel_download st
                = with_store st (<[rid := cancel r]> (store st))).
  { unfold cancel_download. now rewrite Hc, Hr. }
  assert (Hr' : store (cancel_download st) !! rid = Some (cancel r)).
  { rewrite Hcd. simpl. now apply list_lookup_insert_eq. }
  assert (Hph' : pool_phase (cancel_download st) rid = Some WDownloading).
  { rewrite Hcd. exact Hph. }
  split; [exact Hr'|]. split.
  - intros d. unfold worker_hook. rewrite Hph', Hr'.
    unfold progress_hook. simpl.
    unfold emit_finished. simpl.
    eexists. split; [reflexivity|]. split; [now rewrite Hcd|].
    split; [reflexivity|].
    now apply (pool_phase_set _ _ WDownloading).
  - unfold worker_return. rewrite Hph', Hr'.
    unfold emit_finished. simpl.
    eexists. split; [reflexivity|].
    now apply (pool_phase_set _ _ WDownloading).
Qed.

(** X8.  The success path, end to end.  When the hook of the current runnable
    receives a "finished" callback naming file [f], it logs the
    post-processing event at 100 percent; if the engine then returns and the
    terminal event is handled, the recorded successes grow by exactly the pair
    of the base name of [f] and the URL of the runnable, and the recorded
    failures do not change. *)
Theorem finished_file_recorded (st : UI) (rid : nat) (r : DownloadRunnable)
  (d : gmap string pyval) (f : string) :
  current_download st = Some rid ->
  pool_phase st rid = Some WDownloading ->
  store st !! rid = Some r ->
  cancel_event r = false ->
  dict_get d "status" PNone = PStr "finished" ->
  dict_get d "filename" (PStr EmptyString) = PStr f ->
  os_path_basename f <> EmptyString ->
  exists st1 st2 st3 : UI,
    worker_hook st rid d = Some st1 /\
    progress_log st1 =
      (progress_log st ++ [("Обработка файла...", 100%Q)])%list /\
    worker_return st1 rid = Some st2 /\
    pool_phase st2 rid =
      Some (WEmitted true MSG_DONE (os_path_basename f)) /\
    deliver_finished st2 rid = Some st3 /\
    all_successful st3 =
      (all_successful st ++ [(os_path_basename f, url r)])%list /\
    all_failed st3 = all_failed st.
Proof.
  intros Hc Hph Hr Hcancel Hstatus Hfile Hbase.
  assert (Hlt : rid < length (store st)) by (now apply lookup_lt_Some in Hr).
  set (r1 := set_downloaded_filename r (os_path_basename f)).
  set (st1 := log_progress (with_store st (<[rid := r1]> (store st)))
                           [("Обработка файла...", 100%Q)]).
  set (st2 := pool_set st1 rid (WEmitted true MSG_DONE (os_path_basename f))).
  assert (Hhook : progress_hook r d
                  = HookDone r1 [("Обработка файла...", 100%Q)]).
  { unfold progress_hook. rewrite Hcancel, Hstatus, Hfile. reflexivity. }
  assert (H1 : worker_hook st rid d = Some st1).
  { unfold worker_hook. now rewrite Hph, Hr, Hhook. }
  assert (Hr1 : store st1 !! rid = Some r1).
  { unfold st1. simpl. now apply list_lookup_insert_eq. }
  assert (Hph1 : pool_phase st1 rid = Some WDownloading) by exact Hph.
  assert (H2 : worker_return st1 rid = Some st2).
  { unfold worker_return. now rewrite Hph1, Hr1. }
  assert (Hph2 : pool_phase st2 rid
                 = Some (WEmitted true MSG_DONE (os_path_basename f))).
  { now apply (pool_phase_set _ _ WDownloading). }
  exists st1, st2, (on_download_finished (pool_remove st2 rid) true MSG_DONE
                      (os_path_basename f)).
  split; [exact H1|]. split; [reflexivity|]. split; [exact H2|].
  split; [exact Hph2|]. split.
  - unfold deliver_finished. now rewrite Hph2.
  - unfold on_download_finished.
    destruct (advance_queue_all
                (record_outcome (pool_remove st2 rid) true MSG_DONE
                                (os_path_basename f))) as [Ef Es].
    rewrite Ef, Es.
    assert (Hcur : current_runnable (pool_remove st2 rid) = Some r1).
    { unfold current_runnable. simpl. rewrite Hc. simpl. exact Hr1. }
    unfold record_outcome. rewrite Hcur.
    destruct (String.eqb (os_path_basename f) EmptyString) eqn:E.
    + apply String.eqb_eq in E. contradiction.
    + simpl. unfold all_successful, all_failed. simpl.
      now rewrite app_assoc.
Qed.

(** X9.  Pressing start while a download is current starts nothing: in a
    reachable state with a current runnable, [start_downloads] does no more
    than disable the resolution combo, which a resolution probe may have
    enabled again, when the list has an entry (the queue, the runnables, the
    pool, the result lists, the other controls and the dialogs stay as they
    are), and only shows the empty-queue notice when the list has been
    emptied meanwhile. *)
Theorem start_while_downloading (ops : list op) (st : UI) :
  run_ops initial_ui ops = Some st ->
  current_download st <> None ->
  (download_queue st <> [] ->
   start_downloads st = with_combo_enabled st false) /\
  (download_queue st = [] ->
   start_downloads st = show_dialog st InfoQueueEmpty).
Proof.
  intros Hrun Hc.
  destruct (reach_run ops _ _ reach_initial Hrun) as (_ & _ & H3 & _).
  unfold start_downloads. split.
  - intros Hq. destruct (download_queue st) as [|item rest]; [contradiction|].
    change (current_download (set_controls_enabled st false))
      with (current_download st).
    destruct (current_download st) as [rid|]; [|contradiction].
    destruct st as [s c q su fa p e ce g dl]. simpl in *. now subst e.
  - now intros ->.
Qed.

(** X10.  The check made on entering [run].  A runnable waiting in the pool of
    a reachable state is the current one; if it is an audio job, or a video
    job with a non-empty resolution text, the worker goes on to the download;
    a video job fails at once exactly when its resolution text is empty, and
    no other case exists. *)
Theorem entry_check (ops : list op) (st : UI) (rid : nat) :
  run_ops initial_ui ops = Some st ->
  pool_phase st rid = Some WQueued ->
  exists r : DownloadRunnable,
    store st !! rid = Some r /\
    current_download st = Some rid /\
    mode_shape (mode r) (resolution r) /\
    (mode r = "audio" ->
     worker_enter st rid = Some (pool_set st rid WDownloading)) /\
    (forall c, mode r = "video" -> resolution r = Some c ->
       c <> EmptyString ->
       worker_enter st rid = Some (pool_set st rid WDownloading)) /\
    (mode r = "video" -> resolution r = Some EmptyString ->
     worker_enter st rid =
       Some (pool_set st rid
               (WEmitted false
                  (get_user_friendly_error_message MSG_NO_RESOLUTION)
                  EmptyString))).
Proof.
  intros Hrun Hph.
  destruct (reach_run ops _ _ reach_initial Hrun)
    as (H1 & H2 & _ & _ & _ & H6).
  destruct (pool_inv_shape _ _ _ H1 Hph) as [Hc _].
  destruct (lookup_lt_is_Some_2 _ _ (H2 rid Hc)) as [r Hr].
  exists r. split; [exact Hr|]. split; [exact Hc|].
  assert (Hwf : runnable_wf r).
  { rewrite Forall_lookup in H6. exact (H6 rid r Hr). }
  split; [exact (proj2 (proj2 Hwf))|].
  unfold worker_enter. rewrite Hph, Hr. split_conj.
  - intros ->. reflexivity.
  - intros c -> Hres Hne. unfold resolution_missing. rewrite Hres. simpl.
    destruct (String.eqb c EmptyString) eqn:E; [|reflexivity].
    apply String.eqb_eq in E. contradiction.
  - intros -> Hres. unfold resolution_missing. rewrite Hres. reflexivity.
Qed.

(** ** The classifier, the probe and the request *)

(** X11.  The verdict of the classifier.  A URL is accepted exactly when it
    has an http(s) scheme and some pattern of the table matches it; the
    message is empty exactly when the URL is accepted; and a non-empty URL
    without the scheme gets the scheme message whatever else it contains. *)
Theorem classifier_verdict (u : string) :
  (fst (is_valid_video_url u) = true <->
   startswith u "http://" || startswith u "https://" = true /\
   matches_some_pattern u = true) /\
  (snd (is_valid_video_url u) = EmptyString <->
   fst (is_valid_video_url u) = true) /\
  (u <> EmptyString ->
   startswith u "http://" || startswith u "https://" = false ->
   is_valid_video_url u = (false, MSG_BAD_SCHEME)).
Proof.
  unfold is_valid_video_url.
  set (verdict := match List.find (mentions_service u) (map fst URL_PATTERNS)
                  with
                  | Some service_name => (false, msg_malformed service_name)
                  | None => (false, MSG_UNSUPPORTED)
                  end).
  assert (Hv : fst verdict = false /\ snd verdict <> EmptyString).
  { unfold verdict.
    destruct (List.find (mentions_service u) (map fst URL_PATTERNS));
      split; try reflexivity; discriminate. }
  destruct Hv as [Hv1 Hv2]. clearbody verdict.
  destruct (String.eqb_spec u EmptyString) as [Eu|Eu].
  { subst u. cbn [fst snd]. split_conj.
    - split; [discriminate | intros [H _]; discriminate H].
    - split; discriminate.
    - intros H. now contradiction H. }
  destruct (startswith u "http://" || startswith u "https://") eqn:Es;
    cbn [negb fst snd].
  - destruct (matches_some_pattern u) eqn:Em; cbn [fst snd].
    + split_conj; [tauto | tauto | intros _ H; discriminate H].
    + rewrite Hv1. split_conj.
      * split; [discriminate | intros [_ H]; discriminate H].
      * split; [intros H; now contradiction Hv2 | discriminate].
      * intros _ H. discriminate H.
  - split_conj.
    + split; [discriminate | intros [H _]; discriminate H].
    + split; discriminate.
    + reflexivity.
Qed.

Lemma resolution_label_nonempty (h : Z) :
  String.eqb (resolution_label h) EmptyString = false.
Proof.
  unfold resolution_label. now destruct (py_str_int h).
Qed.

Lemma remove_p_label (h : Z) :
  remove_char "p" (resolution_label h) = py_str_int h.
Proof.
  unfold resolution_label. now rewrite remove_p_app, remove_p_int.
Qed.

(** X12.  From the probe to the request.  Every entry of the list emitted by
    the probe is the label of a height it found (or of the fallback 720),
    reads back as that height, and, chosen as the resolution of a video job,
    passes the resolution check of [download_video] and bounds the requested
    formats by exactly that height. *)
Theorem probed_resolution_bounds_height
  (formats : option (list format)) (found : list string) (x : string)
  (r : DownloadRunnable) :
  ResolutionWorker_run (ExtractInfo formats) = resolutions_found found ->
  In x found ->
  resolution r = Some x ->
  exists h : Z,
    x = resolution_label h /\
    In h (probed_heights formats) /\
    resolution_key x = Some h /\
    download_video_format r =
      inr ("bestvideo[height<=" ++ py_str_int h ++
           "]+bestaudio/best[height<=" ++ py_str_int h ++ "]").
Proof.
  intros Hrun Hin Hres.
  destruct (run_with_spec elements formats (fun S => reflexivity _))
    as [sorted [Hrun' [_ Hmem]]].
  unfold ResolutionWorker_run in Hrun. rewrite Hrun' in Hrun.
  injection Hrun as <-.
  apply in_map_iff in Hin. destruct Hin as [h [<- Hh]].
  exists h. split; [reflexivity|]. split; [now apply Hmem|].
  split; [apply resolution_key_label|].
  unfold download_video_format, resolution_missing. rewrite Hres.
  rewrite resolution_label_nonempty. simpl.
  unfold video_format. now rewrite remove_p_label.
Qed.

(** ** The progress widgets *)

Lemma process_events_step (n : nat) :
  S n / 5 = n / 5 + (if Nat.eqb (S n mod 5) 0 then 1 else 0).
Proof.
  pose proof (Nat.div_mod_eq n 5) as Hn.
  pose proof (Nat.div_mod_eq (S n) 5) as Hs.
  pose proof (Nat.mod_upper_bound n 5 ltac:(lia)) as Bn.
  pose proof (Nat.mod_upper_bound (S n) 5 ltac:(lia)) as Bs.
  destruct (Nat.eqb_spec (S n mod 5) 0) as [E|E]; lia.
Qed.

Lemma update_progress_all_counts (events : list (string * Q))
  (v : ProgressView) :
  process_events_calls v = progress_update_counter v / 5 ->
  progress_update_counter (update_progress_all v events)
    = progress_update_counter v + length events /\
  process_events_calls (update_progress_all v events)
    = (progress_update_counter v + length events) / 5.
Proof.
  revert v. induction events as [|e events IH]; intros v Hv.
  - cbn [update_progress_all fold_left length]. rewrite Nat.add_0_r. auto.
  - change (update_progress_all v (e :: events))
      with (update_progress_all (update_progress v (fst e) (snd e)) events).
    destruct (IH (update_progress v (fst e) (snd e))) as [Hc Hp].
    + unfold update_progress.
      cbn [process_events_calls progress_update_counter].
      rewrite Hv, (process_events_step (progress_update_counter v)).
      destruct (Nat.eqb (S (progress_update_counter v) mod 5) 0); lia.
    + unfold update_progress in Hc at 2. unfold update_progress in Hp at 2.
      cbn [progress_update_counter] in Hc, Hp.
      cbn [length].
      replace (progress_update_counter v + S (length events))
        with (S (progress_update_counter v) + length events) by lia.
      auto.
Qed.

Lemma update_progress_all_range (events : list (string * Q))
  (v : ProgressView) :
  bar_range (update_progress_all v events) =
  if existsb indeterminate events then (0, 0)%Z else bar_range v.
Proof.
  revert v. induction events as [|e events IH]; intros v; simpl;
    [reflexivity|].
  rewrite IH. simpl. unfold indeterminate at 2.
  destruct (Qle_bool 0 (snd e)); simpl; [reflexivity|].
  now destruct (existsb indeterminate events).
Qed.

(** X13.  The window under a stream of progress signals.  The event loop is
    pumped once for every fifth signal: after [n] signals there have been
    [n / 5] calls.  The first signal without a known percentage puts the bar in
    busy mode (range 0 to 0), and no later signal, whatever its percentage,
    gives the bar a range again; without such a signal the range stays 0 to
    100. *)
Theorem progress_widgets (events : list (string * Q)) :
  progress_update_counter (update_progress_all initial_view events)
    = length events /\
  process_events_calls (update_progress_all initial_view events)
    = length events / 5 /\
  bar_range (update_progress_all initial_view events)
    = (if existsb indeterminate events then (0, 0)%Z else (0, 100)%Z) /\
  (forall later : list (string * Q),
     existsb indeterminate events = true ->
     bar_range (update_progress_all initial_view (events ++ later))
       = (0, 0)%Z).
Proof.
  destruct (update_progress_all_counts events initial_view eq_refl)
    as [Hc Hp].
  split_conj.
  - exact Hc.
  - exact Hp.
  - apply update_progress_all_range.
  - intros later Hbusy. rewrite update_progress_all_range, existsb_app, Hbusy.
    reflexivity.
Qed.

(** ** The rows of the queue list *)

Lemma queue_line_marked (st : UI) (i : nat) (item : queue_item) :
  marked (queue_line st i item) = is_current_item st item.
Proof.
  unfold marked, startswith, queue_line.
  now destruct (is_current_item st item).
Qed.

Lemma is_current_item_key (st : UI) (item : queue_item)
  (r : DownloadRunnable) :
  current_runnable st = Some r -> runnable_wf r -> item_wf item ->
  (is_current_item st item = true <-> runnable_key r = item_key item).
Proof.
  intros Hr [_ [_ Hshape]] [_ [_ [_ Hitem]]].
  unfold is_current_item, runnable_key, item_key. rewrite Hr.
  rewrite !andb_true_iff, orb_true_iff, !String.eqb_eq, bool_decide_eq_true.
  split.
  - intros [[Hu Hm] Hres]. rewrite Hu, Hm. f_equal.
    destruct Hres as [Ha|Hres]; [|exact Hres].
    destruct Hshape as [[Hv _]|[_ ->]]; [congruence|].
    destruct Hitem as [[Hv _]|[_ ->]]; [congruence | reflexivity].
  - intros [= Hu Hm Hres]. auto.
Qed.

Lemma reach_current_runnable (st : UI) (rid : nat) :
  reach_inv st -> current_download st = Some rid ->
  exists r, current_runnable st = Some r /\ store st !! rid = Some r /\
            runnable_wf r.
Proof.
  intros [_ [Hlt [_ [_ [_ Hwf]]]]] Hc.
  destruct (lookup_lt_is_Some_2 _ _ (Hlt rid Hc)) as [r Hr].
  exists r. unfold current_runnable. rewrite Hc. simpl.
  split; [exact Hr|]. split; [exact Hr|].
  rewrite Forall_forall in Hwf. apply Hwf.
  eapply list_elem_of_lookup_2. exact Hr.
Qed.

(** X14.  The rows shown by [update_queue_display] in a state the window can
    reach.  There is one row per entry of the queue, and a row carries the
    hourglass exactly when there is a current download whose URL, mode and
    resolution are those of the entry: no row is marked when nothing is
    downloading, and every duplicate of the current job is marked with it.  As
    long as no entry was removed or cleared, the first row is marked whenever
    a download is current. *)
Theorem queue_rows (ops : list op) (st : UI) :
  run_ops initial_ui ops = Some st ->
  length (update_queue_display st) = length (download_queue st) /\
  (forall i item, download_queue st !! i = Some item ->
     exists row, update_queue_display st !! i = Some row /\
       (marked row = true <->
        exists r, current_runnable st = Some r /\
                  runnable_key r = item_key item)) /\
  (forallb lifecycle_op ops = true ->
   forall rid, current_download st = Some rid ->
     exists row rest,
       update_queue_display st = row :: rest /\ marked row = true).
Proof.
  intros Hrun.
  pose proof (reach_run _ _ _ reach_initial Hrun) as Hreach.
  split_conj.
  - unfold update_queue_display. apply length_imap.
  - intros i item Hitem. exists (queue_line st (S i) item). split.
    + unfold update_queue_display. rewrite list_lookup_imap, Hitem.
      reflexivity.
    + rewrite queue_line_marked.
      assert (Hwf : item_wf item).
      { destruct Hreach as [_ [_ [_ [_ [Hq _]]]]].
        rewrite Forall_forall in Hq. apply Hq.
        eapply list_elem_of_lookup_2. exact Hitem. }
      destruct (current_download st) as [rid|] eqn:Hc.
      * destruct (reach_current_runnable st rid Hreach Hc)
          as [r [Hcur [_ Hr]]].
        rewrite (is_current_item_key st item r Hcur Hr Hwf). split.
        -- intros Hk. now exists r.
        -- intros [r' [Hr' Hk]]. congruence.
      * unfold is_current_item, current_runnable. rewrite Hc. simpl. split.
        -- discriminate.
        -- intros [r' [Hr' _]]. discriminate.
  - intros Hops rid Hc.
    destruct (run_ops_inv ops initial_ui st [] Hops
                (proj1 initial_inv) (proj2 initial_inv) Hrun) as [[_ Hhead] _].
    destruct (Hhead rid Hc) as [_ [r [item [rest [Hr [Hq Hk]]]]]].
    destruct (reach_current_runnable st rid Hreach Hc)
      as [r' [Hcur [Hr' Hwf]]].
    assert (r' = r) as -> by congruence.
    assert (Hitem : item_wf item).
    { destruct Hreach as [_ [_ [_ [_ [Hall _]]]]].
      rewrite Hq in Hall. now inversion Hall. }
    unfold update_queue_display. rewrite Hq. simpl.
    eexists _, _. split; [reflexivity|].
    rewrite queue_line_marked.
    now apply (is_current_item_key st item r Hcur Hwf Hitem).
Qed.

(** ** The order of the jobs under all events *)

Lemma sublist_map {A B : Type} (f : A -> B) (l1 l2 : list A) :
  sublist l1 l2 -> sublist (map f l1) (map f l2).
Proof.
  induction 1; simpl; constructor; assumption.
Qed.

Lemma sublist_tail {A : Type} (l : list A) : sublist (tail l) l.
Proof.
  destruct l; simpl; [constructor|]. now apply sublist_cons.
Qed.

Lemma sublist_tail_delete {A : Type} (n : nat) (l : list A) :
  sublist (tail (delete n l)) (tail l).
Proof.
  destruct l as [|x l]; [destruct n; constructor|].
  destruct n; simpl; [apply sublist_tail | apply sublist_delete].
Qed.

Lemma order_at_sub
  (s w w' keys : list (string * string * option string)) :
  sublist w' w -> order_at s w keys -> order_at s w' keys.
Proof.
  intros Hw [started [pending [-> [Hs Hp]]]].
  exists started, pending. split; [reflexivity|]. split; [exact Hs|].
  now transitivity w.
Qed.

Lemma order_at_snoc
  (s w added keys : list (string * string * option string)) :
  order_at s w keys -> order_at s (w ++ added) (keys ++ added).
Proof.
  intros [started [pending [-> [Hs Hp]]]].
  exists started, (pending ++ added)%list.
  split; [now rewrite app_assoc|]. split; [exact Hs|].
  now apply sublist_app.
Qed.

Lemma order_at_start
  (s w keys : list (string * string * option string))
  (k : string * string * option string) :
  order_at s (k :: w) keys -> order_at (s ++ [k]) w keys.
Proof.
  intros [started [pending [-> [Hs Hp]]]].
  apply sublist_cons_l in Hp. destruct Hp as [p1 [p2 [-> Hp]]].
  exists (started ++ p1 ++ [k])%list, p2. split_conj.
  - rewrite <- !app_assoc. reflexivity.
  - apply sublist_app; [exact Hs|]. now apply sublist_inserts_l.
  - exact Hp.
Qed.

Lemma order_process_queue (st : UI)
  (keys : list (string * string * option string)) :
  current_download st = None -> order_inv st keys ->
  order_inv (process_queue st) keys.
Proof.
  intros Hc. unfold order_inv, waiting. rewrite Hc.
  destruct (download_queue st) as [|item rest] eqn:Hq.
  - unfold process_queue. rewrite Hq. simpl. now rewrite Hc, Hq.
  - destruct (process_queue_head st item rest Hq) as [Es [Ec [_ Eq]]].
    rewrite Es, Ec, Eq, map_app. simpl. apply order_at_start.
Qed.

Lemma order_advance_queue (st : UI)
  (keys : list (string * string * option string)) :
  order_inv st keys -> order_inv (advance_queue st) keys.
Proof.
  intros Hinv.
  assert (Hpop : order_inv
            (with_current (with_queue st (tail (download_queue st))) None)
            keys).
  { unfold order_inv, waiting in *. simpl.
    destruct (current_download st); [exact Hinv|].
    eapply order_at_sub; [|exact Hinv].
    apply sublist_map, sublist_tail. }
  destruct (download_queue st) as [|item [|next rest]] eqn:Hq.
  - unfold advance_queue. rewrite Hq. simpl. simpl in Hpop.
    destruct (show_download_summary_frame
                (with_current (with_queue st []) None)) as [Es [Ec [Eq _]]].
    unfold order_inv, waiting in *. simpl in *.
    now rewrite Es, Ec, Eq.
  - unfold advance_queue. rewrite Hq. simpl. simpl in Hpop.
    destruct (show_download_summary_frame
                (with_current (with_queue st []) None)) as [Es [Ec [Eq _]]].
    unfold order_inv, waiting in *. simpl in *.
    now rewrite Es, Ec, Eq.
  - rewrite (advance_queue_next _ _ _ _ Hq).
    now apply order_process_queue.
Qed.

Lemma worker_step_keys (st st' : UI) (o : op) :
  worker_op o = true -> step st o = Some st' ->
  map runnable_key (store st') = map runnable_key (store st).
Proof.
  destruct o; simpl; try discriminate; intros _.
  - unfold cancel_download. intros [= <-].
    destruct (current_download st) as [rid|]; [|reflexivity].
    destruct (store st !! rid) as [r|] eqn:Hr; [|reflexivity]. simpl.
    now apply (runnable_key_insert _ _ r).
  - unfold worker_enter.
    destruct (pool_phase st rid) as [[| |]|], (store st !! rid) as [r|];
      try discriminate.
    destruct (String.eqb (mode r) "video" && resolution_missing r);
      intros [= <-]; [|reflexivity].
    now destruct (emit_finished_pool_set st rid r (Raised MSG_NO_RESOLUTION))
      as [s [m [f [_ ->]]]].
  - unfold worker_hook.
    destruct (pool_phase st rid) as [[| |]|];
      destruct (store st !! rid) as [r|] eqn:Hr; try discriminate.
    destruct (progress_hook r d) as [message|r' events] eqn:Hhook;
      intros [= <-].
    + now destruct (emit_finished_pool_set st rid r (Raised message))
        as [s [m [f [_ ->]]]].
    + simpl. apply (runnable_key_insert _ _ r); [exact Hr|].
      exact (progress_hook_key _ _ _ _ Hhook).
  - unfold worker_return.
    destruct (pool_phase st rid) as [[| |]|], (store st !! rid) as [r|];
      try discriminate. intros [= <-].
    now destruct (emit_finished_pool_set st rid r (Returned true))
      as [s [m [f [_ ->]]]].
  - unfold worker_raise.
    destruct (pool_phase st rid) as [[| |]|], (store st !! rid) as [r|];
      try discriminate. intros [= <-].
    now destruct (emit_finished_pool_set st rid r (Raised error))
      as [s [m [f [_ ->]]]].
Qed.

Lemma order_worker_step (st st' : UI) (o : op)
  (keys : list (string * string * option string)) :
  worker_op o = true -> step st o = Some st' ->
  order_inv st keys -> order_inv st' keys.
Proof.
  intros Ho Hstep Hinv.
  destruct (worker_step_frame _ _ _ Ho Hstep) as [Eq [Ec _]].
  unfold order_inv, waiting in *.
  now rewrite (worker_step_keys _ _ _ Ho Hstep), Eq, Ec.
Qed.

Lemma order_step (st st' : UI) (o : op)
  (keys : list (string * string * option string)) :
  order_inv st keys -> step st o = Some st' ->
  order_inv st' (keys ++ map item_key (accepted_of o)).
Proof.
  intros Hinv Hstep.
  destruct (probe_op o) eqn:Hprobe.
  { replace (accepted_of o) with (@nil queue_item) by (now destruct o).
    simpl. rewrite app_nil_r.
    destruct (probe_step_frame st st' o Hprobe Hstep) as [Es [Ec [Eq _]]].
    unfold order_inv, waiting in *. now rewrite Es, Ec, Eq. }
  destruct o as [text v c| | |row|yes|rid|rid d|rid|rid error|rid
                |clipboard v|text|signal];
    simpl in Hprobe; try discriminate Hprobe;
    try (simpl accepted_of; simpl map; rewrite app_nil_r);
    try (now refine (order_worker_step st st' _ keys _ Hstep Hinv)).
  - simpl in Hstep. injection Hstep as <-.
    destruct (add_to_queue_accepted st text v c) as [Eq [Es [Ec _]]].
    unfold order_inv, waiting in *. rewrite Es, Ec, Eq.
    apply (order_at_sub _
             (map item_key (match current_download st with
                            | Some _ => tail (download_queue st)
                            | None => download_queue st
                            end) ++
              map item_key (accepted_of (OpAdd text v c)))%list).
    + rewrite <- map_app. apply sublist_map.
      destruct (current_download st); [|reflexivity].
      destruct (download_queue st); simpl; [apply sublist_tail | reflexivity].
    + now apply order_at_snoc.
  - simpl in Hstep. injection Hstep as <-. unfold start_downloads.
    destruct (download_queue st) as [|item rest] eqn:Hq.
    + exact Hinv.
    + change (current_download (set_controls_enabled st false))
        with (current_download st).
      destruct (current_download st) eqn:Hc.
      * unfold order_inv, waiting in *. simpl. now rewrite Hc, Hq in *.
      * apply order_process_queue; [exact Hc|].
        unfold order_inv, waiting in *. simpl. now rewrite Hc, Hq in *.
  - simpl in Hstep. unfold remove_selected in Hstep.
    destruct (0 <=? row)%Z; [|now injection Hstep as <-].
    destruct (row <? Z.of_nat (length (download_queue st)))%Z;
      [|discriminate].
    injection Hstep as <-. unfold order_inv, waiting in *. simpl.
    eapply order_at_sub; [|exact Hinv]. apply sublist_map.
    destruct (current_download st);
      [apply sublist_tail_delete | apply sublist_delete].
  - simpl in Hstep. injection Hstep as <-. unfold clear_queue.
    destruct (download_queue st) eqn:Hq; [exact Hinv|].
    destruct yes; [|exact Hinv].
    unfold order_inv, waiting in *. simpl.
    eapply order_at_sub; [|exact Hinv].
    destruct (current_download st); apply sublist_nil_l.
  - simpl in Hstep. unfold deliver_finished in Hstep.
    destruct (pool_phase st rid) as [[| |success message filename]|];
      try discriminate.
    injection Hstep as <-. unfold on_download_finished.
    apply order_advance_queue.
    destruct (record_outcome_frame (pool_remove st rid)
                success message filename) as [Es [Ec [Eq _]]].
    unfold order_inv, waiting in *. now rewrite Es, Ec, Eq.
Qed.

Lemma order_run (ops : list op) (st st' : UI)
  (keys : list (string * string * option string)) :
  order_inv st keys -> run_ops st ops = Some st' ->
  order_inv st' (keys ++ map item_key (enqueued ops)).
Proof.
  revert st keys. induction ops as [|o ops IH]; intros st keys Hinv Hrun.
  - simpl in *. injection Hrun as <-. now rewrite app_nil_r.
  - simpl in Hrun.
    destruct (step st o) as [st1|] eqn:Hstep; [|discriminate].
    unfold enqueued. simpl. rewrite map_app, app_assoc.
    apply (IH st1); [|exact Hrun]. exact (order_step st st1 o keys Hinv Hstep).
Qed.

(** X15.  The order of the jobs under every event, removals and clearing
    included.  The jobs started so far, in the order in which they were
    started, followed by the entries still waiting, form a subsequence of the
    accepted entries in the order in which they were added: no job is started
    before one that was added earlier and is still to run, and no entry is run
    more often than it was added. *)
Theorem started_in_enqueue_order (ops : list op) (st : UI) :
  run_ops initial_ui ops = Some st ->
  sublist (map runnable_key (store st) ++ map item_key (waiting st))%list
          (map item_key (enqueued ops)).
Proof.
  intros Hrun.
  assert (Hinit : order_inv initial_ui []).
  { exists [], []. split_conj; constructor. }
  destruct (order_run ops initial_ui st [] Hinit Hrun)
    as [started [pending [Hk [Hs Hw]]]].
  simpl in Hk. rewrite Hk. now apply sublist_app.
Qed.

End Program.

(** * The model at work

    The statements above are instantiated with the executable library
    functions and run on the sample inputs. *)



Lemma unmatched_url_classification_witness :
  startswith "https://www.youtube.com/watch?v=short" "http://"
  || startswith "https://www.youtube.com/watch?v=short" "https://" = true /\
  no_pattern_matches re_match_basic "https://www.youtube.com/watch?v=short" /\
  is_valid_video_url re_match_basic lower_basic
    "https://www.youtube.com/watch?v=short"
    = (false, msg_malformed "YouTube") /\
  is_valid_video_url re_match_basic lower_basic
    "https://www.youtube.com/watch?v=short"
    = (false, "Неверный формат URL для YouTube. Проверьте правильность ссылки.")
  /\
  is_valid_video_url re_match_basic lower_basic
    "https://www.youtube.com/watch?v=short"
    <> (false, MSG_UNSUPPORTED) /\
  no_pattern_matches re_match_basic "https://ok.ru/bad" /\
  is_valid_video_url re_match_basic lower_basic "https://ok.ru/bad"
    = (false, "Неподдерживаемый видеосервис или неверный формат URL").
Proof.
  assert (S1 : startswith "https://www.youtube.com/watch?v=short" "http://"
               || startswith "https://www.youtube.com/watch?v=short" "https://"
               = true) by reflexivity.
  assert (N1 : no_pattern_matches re_match_basic
                 "https://www.youtube.com/watch?v=short").
  { repeat constructor; vm_compute; reflexivity. }
  assert (S2 : startswith "https://ok.ru/bad" "http://"
               || startswith "https://ok.ru/bad" "https://" = true)
    by reflexivity.
  assert (N2 : no_pattern_matches re_match_basic "https://ok.ru/bad").
  { repeat constructor; vm_compute; reflexivity. }
  destruct (unmatched_url_classification re_match_basic lower_basic _ S1 N1)
    as [Hsome _].
  destruct (unmatched_url_classification re_match_basic lower_basic _ S2 N2)
    as [_ Hnone].
  destruct (Hsome "YouTube") as [first [Hfind [_ [_ [Hres [Htext [Hne _]]]]]]].
  { left. reflexivity. }
  { vm_compute. reflexivity. }
  assert (Hfirst : first = "YouTube").
  { vm_compute in Hfind. now injection Hfind as <-. }
  subst first.
  split; [exact S1|]. split; [exact N1|]. split; [exact Hres|].
  split; [exact Htext|]. split; [exact Hne|]. split; [exact N2|].
  apply Hnone. intros name Hin.
  repeat (destruct Hin as [<-|Hin]; [vm_compute; reflexivity|]).
  destruct Hin.
Defined.

(** C7: the counterexample.  With 150 bytes received against an estimated
    total of 100, the event carries a percentage above 100. *)
Lemma progress_percentage_above_100 :
  cancel_event runnable_a = false /\
  is_str (dict_get downloading_past_estimate "status" PNone) "downloading"
    = true /\
  hook_downloaded downloading_past_estimate = PNum 150 /\
  hook_total downloading_past_estimate = PNum 100 /\
  exists (text : string) (p : Q),
    progress_hook basename_posix format_1f_trunc runnable_a
                  downloading_past_estimate
      = HookDone runnable_a [(text, p)] /\
    (p == 150)%Q /\ ~ (p <= 100)%Q.
Proof.
  repeat (split; [reflexivity|]).
  eexists _, _. split; [vm_compute; reflexivity|].
  split; [reflexivity|]. intros H. now vm_compute in H.
Qed.

Lemma progress_percentage_witness :
  cancel_event runnable_a = false /\
  is_str (dict_get (downloading 5 10) "status" PNone) "downloading" = true /\
  (exists p : Q,
     progress_hook basename_posix format_1f_trunc runnable_a (downloading 5 10)
       = HookDone runnable_a
           [("Загрузка: " ++ format_1f_trunc p ++ "%", p)] /\
     (p == 50)%Q /\ (0 <= p)%Q /\ (p <= 100)%Q) /\
  progress_hook basename_posix format_1f_trunc runnable_a
                downloading_unknown_total
    = HookDone runnable_a [("Загрузка...", (-1)%Q)].
Proof.
  assert (Hc : cancel_event runnable_a = false) by reflexivity.
  assert (Hs : is_str (dict_get (downloading 5 10) "status" PNone)
                      "downloading" = true) by reflexivity.
  assert (Hs' : is_str (dict_get downloading_unknown_total "status" PNone)
                       "downloading" = true) by reflexivity.
  split; [exact Hc|]. split; [exact Hs|]. split.
  - destruct (progress_percentage basename_posix format_1f_trunc
                runnable_a (downloading 5 10) Hc Hs) as [Hknown _].
    destruct (Hknown 5%Q 10%Q) as [p [Hp [Heq Hrange]]];
      [reflexivity | reflexivity | discriminate |].
    exists p. split; [exact Hp|]. split.
    + rewrite Heq. reflexivity.
    + apply Hrange; [reflexivity|]. split; discriminate.
  - exact (proj2 (progress_percentage basename_posix format_1f_trunc
                    runnable_a downloading_unknown_total Hc Hs') eq_refl).
Defined.

Lemma success_without_filename_witness :
  pool_phase ui_downloading_a 0 = Some WDownloading /\
  store ui_downloading_a !! 0 = Some runnable_a /\
  default EmptyString (downloaded_filename runnable_a) = EmptyString /\
  exists st1 st2 : UI,
    worker_return lower_basic ui_downloading_a 0 = Some st1 /\
    deliver_finished st1 0 = Some st2 /\
    successful_downloads st2 = [] /\ failed_downloads st2 = [] /\
    dialogs st2 = [].
Proof.
  assert (H1 : pool_phase ui_downloading_a 0 = Some WDownloading)
    by reflexivity.
  assert (H2 : store ui_downloading_a !! 0 = Some runnable_a) by reflexivity.
  assert (H3 : default EmptyString (downloaded_filename runnable_a)
               = EmptyString) by reflexivity.
  split; [exact H1|]. split; [exact H2|]. split; [exact H3|].
  destruct (success_without_filename_unrecorded lower_basic
              ui_downloading_a 0 runnable_a H1 H2 H3)
    as [st1 [st2 [Hret [_ [Hdel [_ [Hst2 _]]]]]]].
  exists st1, st2. split; [exact Hret|]. split; [exact Hdel|].
  rewrite Hst2. repeat split.
Defined.

Lemma probe_resolutions_witness :
  ResolutionWorker_run (ExtractInfo (Some fixture_formats))
    = resolutions_found ["1080p"; "720p"; "360p"] /\
  ResolutionWorker_run_with (fun S => rev (elements S))
                            (ExtractInfo (Some fixture_formats))
    = resolutions_found ["1080p"; "720p"; "360p"] /\
  ResolutionWorker_run (ExtractInfo None) = resolutions_found ["720p"].
Proof.
  destruct probe_resolutions as [Hall [Hfix _]].
  split; [exact Hfix|]. split.
  - destruct (Hall (Some fixture_formats))
      as [sorted [Hrun [_ [_ [_ [_ [_ Henum]]]]]]].
    rewrite (Henum (fun S => rev (elements S))).
    + rewrite <- Hrun. exact Hfix.
    + intros S. symmetry. apply Permutation_rev.
  - destruct (Hall None) as [sorted [Hrun [_ [_ [_ [Hnil _]]]]]].
    rewrite Hrun. f_equal. apply Hnil. reflexivity.
Defined.

Lemma at_most_one_active_witness :
  forallb lifecycle_op
    [add_a; add_b; OpStart; WkEnter 0; WkHook 0 (downloading 5 10);
     WkReturn 0; OpDeliver 0; add_c] = true /\
  exists st : UI,
    run_ops re_match_basic lower_basic basename_posix format_1f_trunc
      initial_ui
      [add_a; add_b; OpStart; WkEnter 0; WkHook 0 (downloading 5 10);
       WkReturn 0; OpDeliver 0; add_c] = Some st /\
    active_runnables st = [1] /\
    length (active_runnables st) <= 1 /\ active_is_head st.
Proof.
  split; [reflexivity|].
  eexists. split; [vm_compute; reflexivity|]. split; [reflexivity|].
  apply (at_most_one_active re_match_basic lower_basic basename_posix
           format_1f_trunc
           [add_a; add_b; OpStart; WkEnter 0; WkHook 0 (downloading 5 10);
            WkReturn 0; OpDeliver 0; add_c]).
  - reflexivity.
  - vm_compute. reflexivity.
Defined.

Lemma fifo_execution_witness :
  forallb lifecycle_op
    ([add_a; add_b; add_c; OpStart]
     ++ [WkEnter 0; WkHook 0 (downloading 5 10); WkReturn 0]
     ++ [OpDeliver 0]) = true /\
  accepted_of re_match_basic lower_basic add_a = [item_a] /\
  accepted_of re_match_basic lower_basic add_b = [item_b] /\
  accepted_of re_match_basic lower_basic add_c = [item_c] /\
  exists st : UI,
    run_ops re_match_basic lower_basic basename_posix format_1f_trunc
      initial_ui
      ([add_a; add_b; add_c; OpStart]
       ++ [WkEnter 0; WkHook 0 (downloading 5 10); WkReturn 0]
       ++ [OpDeliver 0]) = Some st /\
    download_queue st = [item_b; item_c] /\
    current_download st = Some 1 /\
    store st !! 1 = Some (new_runnable url_b "video" (Some "720p")) /\
    active_runnables st = [1] /\
    length (store st) = 2.
Proof.
  assert (Ha : accepted_of re_match_basic lower_basic add_a = [item_a])
    by (vm_compute; reflexivity).
  assert (Hb : accepted_of re_match_basic lower_basic add_b = [item_b])
    by (vm_compute; reflexivity).
  assert (Hc : accepted_of re_match_basic lower_basic add_c = [item_c])
    by (vm_compute; reflexivity).
  split; [reflexivity|]. split; [exact Ha|]. split; [exact Hb|].
  split; [exact Hc|].
  eexists. split; [vm_compute; reflexivity|].
  eapply (fun Hrun =>
    proj2 (proj2
      (fifo_execution re_match_basic lower_basic basename_posix
         format_1f_trunc
         ([add_a; add_b; add_c; OpStart]
          ++ [WkEnter 0; WkHook 0 (downloading 5 10); WkReturn 0]
          ++ [OpDeliver 0]) _ eq_refl Hrun))
      add_a add_b add_c item_a item_b item_c
      [WkEnter 0; WkHook 0 (downloading 5 10); WkReturn 0]
      eq_refl Ha Hb Hc eq_refl).
  vm_compute. reflexivity.
Defined.

(** C3: the failing run.  Job A is downloading, the cancel button is
    pressed, and the next progress callback arrives: A ends in the failure
    list with the generic error message wrapped around the text of the
    exception, and B is started. *)
Lemma cancel_reported_as_error_witness :
  run_ops re_match_basic lower_basic basename_posix format_1f_trunc
    initial_ui
    [add_a; add_b; OpStart; WkEnter 0; WkHook 0 (downloading 5 10); OpCancel]
    = Some (log_progress ui_cancelling_a [("Загрузка: 50.0%", (5 / 10 * 100)%Q)])
  /\
  current_download ui_cancelling_a = Some 0 /\
  pool_phase ui_cancelling_a 0 = Some WDownloading /\
  store ui_cancelling_a !! 0 = Some runnable_a_cancelled /\
  cancel_event runnable_a_cancelled = true /\
  exists st1 st2 : UI,
    worker_hook lower_basic basename_posix format_1f_trunc
      ui_cancelling_a 0 (downloading 6 10) = Some st1 /\
    pool_phase st1 0 =
      Some (WEmitted false "Ошибка загрузки: Загрузка отменена пользователем"
                     EmptyString) /\
    deliver_finished st1 0 = Some st2 /\
    failed_downloads st2 =
      [(url_a, "Ошибка загрузки: Загрузка отменена пользователем")] /\
    current_download st2 = Some 1 /\
    store st2 !! 1 = Some (new_runnable url_b "video" (Some "720p")) /\
    download_queue st2 = [item_b].
Proof.
  split; [vm_compute; reflexivity|].
  assert (H1 : current_download ui_cancelling_a = Some 0) by reflexivity.
  assert (H2 : pool_phase ui_cancelling_a 0 = Some WDownloading)
    by reflexivity.
  assert (H3 : store ui_cancelling_a !! 0 = Some runnable_a_cancelled)
    by reflexivity.
  assert (H4 : cancel_event runnable_a_cancelled = true) by reflexivity.
  split; [exact H1|]. split; [exact H2|]. split; [exact H3|].
  split; [exact H4|].
  destruct (cancel_reported_as_error lower_basic basename_posix
              format_1f_trunc ui_cancelling_a 0 runnable_a_cancelled
              (downloading 6 10) H1 H2 H3 H4)
    as [Hhook [_ [_ [Hdel Hnext]]]].
  eexists _, _. split; [exact Hhook|]. split; [vm_compute; reflexivity|].
  split; [exact Hdel|].
  destruct (Hnext item_a item_b [] eq_refl) as [Hc [Hs Hq]].
  split; [vm_compute; reflexivity|].
  split; [exact Hc|]. split; [exact Hs | exact Hq].
Defined.





(** ** The further properties on the sample runs *)

Lemma one_active_under_all_events_witness :
  exists st : UI,
    run_ops re_match_basic lower_basic basename_posix format_1f_trunc
      initial_ui events_with_removal = Some st /\
    active_runnables st = [1] /\
    length (active_runnables st) <= 1 /\
    (forall rid, In rid (active_runnables st) <->
                 current_download st = Some rid) /\
    (forall rid, current_download st = Some rid ->
                 exists r ph, store st !! rid = Some r /\
                              pool_phase st rid = Some ph).
Proof.
  eexists. split; [vm_compute; reflexivity|]. split; [reflexivity|].
  apply (one_active_under_all_events re_match_basic lower_basic
           basename_posix format_1f_trunc events_with_removal).
  vm_compute. reflexivity.
Defined.

Lemma controls_disabled_iff_downloading_witness :
  exists st : UI,
    run_ops re_match_basic lower_basic basename_posix format_1f_trunc
      initial_ui events_with_probe = Some st /\
    current_download st = Some 0 /\
    controls_enabled st = false /\
    resolution_combo_enabled st = true /\
    (controls_enabled st = false <-> current_download st <> None).
Proof.
  eexists. split; [vm_compute; reflexivity|]. split; [reflexivity|].
  split; [reflexivity|]. split; [reflexivity|].
  apply (controls_disabled_iff_downloading re_match_basic lower_basic
           basename_posix format_1f_trunc events_with_probe).
  vm_compute. reflexivity.
Defined.

Lemma idle_lists_empty_witness :
  exists st : UI,
    run_ops re_match_basic lower_basic basename_posix format_1f_trunc
      initial_ui events_to_idle = Some st /\
    current_download st = None /\
    dialogs st = [Summary [("a_audio.webm", url_a)] []] /\
    successful_downloads st = [] /\ failed_downloads st = [] /\
    thread_pool st = [].
Proof.
  eexists. split; [vm_compute; reflexivity|]. split; [reflexivity|].
  split; [reflexivity|].
  apply (idle_lists_empty re_match_basic lower_basic basename_posix
           format_1f_trunc events_to_idle).
  - vm_compute. reflexivity.
  - reflexivity.
Defined.

Lemma queued_jobs_validated_witness :
  exists st : UI,
    run_ops re_match_basic lower_basic basename_posix format_1f_trunc
      initial_ui events_with_removal = Some st /\
    download_queue st = [item_c] /\
    (forall item, In item (download_queue st) ->
       (exists text, item_url item = strip text) /\
       fst (is_valid_video_url re_match_basic lower_basic (item_url item))
         = true /\
       item_service item = get_service_name (item_url item) /\
       mode_shape (item_mode item) (item_resolution item)) /\
    (forall r, In r (store st) ->
       fst (is_valid_video_url re_match_basic lower_basic (url r)) = true /\
       output_dir r = "downloads" /\
       mode_shape (mode r) (resolution r)).
Proof.
  eexists. split; [vm_compute; reflexivity|]. split; [reflexivity|].
  apply (queued_jobs_validated re_match_basic lower_basic basename_posix
           format_1f_trunc events_with_removal).
  vm_compute. reflexivity.
Defined.

Lemma outcome_accounting_witness :
  exists st st' : UI,
    run_ops re_match_basic lower_basic basename_posix format_1f_trunc
      initial_ui events_cancelled = Some st /\
    step re_match_basic lower_basic basename_posix format_1f_trunc
      st (OpDeliver 0) = Some st' /\
    failed_downloads st' =
      [(url_a, "Ошибка загрузки: Загрузка отменена пользователем")] /\
    exists r success message filename,
      store st !! 0 = Some r /\
      pool_phase st 0 = Some (WEmitted success message filename) /\
      all_failed st' =
        (all_failed st ++
         (if success then [] else [(url r, message)]))%list /\
      all_successful st' =
        (all_successful st ++
         (if success && negb (String.eqb filename EmptyString)
          then [(filename, url r)] else []))%list /\
      download_queue st' = tail (download_queue st).
Proof.
  eexists _, _. split; [vm_compute; reflexivity|].
  split; [vm_compute; reflexivity|]. split; [reflexivity|].
  apply (outcome_accounting re_match_basic lower_basic basename_posix
           format_1f_trunc events_cancelled _ _ (OpDeliver 0)).
  - vm_compute. reflexivity.
  - vm_compute. reflexivity.
Defined.

Lemma runnables_persist_witness :
  store ui_downloading_a !! 0 = Some runnable_a /\
  exists st' : UI,
    run_ops re_match_basic lower_basic basename_posix format_1f_trunc
      ui_downloading_a [OpCancel; WkHook 0 (downloading 6 10); OpDeliver 0]
      = Some st' /\
    current_download st' = Some 1 /\
    exists r' : DownloadRunnable,
      store st' !! 0 = Some r' /\
      url r' = url runnable_a /\ mode r' = mode runnable_a /\
      resolution r' = resolution runnable_a /\
      output_dir r' = output_dir runnable_a /\
      (cancel_event runnable_a = true -> cancel_event r' = true).
Proof.
  split; [reflexivity|].
  eexists. split; [vm_compute; reflexivity|]. split; [reflexivity|].
  apply (runnables_persist re_match_basic lower_basic basename_posix
           format_1f_trunc
           [OpCancel; WkHook 0 (downloading 6 10); OpDeliver 0]
           ui_downloading_a _ 0 runnable_a).
  - vm_compute. reflexivity.
  - reflexivity.
Defined.

Lemma cancel_seen_only_by_hook_witness :
  current_download ui_downloading_a = Some 0 /\
  pool_phase ui_downloading_a 0 = Some WDownloading /\
  store ui_downloading_a !! 0 = Some runnable_a /\
  store (cancel_download ui_downloading_a) !! 0 = Some (cancel runnable_a) /\
  (forall d : gmap string pyval,
     exists st1 : UI,
       worker_hook lower_basic basename_posix format_1f_trunc
         (cancel_download ui_downloading_a) 0 d = Some st1 /\
       progress_log st1 = progress_log ui_downloading_a /\
       store st1 = store (cancel_download ui_downloading_a) /\
       pool_phase st1 0 =
         Some (WEmitted false
                 (get_user_friendly_error_message lower_basic
                    MSG_CANCELLED_BY_USER)
                 EmptyString)) /\
  exists st2 : UI,
    worker_return lower_basic (cancel_download ui_downloading_a) 0
      = Some st2 /\
    pool_phase st2 0 =
      Some (WEmitted true MSG_DONE
              (default EmptyString (downloaded_filename runnable_a))).
Proof.
  assert (H1 : current_download ui_downloading_a = Some 0) by reflexivity.
  assert (H2 : pool_phase ui_downloading_a 0 = Some WDownloading)
    by reflexivity.
  assert (H3 : store ui_downloading_a !! 0 = Some runnable_a) by reflexivity.
  split; [exact H1|]. split; [exact H2|]. split; [exact H3|].
  exact (cancel_seen_only_by_hook lower_basic basename_posix format_1f_trunc
           ui_downloading_a 0 runnable_a H1 H2 H3).
Defined.

Lemma finished_file_recorded_witness :
  current_download ui_downloading_a = Some 0 /\
  pool_phase ui_downloading_a 0 = Some WDownloading /\
  store ui_downloading_a !! 0 = Some runnable_a /\
  cancel_event runnable_a = false /\
  dict_get finished_a "status" PNone = PStr "finished" /\
  dict_get finished_a "filename" (PStr EmptyString)
    = PStr "downloads/a_audio.webm" /\
  basename_posix "downloads/a_audio.webm" = "a_audio.webm" /\
  exists st1 st2 st3 : UI,
    worker_hook lower_basic basename_posix format_1f_trunc
      ui_downloading_a 0 finished_a = Some st1 /\
    progress_log st1 =
      (progress_log ui_downloading_a ++ [("Обработка файла...", 100%Q)])%list /\
    worker_return lower_basic st1 0 = Some st2 /\
    pool_phase st2 0 =
      Some (WEmitted true MSG_DONE
              (basename_posix "downloads/a_audio.webm")) /\
    deliver_finished st2 0 = Some st3 /\
    all_successful st3 =
      (all_successful ui_downloading_a ++
       [(basename_posix "downloads/a_audio.webm", url runnable_a)])%list /\
    all_failed st3 = all_failed ui_downloading_a.
Proof.
  assert (H1 : current_download ui_downloading_a = Some 0) by reflexivity.
  assert (H2 : pool_phase ui_downloading_a 0 = Some WDownloading)
    by reflexivity.
  assert (H3 : store ui_downloading_a !! 0 = Some runnable_a) by reflexivity.
  assert (H4 : cancel_event runnable_a = false) by reflexivity.
  assert (H5 : dict_get finished_a "status" PNone = PStr "finished")
    by (vm_compute; reflexivity).
  assert (H6 : dict_get finished_a "filename" (PStr EmptyString)
               = PStr "downloads/a_audio.webm") by (vm_compute; reflexivity).
  assert (H7 : basename_posix "downloads/a_audio.webm" = "a_audio.webm")
    by (vm_compute; reflexivity).
  split; [exact H1|]. split; [exact H2|]. split; [exact H3|].
  split; [exact H4|]. split; [exact H5|]. split; [exact H6|].
  split; [exact H7|].
  apply (finished_file_recorded lower_basic basename_posix format_1f_trunc
           ui_downloading_a 0 runnable_a finished_a
           "downloads/a_audio.webm" H1 H2 H3 H4 H5 H6).
  rewrite H7. discriminate.
Defined.

Lemma start_while_downloading_witness :
  exists st : UI,
    run_ops re_match_basic lower_basic basename_posix format_1f_trunc
      initial_ui events_with_probe = Some st /\
    current_download st = Some 0 /\
    resolution_combo_enabled st = true /\
    resolution_combo_enabled (start_downloads st) = false /\
    (download_queue st <> [] ->
     start_downloads st = with_combo_enabled st false) /\
    (download_queue st = [] ->
     start_downloads st = show_dialog st InfoQueueEmpty).
Proof.
  eexists. split; [vm_compute; reflexivity|]. split; [reflexivity|].
  split; [reflexivity|]. split; [reflexivity|].
  apply (start_while_downloading re_match_basic lower_basic basename_posix
           format_1f_trunc events_with_probe).
  - vm_compute. reflexivity.
  - discriminate.
Defined.

Lemma entry_check_witness :
  exists st : UI,
    run_ops re_match_basic lower_basic basename_posix format_1f_trunc
      initial_ui [add_b; OpStart] = Some st /\
    pool_phase st 0 = Some WQueued /\
    exists r : DownloadRunnable,
      store st !! 0 = Some r /\
      current_download st = Some 0 /\
      mode_shape (mode r) (resolution r) /\
      (mode r = "audio" ->
       worker_enter lower_basic st 0 = Some (pool_set st 0 WDownloading)) /\
      (forall c, mode r = "video" -> resolution r = Some c ->
         c <> EmptyString ->
         worker_enter lower_basic st 0 = Some (pool_set st 0 WDownloading)) /\
      (mode r = "video" -> resolution r = Some EmptyString ->
       worker_enter lower_basic st 0 =
         Some (pool_set st 0
                 (WEmitted false
                    (get_user_friendly_error_message lower_basic
                       MSG_NO_RESOLUTION)
                    EmptyString))).
Proof.
  eexists. split; [vm_compute; reflexivity|]. split; [reflexivity|].
  apply (entry_check re_match_basic lower_basic basename_posix
           format_1f_trunc [add_b; OpStart]).
  - vm_compute. reflexivity.
  - reflexivity.
Defined.

Lemma probed_resolution_bounds_height_witness :
  ResolutionWorker_run (ExtractInfo (Some fixture_formats))
    = resolutions_found ["1080p"; "720p"; "360p"] /\
  exists h : Z,
    "720p" = resolution_label h /\
    In h (probed_heights (Some fixture_formats)) /\
    resolution_key "720p" = Some h /\
    download_video_format (new_runnable url_b "video" (Some "720p")) =
      inr ("bestvideo[height<=" ++ py_str_int h ++
           "]+bestaudio/best[height<=" ++ py_str_int h ++ "]").
Proof.
  assert (H : ResolutionWorker_run (ExtractInfo (Some fixture_formats))
              = resolutions_found ["1080p"; "720p"; "360p"])
    by (vm_compute; reflexivity).
  split; [exact H|].
  apply (probed_resolution_bounds_height (Some fixture_formats)
           ["1080p"; "720p"; "360p"] "720p"
           (new_runnable url_b "video" (Some "720p")) H).
  - right. left. reflexivity.
  - reflexivity.
Defined.

Lemma queue_rows_witness :
  exists st : UI,
    run_ops re_match_basic lower_basic basename_posix format_1f_trunc
      initial_ui [add_a; add_b; OpStart] = Some st /\
    update_queue_display st =
      ["⌛ 1. [YouTube] https://youtu.be/aaaaaaaaaaa - аудио";
       "  2. [YouTube] https://youtu.be/bbbbbbbbbbb - видео (720p)"] /\
    length (update_queue_display st) = length (download_queue st) /\
    (forall i item, download_queue st !! i = Some item ->
       exists row, update_queue_display st !! i = Some row /\
         (marked row = true <->
          exists r, current_runnable st = Some r /\
                    runnable_key r = item_key item)) /\
    (forallb lifecycle_op [add_a; add_b; OpStart] = true ->
     forall rid, current_download st = Some rid ->
       exists row rest,
         update_queue_display st = row :: rest /\ marked row = true).
Proof.
  eexists. split; [vm_compute; reflexivity|].
  split; [vm_compute; reflexivity|].
  apply (queue_rows re_match_basic lower_basic basename_posix
           format_1f_trunc [add_a; add_b; OpStart]).
  vm_compute. reflexivity.
Defined.

Lemma started_in_enqueue_order_witness :
  exists st : UI,
    run_ops re_match_basic lower_basic basename_posix format_1f_trunc
      initial_ui events_with_removal = Some st /\
    map runnable_key (store st) = [item_key item_a; item_key item_c] /\
    map item_key (enqueued re_match_basic lower_basic events_with_removal)
      = [item_key item_a; item_key item_b; item_key item_c] /\
    sublist (map runnable_key (store st) ++ map item_key (waiting st))%list
            (map item_key
               (enqueued re_match_basic lower_basic events_with_removal)).
Proof.
  eexists. split; [vm_compute; reflexivity|].
  split; [reflexivity|]. split; [vm_compute; reflexivity|].
  apply (started_in_enqueue_order re_match_basic lower_basic basename_posix
           format_1f_trunc events_with_removal).
  vm_compute. reflexivity.
Defined.
